(** * Password-Strength-Checker: a shallow embedding of the scoring core

    The development follows [Password-Strength-Checker.py]: the installer of
    optional packages [ensure_package], the character classifier
    [char_classes], the entropy estimator [shannon_entropy], the composite
    scorer [simple_score], the wordlist matcher [check_local_wordlist], the
    breach lookup client [hibp_pwned_count], the orchestrator
    [analyze_password], the report [print_report] and the interactive loop
    [interactive_loop].

    Modelling conventions.
    - A Python [str] is a list of Unicode code points; a Python [int] is a [Z].
    - A Python [float] is idealised as a real number: rounding of the binary
      representation is not modelled, the exceptions of the float operations
      (division by zero, logarithm of a non-positive number) are.
    - An exception is a value of [exn]; code that can raise returns a
      [result].
    - Code that reads or changes the state of the process and of its
      surroundings (the globals [zxcvbn] and [requests], the files, the
      terminal, the commands run, the requests sent) is a function of a
      [world].
    - [print] appends to the text written so far; writing to the stream is
      taken to succeed. *)

From Stdlib Require Import List String Ascii Bool Arith ZArith NArith Lia.
From Stdlib Require Import Reals Lra Permutation DecimalString.
Import ListNotations.

Local Open Scope Z_scope.

(** ** Strings *)

Abbreviation char := N (only parsing).
Abbreviation str := (list N) (only parsing).

(** A literal of the source text, as a [str]. *)
Definition lit (s : string) : str := map N_of_ascii (list_ascii_of_string s).

Definition len {A : Type} (l : list A) : Z := Z.of_nat (List.length l).

Definition str_eqb (a b : str) : bool :=
  if list_eq_dec N.eq_dec a b then true else false.

(** [int.__str__]: the decimal text of an integer. *)
Definition str_of_int (z : Z) : str := lit (NilZero.string_of_int (Z.to_int z)).

(** ** Exceptions *)

Inductive exn_class :=
| ZeroDivisionError
| ValueError
| KeyError
| FileNotFoundError
| RuntimeError
| UnicodeEncodeError
| OtherException (name : string).

(** An exception: its class, and the text [str(e)] gives. *)
Record exn := Raise { exn_class_of : exn_class; exn_str : str }.

Inductive result (A : Type) :=
| Ok (a : A)
| Err (e : exn).
Arguments Ok {A} a.
Arguments Err {A} e.

Definition bind {A B : Type} (r : result A) (k : A -> result B) : result B :=
  match r with
  | Ok a => k a
  | Err e => Err e
  end.

Declare Scope result_scope.
Delimit Scope result_scope with result.
Notation "x <- r ;; k" := (bind r (fun x => k))
  (at level 61, r at next level, right associativity) : result_scope.
Notation "' p <- r ;; k" := (bind r (fun x => match x with p => k end))
  (at level 61, p pattern, r at next level, right associativity) : result_scope.

(** The errors the interpreter itself raises in the modelled code. *)
Inductive builtin_error :=
| DivisionByZero
| MathDomain
| MissingKey (k : Z)
| Unpack (expected got : nat)
| Unencodable (s : str).

(** ** The runtime

    What the code takes from CPython and no file of the repository defines:
    the Unicode character database behind [str.isupper], [str.islower],
    [str.isdigit], [str.isalnum] and [str.upper] (their values on the Basic
    Latin block are written out below, the record supplies the rest), the
    conversion [int(text)] and the text of the interpreter's own error
    messages. *)
Class Runtime := {
  ucd_isupper : char -> bool;
  ucd_islower : char -> bool;
  ucd_isdigit : char -> bool;
  ucd_isalnum : char -> bool;
  ucd_upper : char -> str;
  py_int : str -> result Z;
  builtin_msg : builtin_error -> str
}.

(** ** Dictionaries

    A Python [dict] keeps its keys in insertion order; assigning to a key that
    is present keeps the key's position. *)

Class Eqb (K : Type) := {
  eqb : K -> K -> bool;
  eqb_spec : forall x y, reflect (x = y) (eqb x y)
}.

#[export] Instance N_Eqb : Eqb N := {| eqb := N.eqb; eqb_spec := N.eqb_spec |}.
#[export] Instance Z_Eqb : Eqb Z := {| eqb := Z.eqb; eqb_spec := Z.eqb_spec |}.
#[export] Instance string_Eqb : Eqb string :=
  {| eqb := String.eqb; eqb_spec := String.eqb_spec |}.

Definition dict (K V : Type) := list (K * V).

Section Dict.
Context {K V : Type} `{Eqb K}.

(** [d.get(k)] *)
Fixpoint dict_get (d : dict K V) (k : K) : option V :=
  match d with
  | [] => None
  | (k', v) :: rest => if eqb k' k then Some v else dict_get rest k
  end.

(** [d.get(k, default)] *)
Definition dict_get_default (d : dict K V) (k : K) (default : V) : V :=
  match dict_get d k with
  | Some v => v
  | None => default
  end.

(** [d[k] = v] *)
Fixpoint dict_set (d : dict K V) (k : K) (v : V) : dict K V :=
  match d with
  | [] => [(k, v)]
  | (k', v') :: rest =>
      if eqb k' k then (k', v) :: rest else (k', v') :: dict_set rest k v
  end.

(** [d.values()] *)
Definition dict_values (d : dict K V) : list V := map snd d.

Definition dict_keys (d : dict K V) : list K := map fst d.
End Dict.

(** ** Character classifier *)

Section Core.
Context {rt : Runtime}.

Definition raise {A : Type} (c : exn_class) (b : builtin_error) : result A :=
  Err (Raise c (builtin_msg b)).

Definition in_range (lo hi c : N) : bool := ((lo <=? c) && (c <=? hi))%N.

Definition isupper (c : char) : bool :=
  if (c <? 128)%N then in_range 65 90 c else ucd_isupper c.

Definition islower (c : char) : bool :=
  if (c <? 128)%N then in_range 97 122 c else ucd_islower c.

Definition isdigit (c : char) : bool :=
  if (c <? 128)%N then in_range 48 57 c else ucd_isdigit c.

Definition isalnum (c : char) : bool :=
  if (c <? 128)%N
  then in_range 65 90 c || in_range 97 122 c || in_range 48 57 c
  else ucd_isalnum c.

(** [any(f(c) for c in s)] *)
Definition any {A : Type} (f : A -> bool) (s : list A) : bool := existsb f s.

Definition char_classes (password : str) : bool * bool * bool * bool :=
  let has_upper := any isupper password in
  let has_lower := any islower password in
  let has_digit := any isdigit password in
  let has_special := any (fun c => negb (isalnum c)) password in
  (has_upper, has_lower, has_digit, has_special).

(** [sum] of a list of [bool]: [True] counts 1, [False] counts 0. *)
Definition sum_bools (l : list bool) : Z :=
  fold_left (fun acc b => acc + Z.b2z b) l 0.

(** The number of true class flags. *)
Definition classCount (password : str) : Z :=
  let '(has_upper, has_lower, has_digit, has_special) := char_classes password in
  sum_bools [has_upper; has_lower; has_digit; has_special].

(** ** Entropy estimator *)

(** [count / length] on two [int]s. *)
Definition truediv (a b : Z) : result R :=
  if b =? 0 then raise ZeroDivisionError DivisionByZero
  else Ok (IZR a / IZR b)%R.

(** [math.log2] *)
Definition log2 (x : R) : result R :=
  if Rlt_dec 0 x then Ok (ln x / ln 2)%R
  else raise ValueError MathDomain.

(** The loop [for char in password: frequency[char] = frequency.get(char, 0) + 1]. *)
Definition count_chars (password : str) : dict char Z :=
  fold_left
    (fun frequency char => dict_set frequency char (dict_get_default frequency char 0 + 1))
    password [].

(** The loop [for count in frequency.values(): ...] on the accumulator
    [entropy]. *)
Fixpoint entropy_loop (length : Z) (counts : list Z) (entropy : R) : result R :=
  match counts with
  | [] => Ok entropy
  | count :: rest =>
      (p <- truediv count length ;;
       l <- log2 p ;;
       entropy_loop length rest (entropy - p * l)%R)%result
  end.

Definition shannon_entropy (password : str) : result R :=
  match password with
  | [] => Ok 0%R
  | _ =>
      let frequency := count_chars password in
      let entropy := 0%R in
      let length := len password in
      (entropy <- entropy_loop length (dict_values frequency) entropy ;;
       Ok (entropy * IZR length)%R)%result
  end.

(** ** Composite scorer *)

Definition Rgeb (x y : R) : bool := if Rge_dec x y then true else false.

(** Lines 87 and 90-94 of the source: the score as a function of the
    length, the four class flags and the entropy. *)
Definition score_rule (length : Z) (flags : bool * bool * bool * bool)
    (entropy : R) : Z :=
  let '(has_upper, has_lower, has_digit, has_special) := flags in
  let classes := sum_bools [has_upper; has_lower; has_digit; has_special] in
  let score := 0 in
  let score := if length >=? 8 then score + 1 else score in
  let score := if length >=? 12 then score + 1 else score in
  let score := if classes >=? 2 then score + 1 else score in
  let score := if (classes >=? 3) && Rgeb entropy 40 then score + 1 else score in
  score.

Definition label_table : dict Z str :=
  [ (0, lit "Very weak"); (1, lit "Weak"); (2, lit "Moderate");
    (3, lit "Strong"); (4, lit "Very strong") ].

(** [d[k]], which raises [KeyError] when the key is missing. *)
Definition dict_getitem {V : Type} (d : dict Z V) (k : Z) : result V :=
  match dict_get d k with
  | Some v => Ok v
  | None => raise KeyError (MissingKey k)
  end.

Definition simple_score (password : str) : result (Z * str) :=
  let length := len password in
  let flags := char_classes password in
  (entropy <- shannon_entropy password ;;
   let score := score_rule length flags entropy in
   label <- dict_getitem label_table (Z.min score 4) ;;
   Ok (score, label))%result.

(** ** Wordlist matcher *)

Definition LF : char := 10%N.
Definition CR : char := 13%N.

Fixpoint dropwhile {A : Type} (f : A -> bool) (l : list A) : list A :=
  match l with
  | [] => []
  | x :: rest => if f x then dropwhile f rest else l
  end.

Definition mem (c : char) (chars : str) : bool := existsb (N.eqb c) chars.

(** [s.rstrip(chars)]: the trailing characters that occur in [chars] are
    removed. *)
Definition rstrip (chars : str) (s : str) : str :=
  rev (dropwhile (fun c => mem c chars) (rev s)).

(** A file opened in text mode with the default [newline=None]: on reading,
    the line endings CR LF and CR become LF. *)
Fixpoint universal_newlines (s : str) : str :=
  match s with
  | [] => []
  | c :: rest =>
      if (c =? CR)%N then
        match rest with
        | c' :: rest' =>
            if (c' =? LF)%N then LF :: universal_newlines rest'
            else LF :: universal_newlines rest
        | [] => [LF]
        end
      else c :: universal_newlines rest
  end.

(** Iterating over a text file yields its lines, each with its LF; the last
    one has none when the file does not end in a line ending. [cur] holds the
    characters of the current line, last one first. *)
Fixpoint lines_of (s : str) (cur : str) : list str :=
  match s with
  | [] => match cur with [] => [] | _ => [rev cur] end
  | c :: rest =>
      if (c =? LF)%N then rev (c :: cur) :: lines_of rest []
      else lines_of rest (c :: cur)
  end.

(** The file system, as the matcher sees it. [fs path] is [None] when [path]
    is no regular file. A regular file either reads to its end, as the text
    [content] (decoded as UTF-8 with undecodable bytes dropped,
    [errors="ignore"]), or fails: [open] raises [e] and nothing is read
    ([read] is empty), or a read raises [e] after the text [read]. *)
Inductive file :=
| Readable (content : str)
| Failing (read : str) (e : exn).

Definition filesystem := str -> option file.

Definition os_path_isfile (fs : filesystem) (path : str) : bool :=
  match fs path with Some _ => true | None => false end.

(** [open(path, "r", encoding="utf-8", errors="ignore")], read by iteration:
    the lines that the iteration yields and the exception that ends it, if
    any. *)
Definition open_lines (fs : filesystem) (path : str) : list str * option exn :=
  match fs path with
  | Some (Readable content) => (lines_of (universal_newlines content) [], None)
  | Some (Failing read e) => (lines_of (universal_newlines read) [], Some e)
  | None =>
      ([], Some (Raise FileNotFoundError
                   (lit "[Errno 2] No such file or directory: '" ++ path ++ lit "'")))
  end.

(** The loop [for line in f: if line.rstrip("\r\n") == password_stripped: return True]
    followed by [return False]; [failure] is the exception that ends the
    iteration, if any. *)
Fixpoint wordlist_loop (password_stripped : str) (f : list str)
    (failure : option exn) : result bool :=
  match f with
  | [] =>
      match failure with
      | Some e => Err e
      | None => Ok false
      end
  | line :: rest =>
      if str_eqb (rstrip [CR; LF] line) password_stripped then Ok true
      else wordlist_loop password_stripped rest failure
  end.

Definition check_local_wordlist (fs : filesystem) (password path : str)
    : result bool :=
  if negb (os_path_isfile fs path) then Err (Raise FileNotFoundError path)
  else
    let password_stripped := rstrip [LF] password in
    let (f, failure) := open_lines fs path in
    wordlist_loop password_stripped f failure.

(** ** SHA-1 (FIPS 180-4) on bytes, for [hashlib.sha1] *)

Definition w32 (x : Z) : Z := Z.land x 0xFFFFFFFF.

Definition rotl (n x : Z) : Z :=
  w32 (Z.lor (Z.shiftl x n) (Z.shiftr x (32 - n))).

(** The [n] bytes of [x], most significant first. *)
Fixpoint be_bytes (n : nat) (x : Z) : list Z :=
  match n with
  | O => []
  | S m => Z.land (Z.shiftr x (8 * Z.of_nat m)) 0xFF :: be_bytes m x
  end.

Definition be_word (bs : list Z) : Z :=
  fold_left (fun acc b => Z.lor (Z.shiftl acc 8) b) bs 0.

Definition sha1_pad (msg : list Z) : list Z :=
  let l := len msg in
  msg ++ [0x80] ++ repeat 0 (Z.to_nat ((55 - l) mod 64)) ++ be_bytes 8 (8 * l).

Fixpoint chunks (fuel : nat) (size : nat) (l : list Z) : list (list Z) :=
  match fuel, l with
  | O, _ => []
  | _, [] => []
  | S f, _ => firstn size l :: chunks f size (skipn size l)
  end.

(** The message schedule, last word first: [w_rev] starts as the sixteen words
    of the block and grows by [n] words. *)
Fixpoint sha1_schedule (n : nat) (w_rev : list Z) : list Z :=
  match n with
  | O => w_rev
  | S m =>
      let x := Z.lxor (Z.lxor (nth 2 w_rev 0) (nth 7 w_rev 0))
                      (Z.lxor (nth 13 w_rev 0) (nth 15 w_rev 0)) in
      sha1_schedule m (rotl 1 x :: w_rev)
  end.

Definition sha1_state := (Z * Z * Z * Z * Z)%type.

Definition sha1_round (st : sha1_state) (iw : Z * Z) : sha1_state :=
  let '(a, b, c, d, e) := st in
  let '(i, wi) := iw in
  let '(f, k) :=
    if i <? 20 then (Z.lor (Z.land b c) (Z.land (Z.lxor b 0xFFFFFFFF) d), 0x5A827999)
    else if i <? 40 then (Z.lxor (Z.lxor b c) d, 0x6ED9EBA1)
    else if i <? 60 then
      (Z.lor (Z.lor (Z.land b c) (Z.land b d)) (Z.land c d), 0x8F1BBCDC)
    else (Z.lxor (Z.lxor b c) d, 0xCA62C1D6) in
  let temp := w32 (rotl 5 a + f + e + k + wi) in
  (temp, a, rotl 30 b, c, d).

Definition sha1_block (h : sha1_state) (block : list Z) : sha1_state :=
  let words := map be_word (chunks 16 4 block) in
  let w := rev (sha1_schedule 64 (rev words)) in
  let iw := combine (map Z.of_nat (seq 0 80)) w in
  let '(a, b, c, d, e) := fold_left sha1_round iw h in
  let '(h0, h1, h2, h3, h4) := h in
  (w32 (h0 + a), w32 (h1 + b), w32 (h2 + c), w32 (h3 + d), w32 (h4 + e)).

Definition sha1_init : sha1_state :=
  (0x67452301, 0xEFCDAB89, 0x98BADCFE, 0x10325476, 0xC3D2E1F0).

(** [hashlib.sha1(data).digest()]: twenty bytes. *)
Definition sha1 (data : list Z) : list Z :=
  let padded := sha1_pad data in
  let '(h0, h1, h2, h3, h4) :=
    fold_left sha1_block (chunks (List.length padded) 64 padded) sha1_init in
  be_bytes 4 h0 ++ be_bytes 4 h1 ++ be_bytes 4 h2 ++ be_bytes 4 h3 ++ be_bytes 4 h4.

Definition hex_digit (n : Z) : char :=
  Z.to_N (if n <? 10 then 48 + n else 87 + n).

(** [.hexdigest()]: two lower-case hexadecimal digits for each byte. *)
Definition hexdigest (digest : list Z) : str :=
  flat_map (fun b => [hex_digit (Z.shiftr b 4); hex_digit (Z.land b 0xF)]) digest.

(** [password.encode("utf-8")]; a surrogate (U+D800 to U+DFFF) cannot be
    encoded, and a [str] holds no code point above U+10FFFF. *)
Definition utf8_char (c : Z) : option (list Z) :=
  if c <? 0x80 then Some [c]
  else if c <? 0x800 then
    Some [Z.lor 0xC0 (Z.shiftr c 6); Z.lor 0x80 (Z.land c 0x3F)]
  else if (0xD800 <=? c) && (c <=? 0xDFFF) then None
  else if c <? 0x10000 then
    Some [Z.lor 0xE0 (Z.shiftr c 12); Z.lor 0x80 (Z.land (Z.shiftr c 6) 0x3F);
          Z.lor 0x80 (Z.land c 0x3F)]
  else if c <? 0x110000 then
    Some [Z.lor 0xF0 (Z.shiftr c 18); Z.lor 0x80 (Z.land (Z.shiftr c 12) 0x3F);
          Z.lor 0x80 (Z.land (Z.shiftr c 6) 0x3F); Z.lor 0x80 (Z.land c 0x3F)]
  else None.

Fixpoint utf8_bytes (s : str) : option (list Z) :=
  match s with
  | [] => Some []
  | c :: rest =>
      match utf8_char (Z.of_N c), utf8_bytes rest with
      | Some bs, Some more => Some (bs ++ more)
      | _, _ => None
      end
  end.

Definition encode_utf8 (s : str) : result (list Z) :=
  match utf8_bytes s with
  | Some bs => Ok bs
  | None => raise UnicodeEncodeError (Unencodable s)
  end.

(** [s.upper()] *)
Definition upper_char (c : char) : str :=
  if (c <? 128)%N then [if in_range 97 122 c then (c - 32)%N else c]
  else ucd_upper c.

Definition upper (s : str) : str := flat_map upper_char s.

(** [hashlib.sha1(password.encode("utf-8")).hexdigest().upper()] *)
Definition sha1_hex_upper (password : str) : result str :=
  (data <- encode_utf8 password ;;
   Ok (upper (hexdigest (sha1 data))))%result.

End Core.

(** ** Installing an optional package ([ensure_package])

    The function imports a module, asks the user on failure and runs [pip].
    Its surroundings are a [shell]: the lines the user will type, the text
    written so far, the commands run so far, and what an import and a run of
    [pip] give. An import either yields the module, fails with [ImportError]
    (or a subclass of it), or raises something else. *)

Inductive import_outcome (module : Type) :=
| Imported (m : module)
| ImportFailed (e : exn)
| ImportRaised (e : exn).
Arguments Imported {module} m.
Arguments ImportFailed {module} e.
Arguments ImportRaised {module} e.

Record shell (module : Type) := {
  stdin : list (list N);
  stdout : list N;
  commands : list (list (list N));
  sys_executable : list N;
  import_module : list (list (list N)) -> list N -> import_outcome module;
  check_call : list (list N) -> result unit
}.
Arguments stdin {module} s.
Arguments stdout {module} s.
Arguments commands {module} s.
Arguments sys_executable {module} s.
Arguments import_module {module} s _ _.
Arguments check_call {module} s _.

(** The white space of [str.strip()]. *)
Definition isspace (c : char) : bool :=
  existsb (N.eqb c)
    [9; 10; 11; 12; 13; 28; 29; 30; 31; 32; 133; 160; 5760; 8192; 8193; 8194;
     8195; 8196; 8197; 8198; 8199; 8200; 8201; 8202; 8232; 8233; 8239; 8287;
     12288]%N.

(** [s.strip()] *)
Definition strip (s : str) : str :=
  rev (dropwhile isspace (rev (dropwhile isspace s))).

(** [s.lower()]: written out for ASCII text; the lower-case mapping of other
    text comes from the Unicode tables of the interpreter. *)
Class Casing := { lower_text : list N -> list N }.

Definition ascii_lower (c : char) : char :=
  if in_range 65 90 c then (c + 32)%N else c.

Definition lower {cs : Casing} (s : str) : str :=
  if forallb (fun c => (c <? 128)%N) s then map ascii_lower s else lower_text s.

Definition EOFError : exn :=
  Raise (OtherException "EOFError") (lit "EOF when reading a line").

Section EnsurePackage.
Context {cs : Casing} {module : Type}.

Definition write (sh : shell module) (text : str) : shell module :=
  {| stdin := stdin sh; stdout := stdout sh ++ text; commands := commands sh;
     sys_executable := sys_executable sh; import_module := import_module sh;
     check_call := check_call sh |}.

(** [input(prompt)]: the prompt is written, one line is read. *)
Definition input (prompt : str) (sh : shell module) : result str * shell module :=
  let sh := write sh prompt in
  match stdin sh with
  | [] => (Err EOFError, sh)
  | line :: rest =>
      (Ok line,
       {| stdin := rest; stdout := stdout sh; commands := commands sh;
          sys_executable := sys_executable sh; import_module := import_module sh;
          check_call := check_call sh |})
  end.

(** [subprocess.check_call(argv)]: the command is run, and its failure is an
    exception. *)
Definition run (argv : list str) (sh : shell module) : result unit * shell module :=
  (check_call sh argv,
   {| stdin := stdin sh; stdout := stdout sh; commands := commands sh ++ [argv];
      sys_executable := sys_executable sh; import_module := import_module sh;
      check_call := check_call sh |}).

(** [choice in ('y', 'yes')] *)
Definition is_yes (choice : str) : bool :=
  str_eqb choice (lit "y") || str_eqb choice (lit "yes").

Definition pip_install_argv (sh : shell module) (package_name : str) : list str :=
  [sys_executable sh; lit "-m"; lit "pip"; lit "install"; package_name].

Definition ensure_package (package_name : str) (import_name : option str)
    (sh : shell module) : result (option module) * shell module :=
  let import_name :=
    match import_name with
    | Some ((_ :: _) as name) => name
    | _ => package_name
    end in
  match import_module sh (commands sh) import_name with
  | Imported module => (Ok (Some module), sh)
  | ImportRaised e => (Err e, sh)
  | ImportFailed _ =>
      match input (lit "The package '" ++ package_name
                     ++ lit "' is not installed. Install it now? (y/n): ") sh with
      | (Err e, sh) => (Err e, sh)
      | (Ok answer, sh) =>
          let choice := lower (strip answer) in
          if is_yes choice then
            let sh := write sh (lit "Installing " ++ package_name ++ lit "..." ++ [LF]) in
            match run (pip_install_argv sh package_name) sh with
            | (Err e, sh) => (Err e, sh)
            | (Ok _, sh) =>
                match import_module sh (commands sh) import_name with
                | Imported module => (Ok (Some module), sh)
                | ImportFailed e => (Err e, sh)
                | ImportRaised e => (Err e, sh)
                end
            end
          else
            let sh := write sh (lit "Skipping " ++ package_name
                                  ++ lit ". Some features may not work." ++ [LF]) in
            (Ok None, sh)
      end
  end.

(** The user is asked and does not answer [y] or [yes]. *)
Definition declines (package_name : str) (import_name : option str)
    (sh : shell module) : Prop :=
  (exists e,
     import_module sh (commands sh)
       (match import_name with Some ((_ :: _) as name) => name | _ => package_name end)
     = ImportFailed e) /\
  exists answer rest,
    stdin sh = answer :: rest /\ is_yes (lower (strip answer)) = false.

(** The user is asked and answers [y] or [yes]. *)
Definition consents (package_name : str) (import_name : option str)
    (sh : shell module) : Prop :=
  (exists e,
     import_module sh (commands sh)
       (match import_name with Some ((_ :: _) as name) => name | _ => package_name end)
     = ImportFailed e) /\
  exists answer rest,
    stdin sh = answer :: rest /\ is_yes (lower (strip answer)) = true.

End EnsurePackage.

(** ** Breach lookup client *)

(** What [requests.get] returns, as far as the client reads it. *)
Record response := { status_code : Z; text : str }.

(** [requests.get(url, timeout=t)]: a response, or an exception of the
    transport (no connection, time-out, ...). *)
Definition transport := str -> Z -> result response.

(** Values stored in the result dictionary. *)
#[warnings="-register-all"] Inductive value :=
| VNone
| VBool (b : bool)
| VInt (z : Z)
| VFloat (x : R)
| VStr (s : str)
| VDict (d : list (string * value)).

(** The state of the process and of its surroundings.
    - [fs] is the file system, which stays as it is during a run;
    - [zxcvbn] is the module-level global of that name: the package, or [None];
    - [requests] is the module-level global, [None] until the package is loaded;
    - [host] is the shell the process runs in: the lines the user will type,
      the text written, the commands run, what an import gives;
    - [sent] lists the requests issued through [requests.get] so far: URL and
      time-out. *)
Record world := {
  fs : filesystem;
  zxcvbn : option (str -> result (dict string value));
  requests : option transport;
  host : shell transport;
  sent : list (str * Z)
}.

Definition set_requests (w : world) (m : option transport) : world :=
  {| fs := fs w; zxcvbn := zxcvbn w; requests := m; host := host w;
     sent := sent w |}.

(** [w] in the shell [sh]. *)
Definition with_shell (w : world) (sh : shell transport) : world :=
  {| fs := fs w; zxcvbn := zxcvbn w; requests := requests w; host := sh;
     sent := sent w |}.

Definition log_request (w : world) (url : str) (timeout : Z) : world :=
  {| fs := fs w; zxcvbn := zxcvbn w; requests := requests w; host := host w;
     sent := sent w ++ [(url, timeout)] |}.

(** Computations on the world that may raise; the state reached when an
    exception is raised is kept. *)
Definition M (A : Type) := world -> result A * world.

Definition ret {A : Type} (a : A) : M A := fun w => (Ok a, w).

Definition bindM {A B : Type} (m : M A) (k : A -> M B) : M B :=
  fun w => match m w with
           | (Ok a, w') => k a w'
           | (Err e, w') => (Err e, w')
           end.

Definition lift {A : Type} (r : result A) : M A := fun w => (r, w).

Definition gets {A : Type} (f : world -> A) : M A := fun w => (Ok (f w), w).

(** [try: body  except <classes>: handler] *)
Definition try_except {A : Type} (body : M A) (handles : exn -> bool)
    (handler : exn -> M A) : M A :=
  fun w => match body w with
           | (Ok a, w') => (Ok a, w')
           | (Err e, w') => if handles e then handler e w' else (Err e, w')
           end.

Declare Scope M_scope.
Delimit Scope M_scope with M.
Notation "x <- m ;; k" := (bindM m (fun x => k))
  (at level 61, m at next level, right associativity) : M_scope.
Notation "' p <- m ;; k" := (bindM m (fun x => match x with p => k end))
  (at level 61, p pattern, m at next level, right associativity) : M_scope.

Section Client.
Context {rt : Runtime} {cs : Casing}.

(** [s.splitlines()]: the line boundaries of [str.splitlines]. *)
Definition is_linebreak (c : char) : bool :=
  existsb (N.eqb c) [10; 13; 11; 12; 28; 29; 30; 133; 8232; 8233]%N.

Fixpoint splitlines_from (s : str) (cur : str) : list str :=
  match s with
  | [] => match cur with [] => [] | _ => [rev cur] end
  | c :: rest =>
      if (c =? CR)%N then
        match rest with
        | c' :: rest' =>
            if (c' =? LF)%N then rev cur :: splitlines_from rest' []
            else rev cur :: splitlines_from rest []
        | [] => [rev cur]
        end
      else if is_linebreak c then rev cur :: splitlines_from rest []
      else splitlines_from rest (c :: cur)
  end.

Definition splitlines (s : str) : list str := splitlines_from s [].

(** [s.split(sep)] for a separator of one character. *)
Fixpoint split (sep : char) (s : str) : list str :=
  match s with
  | [] => [[]]
  | c :: rest =>
      if (c =? sep)%N then [] :: split sep rest
      else match split sep rest with
           | field :: fields => (c :: field) :: fields
           | [] => [[c]]
           end
  end.

Definition colon : char := 58%N.

(** [h, count = parts] *)
Definition unpack2 (parts : list str) : result (str * str) :=
  match parts with
  | [h; count] => Ok (h, count)
  | _ => raise ValueError (Unpack 2 (List.length parts))
  end.

(** The loop of lines 122-125 and the [return 0] that follows it. *)
Fixpoint scan_lines (suffix : str) (lines : list str) : result Z :=
  match lines with
  | [] => Ok 0
  | line :: rest =>
      ('(h, count) <- unpack2 (split colon line) ;;
       if str_eqb h suffix then py_int count
       else scan_lines suffix rest)%result
  end.

Definition hibp_url (prefix : str) : str :=
  lit "https://api.pwnedpasswords.com/range/" ++ prefix.

(** Lines 116-126, with the transport at hand. *)
Definition hibp_query (requests : transport) (password : str) : M Z :=
  (sha1 <- lift (sha1_hex_upper password) ;;
   let prefix := firstn 5 sha1 in
   let suffix := skipn 5 sha1 in
   let url := hibp_url prefix in
   resp <- (fun w => (requests url 10, log_request w url 10)) ;;
   if negb (status_code resp =? 200) then
     lift (Err (Raise RuntimeError
                  (lit "HIBP API error: " ++ str_of_int (status_code resp))))
   else lift (scan_lines suffix (splitlines (text resp))))%M.

(** A step in the shell, as a step in the world. *)
Definition in_shell {A : Type}
    (step : shell transport -> result A * shell transport) : M A :=
  fun w => let (r, sh) := step (host w) in (r, with_shell w sh).

(** [print(s)] *)
Definition print_line (s : str) : M unit :=
  fun w => (Ok tt, with_shell w (write (host w) (s ++ [LF]))).

Definition hibp_pwned_count (password : str) : M Z :=
  fun w =>
    match requests w with
    | None =>
        match in_shell (ensure_package (lit "requests") None) w with
        | (Err e, w) => (Err e, w)
        | (Ok m, w) =>
            let w := set_requests w m in
            match m with
            | None =>
                let (_, w) :=
                  print_line
                    (lit "Cannot perform HIBP check because 'requests' is missing.") w in
                (Ok (-1), w)
            | Some requests => hibp_query requests password w
            end
        end
    | Some requests => hibp_query requests password w
    end.

(** ** Analysis orchestrator *)

(** [round(x, 2)]: the nearest multiple of 1/100, a tie going to the even
    one. *)
Definition round_half_even (x : R) : Z :=
  let n := Int_part x in
  let r := frac_part x in
  if Rlt_dec r (1 / 2) then n
  else if Rlt_dec (1 / 2) r then n + 1
  else if Z.even n then n else n + 1.

Definition round2 (x : R) : R := (IZR (round_half_even (x * 100)) / 100)%R.

Definition is_FileNotFoundError (e : exn) : bool :=
  match exn_class_of e with
  | FileNotFoundError => true
  | _ => false
  end.

(** [except Exception]: every exception of the model is one. *)
Definition is_Exception (e : exn) : bool := true.

Local Open Scope string_scope.

Definition analyze_password (password : str) (wordlist : option str)
    (hibp verbose : bool) : M (dict string value) :=
  (let out : dict string value := [] in
   let out := dict_set out "password_length" (VInt (len password)) in
   let '(has_upper, has_lower, has_digit, has_special) := char_classes password in
   let out := dict_set out "has_upper" (VBool has_upper) in
   let out := dict_set out "has_lower" (VBool has_lower) in
   let out := dict_set out "has_digit" (VBool has_digit) in
   let out := dict_set out "has_special" (VBool has_special) in
   entropy <- lift (shannon_entropy password) ;;
   let out := dict_set out "entropy_bits" (VFloat (round2 entropy)) in
   '(score, label) <- lift (simple_score password) ;;
   let out := dict_set out "simple_score" (VInt score) in
   let out := dict_set out "label" (VStr label) in
   zxcvbn <- gets zxcvbn ;;
   out <- match zxcvbn with
          | Some zxcvbn =>
              try_except
                (zx <- lift (zxcvbn password) ;;
                 let out := dict_set out "zxcvbn_score"
                              (dict_get_default zx "score" VNone) in
                 let out := dict_set out "zxcvbn_feedback"
                              (dict_get_default zx "feedback" (VDict [])) in
                 ret out)
                is_Exception
                (fun _ => ret (dict_set out "zxcvbn_score" VNone))
          | None => ret out
          end ;;
   out <- match wordlist with
          | Some ((_ :: _) as wordlist) =>
              try_except
                (fs <- gets fs ;;
                 found <- lift (check_local_wordlist fs password wordlist) ;;
                 ret (dict_set out "found_in_wordlist" (VBool found)))
                is_FileNotFoundError
                (fun _ =>
                   let out := dict_set out "found_in_wordlist" VNone in
                   let out := dict_set out "wordlist_error"
                                (VStr (lit "Wordlist not found: " ++ wordlist)%list) in
                   ret out)
          | _ => ret out
          end ;;
   out <- (if hibp then
             try_except
               (count <- hibp_pwned_count password ;;
                ret (dict_set out "hibp_count" (VInt count)))
               is_Exception
               (fun e => ret (dict_set out "hibp_error" (VStr (exn_str e))))
           else ret out) ;;
   let out :=
     if verbose then
       dict_set out "complex"
         (VDict [("classes_count",
                  VInt (sum_bools [has_upper; has_lower; has_digit; has_special]))])
     else out in
   ret out)%M.

End Client.

(** ** The entropy estimate in the words of the specification

    The frequency distribution of the characters of [s] gives each distinct
    character [c] the probability [occurrences s c / length s];
    [H = - sum p * log2 p] over that distribution is the entropy per
    character, in bits; the estimate is [H] times the length of [s]. *)

Definition occurrences (s : str) (c : char) : nat := count_occ N.eq_dec s c.

Definition probability (s : str) (c : char) : R :=
  (INR (occurrences s c) / INR (List.length s))%R.

Definition distinct_chars (s : str) : list char := nodup N.eq_dec s.

Definition Rsum (l : list R) : R := fold_right Rplus 0%R l.

Definition plog2p (p : R) : R := (p * (ln p / ln 2))%R.

Definition entropy_per_char (s : str) : R :=
  (- Rsum (map (fun c => plog2p (probability s c)) (distinct_chars s)))%R.

Definition spec_entropy (s : str) : R :=
  (entropy_per_char s * INR (List.length s))%R.

(** What the frequency dictionary of [shannon_entropy] holds once the
    characters [seen] have been counted. *)
Definition counts (frequency : dict char Z) (seen : str) : Prop :=
  NoDup (dict_keys frequency) /\
  forall c, dict_get frequency c =
            if In_dec N.eq_dec c seen then Some (Z.of_nat (occurrences seen c))
            else None.

(** ** A runtime for the examples

    The examples below run on ASCII text, where the tables of the runtime are
    never consulted; [int] is given for an optional minus sign followed by
    ASCII digits, and the interpreter's messages are those of CPython 3.11
    (the text [int] quotes is printed as it is, and the message of
    [UnicodeEncodeError] leaves out the character and its position). *)

Fixpoint decimal_value (s : str) (acc : Z) : option Z :=
  match s with
  | [] => Some acc
  | c :: rest =>
      if in_range 48 57 c then decimal_value rest (10 * acc + (Z.of_N c - 48))
      else None
  end.

Definition ascii_int (s : str) : result Z :=
  let invalid :=
    Err (Raise ValueError
           (lit "invalid literal for int() with base 10: '" ++ s ++ lit "'")) in
  match s with
  | [] => invalid
  | c :: rest =>
      if (c =? 45)%N then
        match rest, decimal_value rest 0 with
        | _ :: _, Some n => Ok (- n)
        | _, _ => invalid
        end
      else
        match decimal_value s 0 with
        | Some n => Ok n
        | None => invalid
        end
  end.

Definition cpython_msg (b : builtin_error) : str :=
  match b with
  | DivisionByZero => lit "division by zero"
  | MathDomain => lit "math domain error"
  | MissingKey k => str_of_int k
  | Unpack expected got =>
      if (got <? expected)%nat then
        (lit "not enough values to unpack (expected "
           ++ str_of_int (Z.of_nat expected) ++ lit ", got "
           ++ str_of_int (Z.of_nat got) ++ lit ")")%list
      else
        (lit "too many values to unpack (expected "
           ++ str_of_int (Z.of_nat expected) ++ lit ")")%list
  | Unencodable _ => lit "'utf-8' codec can't encode character: surrogates not allowed"
  end.

Definition ascii_runtime : Runtime :=
  {| ucd_isupper := fun _ => false;
     ucd_islower := fun _ => false;
     ucd_isdigit := fun _ => false;
     ucd_isalnum := fun _ => false;
     ucd_upper := fun c => [c];
     py_int := ascii_int;
     builtin_msg := cpython_msg |}.

(** The transport the client ends up with in [w]: the global [requests] when
    it is loaded, else what [ensure_package("requests")] gives in the shell
    of [w]. *)
Definition transport_of {cs : Casing} (w : world) : result (option transport) :=
  match requests w with
  | Some t => Ok (Some t)
  | None => fst (ensure_package (lit "requests") None (host w))
  end.

(** The world in which the client goes on once [ensure_package("requests")]
    has run, when [requests] was not loaded. *)
Definition after_ensure {cs : Casing} (w : world) : world :=
  match requests w with
  | Some _ => w
  | None =>
      let (r, sh) := ensure_package (lit "requests") None (host w) in
      match r with
      | Ok m => set_requests (with_shell w sh) m
      | Err _ => with_shell w sh
      end
  end.

Definition is_upper_hex (c : char) : bool := in_range 48 57 c || in_range 65 70 c.

(** A line of the form [h:count] whose [h] is not [suffix]. *)
Definition other_pair (suffix : str) (line : str) : Prop :=
  exists h count, split colon line = [h; count] /\ h <> suffix.

(** Every count the client can read in the body is non-negative. *)
Definition counts_nonneg {rt : Runtime} (body : str) : Prop :=
  forall line h count k,
    In line (splitlines body) -> split colon line = [h; count] ->
    py_int count = Ok k -> 0 <= k.

(** The upper-cased text of one byte is two upper-case hexadecimal digits. *)
Definition byte_hex_ok {rt : Runtime} (b : Z) : bool :=
  match upper (hexdigest [b]) with
  | [c1; c2] => is_upper_hex c1 && is_upper_hex c2
  | _ => false
  end.

(** The first five characters of the digest text. *)
Definition prefix_of {rt : Runtime} (password : str) : result str :=
  (sha1 <- sha1_hex_upper password ;; Ok (firstn 5 sha1))%result.

(** The requests issued once the client has run in [w] for a password whose
    digest text starts with [prefix]. *)
Definition sent_after {cs : Casing} (w : world) (prefix : result str)
    : list (str * Z) :=
  match transport_of w, prefix with
  | Ok (Some _), Ok prefix => sent w ++ [(hibp_url prefix, 10)]
  | _, _ => sent w
  end.

(** ** Examples: shells, worlds and files *)

Definition respond (status : Z) (body : string) : transport :=
  fun _ _ => Ok {| status_code := status; text := lit body |}.

(** The line feed, for bodies written as literals. *)
Definition nl : string := String (ascii_of_N 10) EmptyString.

(** The password of the examples; the text of its SHA-1 digest is
    [5BAA6] followed by [1E4C9B93F3F0682250B6CF8331B7EE68FD8]. *)
Definition pw_password : list N := lit "password".

(** A well-formed body that lists the suffix of [pw_password] with count 3. *)
Definition body_listed : string :=
  ("0018A45C4D1DEF81644B54AB7F969B88D65:10" ++ nl
   ++ "1E4C9B93F3F0682250B6CF8331B7EE68FD8:3")%string.

(** The same pair after a line without a colon. *)
Definition body_malformed : string :=
  ("junk" ++ nl ++ "1E4C9B93F3F0682250B6CF8331B7EE68FD8:3")%string.

(** A body that lists the suffix of [pw_password] with the count -4. *)
Definition body_negative : string :=
  "1E4C9B93F3F0682250B6CF8331B7EE68FD8:-4"%string.

(** A lower-case mapping for the examples, which are ASCII text. *)
Definition ascii_casing : Casing := {| lower_text := fun s => s |}.

(** A shell in which [requests] cannot be imported before [pip] has run, and
    the user types [answer]. *)
Definition example_shell (answer : list N) : shell transport :=
  {| stdin := [answer]; stdout := []; commands := [];
     sys_executable := lit "python3";
     import_module := fun runs _ =>
       match runs with
       | [] => ImportFailed (Raise (OtherException "ModuleNotFoundError")
                               (lit "No module named 'requests'"))
       | _ => Imported (respond 200 body_listed)
       end;
     check_call := fun _ => Ok tt |}.

(** A shell in which [requests] cannot be imported, whatever has run, and the
    user types [lines]. *)
Definition typing (lines : list (list N)) : shell transport :=
  {| stdin := lines; stdout := []; commands := [];
     sys_executable := lit "python3";
     import_module := fun _ _ => ImportFailed (Raise (OtherException "ModuleNotFoundError")
                                                 (lit "No module named 'requests'"));
     check_call := fun _ => Ok tt |}.

(** Worlds for the examples: no file, no [zxcvbn], nothing sent yet. *)
Definition example_world (loaded : option transport) (sh : shell transport)
    : world :=
  {| fs := fun _ => None; zxcvbn := None; requests := loaded; host := sh;
     sent := [] |}.

(** [requests] loaded, the service answers 200 with [body_listed]. *)
Definition w_listed : world :=
  example_world (Some (respond 200 body_listed)) (typing []).

(** [requests] loaded, the service answers 200 with [body_malformed]. *)
Definition w_malformed : world :=
  example_world (Some (respond 200 body_malformed)) (typing []).

(** [requests] loaded, the service answers 200 with [body_negative]. *)
Definition w_negative : world :=
  example_world (Some (respond 200 body_negative)) (typing []).

(** [requests] not loaded, and the user declines to install it. *)
Definition w_declined : world := example_world None (typing [lit "n"]).

Definition sha1_text_password : list N :=
  lit "5BAA61E4C9B93F3F0682250B6CF8331B7EE68FD8".

Definition resp_listed : response :=
  {| status_code := 200; text := lit body_listed |}.

Definition resp_malformed : response :=
  {| status_code := 200; text := lit body_malformed |}.

(** A file system with the single file [path]. *)
Definition single_file (path : str) (f : file) : filesystem :=
  fun p => if str_eqb p path then Some f else None.


(** [open] on a file that the process may not read. *)
Definition PermissionError (path : str) : exn :=
  Raise (OtherException "PermissionError")
    (lit "[Errno 13] Permission denied: '" ++ path ++ lit "'").

(** A file system whose only file, [locked.txt], exists and cannot be
    opened. *)
Definition fs_locked : filesystem :=
  single_file (lit "locked.txt") (Failing [] (PermissionError (lit "locked.txt"))).

(** No [zxcvbn], [requests] not loaded, nobody at the terminal, and the file
    system [fs_locked]. *)
Definition w_locked : world :=
  {| fs := fs_locked; zxcvbn := None; requests := None; host := typing [];
     sent := [] |}.

(** [requests] loaded, the service answers 503; no file, no [zxcvbn]. *)
Definition w_unavailable : world :=
  example_world (Some (respond 503 "")) (typing []).

(** A string without CR and LF: a word of a wordlist. *)
Definition no_line_break (s : str) : Prop := ~ In CR s /\ ~ In LF s.

(** The text of a wordlist: each word followed by the line ending [eol]. *)
Definition wordlist_text (eol : str) (words : list str) : str :=
  List.concat (map (fun w => w ++ eol) words).

(** A code point UTF-8 can encode: a Unicode scalar value. *)
Definition encodable (c : char) : Prop :=
  (c < 0xD800)%N \/ (0xDFFF < c /\ c < 0x110000)%N.

(** ** The claims in the words of the specification *)

(** The number of true flags among [flags]. *)
Definition count_true (flags : list bool) : Z :=
  Z.of_nat (count_occ Bool.bool_dec flags true).

(** One point when [condition] holds, none otherwise. *)
Definition point (condition : Prop) (p : Z) : Prop :=
  (condition /\ p = 1) \/ (~ condition /\ p = 0).


(** [b] is [x] rounded to two decimal places: a whole number of hundredths
    nearest to [x], the even one when two are equally near. *)
Definition rounded_to_2_places (x b : R) : Prop :=
  exists k : Z,
    b = (IZR k / 100)%R /\
    (Rabs (b - x) <= 1 / 200)%R /\
    (Rabs (b - x) = (1 / 200)%R -> Z.even k = true).

(** ** The wordlist of an analysis *)

(** No wordlist is configured, or the configured path names no regular file,
    or the file there reads to its end. *)
Definition wordlist_readable (fs : filesystem) (wordlist : option str) : Prop :=
  match wordlist with
  | Some ((_ :: _) as path) =>
      match fs path with
      | Some (Failing _ _) => False
      | _ => True
      end
  | _ => True
  end.

(** The exception of the wordlist check that [analyze_password] does not
    handle, if any. *)
Definition wordlist_escape (fs : filesystem) (password : str)
    (wordlist : option str) : option exn :=
  match wordlist with
  | Some ((_ :: _) as path) =>
      match check_local_wordlist fs password path with
      | Err e => if is_FileNotFoundError e then None else Some e
      | Ok _ => None
      end
  | _ => None
  end.

(** The field names of the result, by feature. *)
Definition core_keys : list string :=
  ["password_length"; "has_upper"; "has_lower"; "has_digit"; "has_special";
   "entropy_bits"; "simple_score"; "label"]%string.

Definition zxcvbn_keys (w : world) (password : str) : list string :=
  match zxcvbn w with
  | None => []
  | Some zx =>
      match zx password with
      | Ok _ => ["zxcvbn_score"; "zxcvbn_feedback"]%string
      | Err _ => ["zxcvbn_score"]%string
      end
  end.

Definition wordlist_keys (w : world) (wordlist : option str) : list string :=
  match wordlist with
  | Some ((_ :: _) as path) =>
      if os_path_isfile (fs w) path then ["found_in_wordlist"]%string
      else ["found_in_wordlist"; "wordlist_error"]%string
  | _ => []
  end.

Definition hibp_keys {rt : Runtime} {cs : Casing} (w : world) (password : str)
    (hibp : bool) : list string :=
  if hibp then
    match fst (hibp_pwned_count password w) with
    | Ok _ => ["hibp_count"]%string
    | Err _ => ["hibp_error"]%string
    end
  else [].

Definition verbose_keys (verbose : bool) : list string :=
  if verbose then ["complex"]%string else [].

(** The names under which a verdict is stored: [value] for its first part,
    [error] for its second, when present. *)
Definition verdict_keys {A B : Type} (value error : string)
    (verdict : option A * option B) : list string :=
  match fst verdict with Some _ => [value] | None => [] end
  ++ match snd verdict with Some _ => [error] | None => [] end.

(** ** The report ([print_report])

    What the function writes is a text: [print(s)] appends [s] and a line
    feed; writing to the stream is taken to succeed. The text that [str]
    gives for a float and for a dictionary comes from the interpreter. *)

Class Formatting := {
  float_str : R -> list N;
  dict_str : list (string * value) -> list N
}.

Definition TypeError (msg : str) : exn := Raise (OtherException "TypeError") msg.

Definition type_name (v : value) : string :=
  match v with
  | VNone => "NoneType"
  | VBool _ => "bool"
  | VInt _ => "int"
  | VFloat _ => "float"
  | VStr _ => "str"
  | VDict _ => "dict"
  end.

(** [str(v)], which an f-string uses for [{v}]. *)
Definition value_str {fm : Formatting} (v : value) : str :=
  match v with
  | VNone => lit "None"
  | VBool true => lit "True"
  | VBool false => lit "False"
  | VInt z => str_of_int z
  | VFloat x => float_str x
  | VStr s => s
  | VDict d => dict_str d
  end.

(** The truth value of [v], as [if v:] tests it. *)
Definition truthy (v : value) : bool :=
  match v with
  | VNone => false
  | VBool b => b
  | VInt z => negb (z =? 0)
  | VFloat x => if Req_dec_T x 0 then false else true
  | VStr s => match s with [] => false | _ => true end
  | VDict d => match d with [] => false | _ => true end
  end.

(** The numbers: [bool] counts as [int]. *)
Inductive number :=
| NInt (z : Z)
| NFloat (x : R).

Definition as_number (v : value) : option number :=
  match v with
  | VBool b => Some (NInt (Z.b2z b))
  | VInt z => Some (NInt z)
  | VFloat x => Some (NFloat x)
  | _ => None
  end.

Definition number_R (n : number) : R :=
  match n with
  | NInt z => IZR z
  | NFloat x => x
  end.

Definition number_type (n : number) : string :=
  match n with
  | NInt _ => "int"
  | NFloat _ => "float"
  end.

Definition Rltb (x y : R) : bool := if Rlt_dec x y then true else false.

Definition number_ltb (n : number) (k : Z) : bool :=
  match n with
  | NInt z => z <? k
  | NFloat x => Rltb x (IZR k)
  end.

Definition number_gtb (n : number) (k : Z) : bool :=
  match n with
  | NInt z => k <? z
  | NFloat x => Rltb (IZR k) x
  end.

(** [v < k] and [v > k] for an [int] literal [k]. *)
Definition lt_int (v : value) (k : Z) : result bool :=
  match as_number v with
  | Some n => Ok (number_ltb n k)
  | None =>
      Err (TypeError (lit "'<' not supported between instances of '"
                        ++ lit (type_name v) ++ lit "' and 'int'"))
  end.

Definition gt_int (v : value) (k : Z) : result bool :=
  match as_number v with
  | Some n => Ok (number_gtb n k)
  | None =>
      Err (TypeError (lit "'>' not supported between instances of '"
                        ++ lit (type_name v) ++ lit "' and 'int'"))
  end.

(** [acc + v] *)
Definition add_value (acc : number) (v : value) : result number :=
  match acc, as_number v with
  | NInt a, Some (NInt b) => Ok (NInt (a + b))
  | _, Some n => Ok (NFloat (number_R acc + number_R n))
  | _, None =>
      Err (TypeError (lit "unsupported operand type(s) for +: '"
                        ++ lit (number_type acc) ++ lit "' and '"
                        ++ lit (type_name v) ++ lit "'"))
  end.

(** [sum(values)]: the values are added to 0 from left to right. *)
Fixpoint sum_from (acc : number) (values : list value) : result number :=
  match values with
  | [] => Ok acc
  | v :: rest => (acc <- add_value acc v ;; sum_from acc rest)%result
  end.

Definition py_sum (values : list value) : result number := sum_from (NInt 0) values.

(** [sep.join(parts)] *)
Fixpoint join (sep : str) (parts : list str) : str :=
  match parts with
  | [] => []
  | [part] => part
  | part :: rest => part ++ sep ++ join sep rest
  end.

(** A computation that prints: its outcome and the text it has written. *)
Definition W (A : Type) := (result A * list N)%type.

Definition retW {A : Type} (a : A) : W A := (Ok a, []).

Definition bindW {A B : Type} (m : W A) (k : A -> W B) : W B :=
  match m with
  | (Ok a, text) => let (r, more) := k a in (r, text ++ more)
  | (Err e, text) => (Err e, text)
  end.

Definition liftW {A : Type} (r : result A) : W A := (r, []).

(** [print(s)] *)
Definition print (s : str) : W unit := (Ok tt, s ++ [LF]).

Declare Scope W_scope.
Delimit Scope W_scope with W.
Notation "x <- m ;; k" := (bindW m (fun x => k))
  (at level 61, m at next level, right associativity) : W_scope.
Notation "m ;;; k" := (bindW m (fun _ => k))
  (at level 61, right associativity) : W_scope.

(** [res.get(key)] and [key in res] *)
Definition get (res : dict string value) (key : string) : value :=
  dict_get_default res key VNone.

Definition has_key (res : dict string value) (key : string) : bool :=
  match dict_get res key with Some _ => true | None => false end.

Section Report.
Context {fm : Formatting}.

(** Lines 169-180: the header and the mandatory fields. *)
Definition report_head (res : dict string value) : W unit :=
  (print ([LF] ++ lit "=== Password analysis ===") ;;;
   print (lit "Length: " ++ value_str (get res "password_length")) ;;;
   let classes := [] in
   let classes := if truthy (get res "has_upper") then classes ++ [lit "upper"] else classes in
   let classes := if truthy (get res "has_lower") then classes ++ [lit "lower"] else classes in
   let classes := if truthy (get res "has_digit") then classes ++ [lit "digit"] else classes in
   let classes := if truthy (get res "has_special") then classes ++ [lit "special"] else classes in
   print (lit "Character classes: "
            ++ match classes with [] => lit "none" | _ => join (lit ", ") classes end) ;;;
   print (lit "Entropy (bits): " ++ value_str (get res "entropy_bits")) ;;;
   print (lit "Simple score: " ++ value_str (get res "simple_score")
            ++ lit " -> " ++ value_str (get res "label")) ;;;
   if has_key res "zxcvbn_score" then
     print (lit "zxcvbn score: " ++ value_str (get res "zxcvbn_score") ++ lit " (0-4)")
   else retW tt)%W.

(** Lines 182-187: the verdict of the wordlist. *)
Definition report_wordlist (res : dict string value) : W unit :=
  match get res "found_in_wordlist" with
  | VBool true => print (lit "Warning: Password found in provided wordlist.")
  | VBool false => print (lit "Not found in provided wordlist.")
  | VNone =>
      if has_key res "wordlist_error" then
        print (lit "Wordlist check error: " ++ value_str (get res "wordlist_error"))
      else retW tt
  | _ => retW tt
  end.

(** Lines 189-195: the verdict of the breach check. *)
Definition report_hibp (res : dict string value) : W unit :=
  if has_key res "hibp_count" then
    (positive <- liftW (gt_int (get res "hibp_count") 0) ;;
     if positive then
       print (lit "WARNING: password appears in HIBP breach list "
                ++ value_str (get res "hibp_count") ++ lit " times.")
     else print (lit "Not found in HIBP breach list."))%W
  else if has_key res "hibp_error" then
    print (lit "HIBP check error: " ++ value_str (get res "hibp_error"))
  else retW tt.

Definition advice_length : list N := lit "use at least 12 characters".
Definition advice_entropy : list N :=
  lit "increase entropy (longer / more unpredictable)".
Definition advice_classes : list N :=
  lit "mix uppercase, lowercase, digits, and special characters".

(** Lines 197-203: the list [adv]. *)
Definition advice (res : dict string value) : result (list str) :=
  (let adv := [] in
   short <- lt_int (dict_get_default res "password_length"%string (VInt 0)) 12 ;;
   let adv := if short then adv ++ [advice_length] else adv in
   low <- lt_int (dict_get_default res "entropy_bits"%string (VInt 0)) 60 ;;
   let adv := if low then adv ++ [advice_entropy] else adv in
   classes <- py_sum [get res "has_upper"; get res "has_lower";
                      get res "has_digit"; get res "has_special"] ;;
   let adv := if number_ltb classes 3 then adv ++ [advice_classes] else adv in
   Ok adv)%result.

(** The loop [for a in adv: print(" - " + a)]. *)
Fixpoint print_items (adv : list str) : W unit :=
  match adv with
  | [] => retW tt
  | a :: rest => (print (lit " - " ++ a) ;;; print_items rest)%W
  end.

(** Lines 204-209. *)
Definition print_advice (adv : list str) : W unit :=
  match adv with
  | [] =>
      print ([LF] ++ lit "Good job! Your password looks reasonably strong.")
  | _ => (print ([LF] ++ lit "Advice:") ;;; print_items adv)%W
  end.

Definition print_report (password : str) (res : dict string value) : W unit :=
  (report_head res ;;;
   report_wordlist res ;;;
   report_hibp res ;;;
   adv <- liftW (advice res) ;;
   print_advice adv)%W.

End Report.

(** What the orchestrator stores for the wordlist when it handles the outcome
    of the matcher: the values of [found_in_wordlist] and of
    [wordlist_error], when present. *)
Definition wordlist_verdict (w : world) (password : str) (wordlist : option str)
    : option value * option value :=
  match wordlist with
  | Some ((_ :: _) as path) =>
      match check_local_wordlist (fs w) password path with
      | Ok found => (Some (VBool found), None)
      | Err _ => (Some VNone, Some (VStr (lit "Wordlist not found: " ++ path)))
      end
  | _ => (None, None)
  end.

(** What the orchestrator stores for the breach check: the values of
    [hibp_count] and of [hibp_error], when present. *)
Definition hibp_verdict {rt : Runtime} {cs : Casing} (w : world) (password : str)
    (hibp : bool) : option value * option value :=
  if hibp then
    match fst (hibp_pwned_count password w) with
    | Ok count => (Some (VInt count), None)
    | Err e => (None, Some (VStr (exn_str e)))
    end
  else (None, None).

(** The line of the report for each verdict of the wordlist. *)
Definition wordlist_line (verdict : option value * option value) : list N :=
  match verdict with
  | (Some (VBool true), _) =>
      lit "Warning: Password found in provided wordlist." ++ [LF]
  | (Some (VBool false), _) => lit "Not found in provided wordlist." ++ [LF]
  | (Some VNone, Some (VStr reason)) =>
      lit "Wordlist check error: " ++ reason ++ [LF]
  | _ => []
  end.

(** The line of the report for each verdict of the breach check. *)
Definition hibp_line (verdict : option value * option value) : list N :=
  match verdict with
  | (Some (VInt count), _) =>
      if 0 <? count then
        lit "WARNING: password appears in HIBP breach list "
          ++ str_of_int count ++ lit " times." ++ [LF]
      else lit "Not found in HIBP breach list." ++ [LF]
  | (None, Some (VStr reason)) => lit "HIBP check error: " ++ reason ++ [LF]
  | _ => []
  end.

(** The advice for a password of length [n] with [classes] classes whose
    reported entropy is [bits]. *)
Definition advice_for (n : Z) (bits : R) (classes : Z) : list (list N) :=
  (if n <? 12 then [advice_length] else [])
  ++ (if Rltb bits 60 then [advice_entropy] else [])
  ++ (if classes <? 3 then [advice_classes] else []).

(** A formatting for the examples; it does not spell floats and dictionaries
    out. *)
Definition example_formatting : Formatting :=
  {| float_str := fun _ => lit "<float>"; dict_str := fun _ => lit "<dict>" |}.

(** A password of twelve different characters in four classes. *)
Definition pw_very_strong : list N := lit "Tr0ub4d&3xyz".

(** ** The interactive loop ([interactive_loop]) *)

Record arguments := {
  arg_wordlist : option (list N);
  arg_hibp : bool;
  arg_verbose : bool
}.

Section Interactive.
Context {rt : Runtime} {fm : Formatting} {cs : Casing}.

(** One round of the loop of lines 212-220: either the loop ends, with its
    outcome, or it goes on in a new world. *)
Definition loop_round (args : arguments) (w : world)
    : (result unit * world) + world :=
  match in_shell (input ([LF] ++ lit "Enter password to check (or press Enter to quit): ")) w with
  | (Err e, w) => inl (Err e, w)
  | (Ok [], w) => inl (Ok tt, w)
  | (Ok password, w) =>
      match analyze_password password (arg_wordlist args) (arg_hibp args)
              (arg_verbose args) w with
      | (Err e, w) => inl (Err e, w)
      | (Ok res, w) =>
          let (r, text) := print_report password res in
          let w := with_shell w (write (host w) text) in
          match r with
          | Err e => inl (Err e, w)
          | Ok _ =>
              match in_shell (input ([LF] ++ lit "Check another? [y/N]: ")) w with
              | (Err e, w) => inl (Err e, w)
              | (Ok again, w) =>
                  if negb (is_yes (lower (strip again)))
                  then inl (Ok tt, w)
                  else inr w
              end
          end
      end
  end.

(** [while True:]; [fuel] bounds the number of rounds, and [None] says that
    the bound was reached. *)
Fixpoint interactive_loop (fuel : nat) (args : arguments) (w : world)
    : option (result unit * world) :=
  match fuel with
  | O => None
  | S fuel =>
      match loop_round args w with
      | inl done => Some done
      | inr w => interactive_loop fuel args w
      end
  end.

End Interactive.

(** The arguments of the examples: no wordlist, the breach check as given. *)
Definition example_arguments (hibp : bool) : arguments :=
  {| arg_wordlist := None; arg_hibp := hibp; arg_verbose := false |}.

(** A range query of the breach check for one of the lines [typed]. *)
Definition range_query_of {rt : Runtime} (typed : list (list N)) (q : list N * Z) : Prop :=
  exists password prefix,
    In password typed /\ prefix_of password = Ok prefix /\ q = (hibp_url prefix, 10).

(** What a stretch of a run from [w] to [w'] has done. It has read the
    lines [used], sent the requests [more], at most one for each line and each
    a range query for one of them, and run the commands [ran], each of them
    [pip install requests] and none unless a line read says [y] or [yes]. The
    interpreter and the files are as they were; with the breach check off so
    is everything but the terminal: nothing was sent and no command run. *)
Definition session_trace {rt : Runtime} {cs : Casing} (hibp : bool)
    (w w' : world) (used : list (list N)) (more : list (list N * Z))
    (ran : list (list (list N))) : Prop :=
  stdin (host w) = used ++ stdin (host w') /\
  sent w' = sent w ++ more /\
  (List.length more <= List.length used)%nat /\
  (forall q, In q more -> range_query_of used q) /\
  commands (host w') = commands (host w) ++ ran /\
  (List.length ran <= List.length used)%nat /\
  (forall c, In c ran -> c = pip_install_argv (host w) (lit "requests")) /\
  (ran <> [] ->
   exists answer, In answer used /\ is_yes (lower (strip answer)) = true) /\
  sys_executable (host w') = sys_executable (host w) /\
  fs w' = fs w /\
  (hibp = false -> w' = with_shell w (host w') /\ more = [] /\ ran = []).

(** * Properties *)

(** ** The modelled built-ins on examples *)

Example splitlines_mixed :
  splitlines [97; 13; 98; 13; 10; 99; 10; 10; 100]%N = [[97]; [98]; [99]; []; [100]]%N.
Proof. reflexivity. Qed.

Example splitlines_empty : splitlines [] = [].
Proof. reflexivity. Qed.

Example split_colon_pair :
  split colon (lit "0018A:10") = [lit "0018A"; lit "10"].
Proof. reflexivity. Qed.

Example split_colon_none : split colon (lit "junk") = [lit "junk"].
Proof. reflexivity. Qed.

Example split_colon_empty : split colon [] = [[]].
Proof. reflexivity. Qed.

Example rstrip_line : rstrip [CR; LF] [113; 13; 10; 10]%N = [113]%N.
Proof. reflexivity. Qed.

Example lines_of_crlf :
  lines_of (universal_newlines [97; 13; 10; 98; 13; 99]%N) []
  = [[97; 10]; [98; 10]; [99]]%N.
Proof. reflexivity. Qed.

Example str_of_int_503 : str_of_int 503 = lit "503".
Proof. reflexivity. Qed.

Example sha1_hex_upper_abc :
  @sha1_hex_upper ascii_runtime (lit "abc") =
  Ok (lit "A9993E364706816ABA3E25717850C26C9CD0D89D").
Proof. vm_compute. reflexivity. Qed.

Example sha1_hex_upper_two_blocks :
  @sha1_hex_upper ascii_runtime
    (lit "abcdbcdecdefdefgefghfghighijhijkijkljklmklmnlmnomnopnopq") =
  Ok (lit "84983E441C3BD26EBAAE4AA1F95129E5E54670F1").
Proof. vm_compute. reflexivity. Qed.

Example utf8_euro : utf8_bytes [8364]%N = Some [0xE2; 0x82; 0xAC].
Proof. reflexivity. Qed.

Example utf8_surrogate : utf8_bytes [0xD800]%N = None.
Proof. reflexivity. Qed.


Lemma str_eqb_spec (a b : str) : reflect (a = b) (str_eqb a b).
Proof.
  unfold str_eqb. destruct (list_eq_dec N.eq_dec a b); constructor; assumption.
Qed.

Lemma str_eqb_refl (a : str) : str_eqb a a = true.
Proof. destruct (str_eqb_spec a a); congruence. Qed.

(** ** Dictionaries *)

Section DictFacts.
Context {K V : Type} `{Eqb K}.

Lemma eqb_refl (k : K) : eqb k k = true.
Proof. destruct (eqb_spec k k); congruence. Qed.

Lemma eqb_neq (k k' : K) : k <> k' -> eqb k k' = false.
Proof. intros Hne. destruct (eqb_spec k k'); congruence. Qed.

Lemma dict_get_set_same (d : dict K V) (k : K) (v : V) :
  dict_get (dict_set d k v) k = Some v.
Proof.
  induction d as [|[k' v'] d IH]; simpl.
  - now rewrite eqb_refl.
  - destruct (eqb_spec k' k) as [->|Hne]; simpl.
    + now rewrite eqb_refl.
    + now rewrite (eqb_neq _ _ Hne).
Qed.

Lemma dict_get_set_other (d : dict K V) (k k0 : K) (v : V) :
  k <> k0 -> dict_get (dict_set d k v) k0 = dict_get d k0.
Proof.
  intros Hne. induction d as [|[k' v'] d IH]; simpl.
  - now rewrite (eqb_neq _ _ Hne).
  - destruct (eqb_spec k' k) as [->|Hne']; simpl.
    + now rewrite (eqb_neq _ _ Hne).
    + now rewrite IH.
Qed.

Lemma dict_get_None (d : dict K V) (k : K) :
  dict_get d k = None <-> ~ In k (dict_keys d).
Proof.
  induction d as [|[k' v'] d IH]; simpl.
  - tauto.
  - destruct (eqb_spec k' k) as [->|Hne].
    + split; [discriminate | intros Hn; exfalso; apply Hn; now left].
    + rewrite IH. split; [intros Hn [Hk|Hk]; auto | intros Hn Hk; apply Hn; now right].
Qed.

Lemma dict_keys_set (d : dict K V) (k : K) (v : V) :
  dict_keys (dict_set d k v) =
  match dict_get d k with
  | Some _ => dict_keys d
  | None => dict_keys d ++ [k]
  end.
Proof.
  induction d as [|[k' v'] d IH]; simpl; [reflexivity|].
  destruct (eqb_spec k' k) as [->|Hne]; simpl; [reflexivity|].
  rewrite IH. now destruct (dict_get d k).
Qed.

Lemma dict_set_NoDup (d : dict K V) (k : K) (v : V) :
  NoDup (dict_keys d) -> NoDup (dict_keys (dict_set d k v)).
Proof.
  intros Hnd. rewrite dict_keys_set.
  destruct (dict_get d k) eqn:Hg; [assumption|].
  apply dict_get_None in Hg.
  apply NoDup_rev in Hnd. rewrite <- (rev_involutive (dict_keys d ++ [k])).
  apply NoDup_rev. rewrite rev_app_distr. simpl. constructor; [|assumption].
  now rewrite <- in_rev.
Qed.

(** With distinct keys, a dictionary is its keys paired with what [get]
    returns for them. *)
Lemma dict_values_get (d : dict K V) (default : V) :
  NoDup (dict_keys d) ->
  dict_values d = map (fun k => dict_get_default d k default) (dict_keys d).
Proof.
  unfold dict_values, dict_get_default.
  induction d as [|[k v] d IH]; simpl; [reflexivity|].
  intros Hnd. inversion Hnd as [|? ? Hnotin Hnd']; subst.
  rewrite eqb_refl. f_equal. rewrite (IH Hnd').
  apply map_ext_in. intros k0 Hin.
  destruct (eqb_spec k k0) as [->|Hne]; [contradiction|reflexivity].
Qed.

End DictFacts.

(** ** Entropy estimator *)

Section EntropyFacts.
Context {rt : Runtime}.

Lemma counts_nil : counts [] [].
Proof. split; [constructor|]. intros c. reflexivity. Qed.

Lemma counts_step (frequency : dict char Z) (seen : str) (c : char) :
  counts frequency seen ->
  counts (dict_set frequency c (dict_get_default frequency c 0 + 1)) (seen ++ [c]).
Proof.
  intros [Hnd Hc]. split; [now apply dict_set_NoDup|].
  intros c0. unfold occurrences, dict_get_default.
  rewrite count_occ_app. simpl.
  destruct (N.eq_dec c c0) as [->|Hne].
  - rewrite dict_get_set_same, (Hc c0).
    destruct (in_dec N.eq_dec c0 (seen ++ [c0])) as [_|Hn];
      [|exfalso; apply Hn; apply in_or_app; right; now left].
    f_equal. rewrite Nat2Z.inj_add.
    destruct (in_dec N.eq_dec c0 seen) as [Hi|Hi]; [reflexivity|].
    apply (count_occ_not_In N.eq_dec) in Hi. now rewrite Hi.
  - rewrite (dict_get_set_other _ _ _ _ Hne), (Hc c0). unfold occurrences.
    destruct (in_dec N.eq_dec c0 seen) as [Hi|Hi];
      destruct (in_dec N.eq_dec c0 (seen ++ [c])) as [Hj|Hj].
    + now rewrite Nat.add_0_r.
    + exfalso. apply Hj. apply in_or_app. now left.
    + exfalso. apply in_app_or in Hj. destruct Hj as [Hj|[Hj|[]]]; congruence.
    + reflexivity.
Qed.

Lemma counts_fold (rest : str) (frequency : dict char Z) (seen : str) :
  counts frequency seen ->
  counts
    (fold_left (fun frequency ch =>
                  dict_set frequency ch (dict_get_default frequency ch 0 + 1))
       rest frequency)
    (seen ++ rest).
Proof.
  revert frequency seen.
  induction rest as [|c rest IH]; intros frequency seen Hc; simpl.
  - now rewrite app_nil_r.
  - replace (seen ++ c :: rest) with ((seen ++ [c]) ++ rest)
      by (now rewrite <- app_assoc).
    apply IH. now apply counts_step.
Qed.

Lemma count_chars_counts (password : str) : counts (count_chars password) password.
Proof. apply (counts_fold password [] []). apply counts_nil. Qed.

Lemma counts_keys (frequency : dict char Z) (seen : str) (c : char) :
  counts frequency seen -> (In c (dict_keys frequency) <-> In c seen).
Proof.
  intros [_ Hc]. specialize (Hc c).
  destruct (in_dec N.eq_dec c seen) as [Hi|Hi].
  - split; [intros _; assumption|intros _].
    destruct (in_dec N.eq_dec c (dict_keys frequency)) as [Hk|Hk]; [assumption|].
    apply dict_get_None in Hk. congruence.
  - apply dict_get_None in Hc. tauto.
Qed.

Lemma counts_values (frequency : dict char Z) (seen : str) :
  counts frequency seen ->
  dict_values frequency =
  map (fun c => Z.of_nat (occurrences seen c)) (dict_keys frequency).
Proof.
  intros Hcs. pose proof Hcs as [Hnd Hc].
  rewrite (dict_values_get frequency 0 Hnd).
  apply map_ext_in. intros c Hin. unfold dict_get_default. rewrite (Hc c).
  apply (counts_keys _ _ c Hcs) in Hin.
  destruct (in_dec N.eq_dec c seen); [reflexivity|contradiction].
Qed.

Lemma occurrences_pos (s : str) (c : char) : In c s -> (0 < occurrences s c)%nat.
Proof. intros Hin. now apply (count_occ_In N.eq_dec). Qed.

Lemma probability_pos (s : str) (c : char) : In c s -> (0 < probability s c)%R.
Proof.
  intros Hin. unfold probability. apply Rdiv_lt_0_compat; apply lt_0_INR.
  - now apply occurrences_pos.
  - destruct s; [contradiction|simpl; lia].
Qed.

Lemma probability_le_1 (s : str) (c : char) :
  In c s -> (probability s c <= 1)%R.
Proof.
  intros Hin. unfold probability.
  assert (Hlen : (0 < INR (List.length s))%R)
    by (apply lt_0_INR; destruct s; [contradiction|simpl; lia]).
  apply (Rmult_le_reg_r (INR (List.length s))); [assumption|].
  unfold Rdiv. rewrite Rmult_assoc, Rinv_l, Rmult_1_r, Rmult_1_l by lra.
  apply le_INR. apply count_occ_bound.
Qed.

(** The second loop subtracts one term [p * log2 p] for each key. *)
Lemma entropy_loop_sum (s : str) (keys : list char) (entropy : R) :
  (forall c, In c keys -> In c s) ->
  entropy_loop (len s) (map (fun c => Z.of_nat (occurrences s c)) keys) entropy =
  Ok (entropy - Rsum (map (fun c => plog2p (probability s c)) keys))%R.
Proof.
  revert entropy. induction keys as [|c keys IH]; intros entropy Hsub; simpl.
  - f_equal. lra.
  - assert (Hin : In c s) by (apply Hsub; now left).
    unfold truediv, len.
    destruct (Z.eqb_spec (Z.of_nat (List.length s)) 0) as [Hz|_];
      [destruct s; [contradiction|discriminate]|].
    simpl. rewrite <- !INR_IZR_INZ. fold (probability s c).
    unfold log2. destruct (Rlt_dec 0 (probability s c)) as [_|Hn];
      [|exfalso; apply Hn; now apply probability_pos].
    simpl. rewrite IH by (intros c' Hc'; apply Hsub; now right).
    f_equal. unfold plog2p. lra.
Qed.

Lemma Rsum_Permutation (l l' : list R) : Permutation l l' -> Rsum l = Rsum l'.
Proof.
  induction 1; simpl; lra.
Qed.

(** The estimator computes the estimate of the specification, and never
    raises. *)
Lemma shannon_entropy_spec (password : str) :
  shannon_entropy password = Ok (spec_entropy password).
Proof.
  unfold spec_entropy, entropy_per_char.
  destruct password as [|c0 s0].
  - simpl. f_equal. lra.
  - change (shannon_entropy (c0 :: s0))
      with (bind (entropy_loop (len (c0 :: s0))
                    (dict_values (count_chars (c0 :: s0))) 0%R)
              (fun entropy => Ok (entropy * IZR (len (c0 :: s0)))%R)).
    generalize (c0 :: s0). intros password.
    pose proof (count_chars_counts password) as Hcs.
    rewrite (counts_values _ _ Hcs).
    rewrite entropy_loop_sum by (intros c Hc; now apply (counts_keys _ _ c Hcs)).
    simpl. f_equal.
    rewrite (Rsum_Permutation
               (map (fun c => plog2p (probability password c))
                    (dict_keys (count_chars password)))
               (map (fun c => plog2p (probability password c))
                    (distinct_chars password))).
    + unfold len. rewrite <- INR_IZR_INZ. lra.
    + apply Permutation_map. apply NoDup_Permutation.
      * apply Hcs.
      * apply NoDup_nodup.
      * intros c. unfold distinct_chars. rewrite nodup_In.
        apply (counts_keys _ _ c Hcs).
Qed.

Lemma plog2p_nonpos (p : R) : (0 < p <= 1)%R -> (plog2p p <= 0)%R.
Proof.
  intros [Hp H1]. unfold plog2p.
  assert (Hln2 : (0 < ln 2)%R) by (rewrite <- ln_1; apply ln_increasing; lra).
  assert (Hln : (ln p <= 0)%R).
  { destruct H1 as [H1| ->]; [|rewrite ln_1; lra].
    rewrite <- ln_1. left. apply ln_increasing; lra. }
  assert (Hinv : (0 < / ln 2)%R) by now apply Rinv_0_lt_compat.
  assert (Hq : (ln p * / ln 2 <= 0)%R) by nra.
  unfold Rdiv. nra.
Qed.

Lemma Rsum_nonpos (l : list R) : (forall x, In x l -> (x <= 0)%R) -> (Rsum l <= 0)%R.
Proof.
  induction l as [|x l IH]; simpl; intros Hl; [lra|].
  assert (x <= 0)%R by (apply Hl; now left).
  assert (Rsum l <= 0)%R by (apply IH; intros y Hy; apply Hl; now right).
  lra.
Qed.

Lemma spec_entropy_nonneg (s : str) : (0 <= spec_entropy s)%R.
Proof.
  unfold spec_entropy, entropy_per_char.
  apply Rmult_le_pos; [|apply pos_INR].
  assert (Rsum (map (fun c => plog2p (probability s c)) (distinct_chars s)) <= 0)%R;
    [|lra].
  apply Rsum_nonpos. intros x Hx. apply in_map_iff in Hx.
  destruct Hx as [c [<- Hc]]. unfold distinct_chars in Hc. rewrite nodup_In in Hc.
  apply plog2p_nonpos. split; [now apply probability_pos|now apply probability_le_1].
Qed.

End EntropyFacts.

(** ** Composite scorer *)

Section ScoreFacts.
Context {rt : Runtime}.

Lemma Rgeb_true_iff (x y : R) : Rgeb x y = true <-> (x >= y)%R.
Proof.
  unfold Rgeb. destruct (Rge_dec x y); split; intros; congruence.
Qed.

(** The scorer returns for every password; its score is the sum of the four
    threshold points and its label the table entry of that score. *)
Lemma simple_score_value (password : str) :
  let length := len password in
  let classes := classCount password in
  let entropy := spec_entropy password in
  let score :=
    Z.b2z (length >=? 8) + Z.b2z (length >=? 12) + Z.b2z (classes >=? 2)
    + Z.b2z ((classes >=? 3) && Rgeb entropy 40) in
  exists label,
    simple_score password = Ok (score, label) /\
    0 <= score <= 4 /\
    In (score, label)
       [ (0, lit "Very weak"); (1, lit "Weak"); (2, lit "Moderate");
         (3, lit "Strong"); (4, lit "Very strong") ].
Proof.
  unfold simple_score, classCount, score_rule.
  rewrite shannon_entropy_spec. cbn [bind].
  destruct (char_classes password) as [[[has_upper has_lower] has_digit] has_special].
  destruct (len password >=? 8), (len password >=? 12),
    has_upper, has_lower, has_digit, has_special,
    (Rgeb (spec_entropy password) 40);
    cbn; eexists; (split; [reflexivity|]); (split; [lia|]); tauto.
Qed.

Lemma sum_bools_count_true (a b c d : bool) :
  sum_bools [a; b; c; d] = count_true [a; b; c; d].
Proof. destruct a, b, c, d; reflexivity. Qed.

Lemma point_b2z (condition : Prop) (b : bool) :
  (b = true <-> condition) -> point condition (Z.b2z b).
Proof.
  intros Hb. unfold point. destruct b; [left|right]; split; try reflexivity.
  - now apply Hb.
  - intros Hc. apply Hb in Hc. discriminate Hc.
Qed.

(** C1. For every password the score of [simple_score] starts at 0 and takes
    one point for each of four independent conditions: a length of at least
    8, a length of at least 12, at least two true class flags, at least three
    true class flags together with an entropy estimate of at least 40. The
    flags are those of the classifier (each says whether some character is in
    its class) and are counted one by one; the estimate is that of
    [shannon_entropy]. The score lies between 0 and 4, so the clamp
    [min(score, 4)] leaves it unchanged, and the label is the entry of the
    fixed table for that score. *)
Theorem simple_score_additive_rule (password : str) :
  exists has_upper has_lower has_digit has_special entropy p1 p2 p3 p4 score label,
    char_classes password = (has_upper, has_lower, has_digit, has_special) /\
    (has_upper = true <-> exists c, In c password /\ isupper c = true) /\
    (has_lower = true <-> exists c, In c password /\ islower c = true) /\
    (has_digit = true <-> exists c, In c password /\ isdigit c = true) /\
    (has_special = true <-> exists c, In c password /\ isalnum c = false) /\
    shannon_entropy password = Ok entropy /\
    point (8 <= Z.of_nat (List.length password)) p1 /\
    point (12 <= Z.of_nat (List.length password)) p2 /\
    point (2 <= count_true [has_upper; has_lower; has_digit; has_special]) p3 /\
    point (3 <= count_true [has_upper; has_lower; has_digit; has_special]
           /\ (entropy >= 40)%R) p4 /\
    simple_score password = Ok (score, label) /\
    score = 0 + p1 + p2 + p3 + p4 /\
    0 <= score <= 4 /\
    Z.min score 4 = score /\
    In (score, label)
       [ (0, lit "Very weak"); (1, lit "Weak"); (2, lit "Moderate");
         (3, lit "Strong"); (4, lit "Very strong") ].
Proof.
  destruct (simple_score_value password) as [label [Hs [Hr Hl]]].
  unfold classCount, char_classes in Hs, Hr, Hl. rewrite sum_bools_count_true in *.
  exists (any isupper password), (any islower password), (any isdigit password),
    (any (fun c => negb (isalnum c)) password), (spec_entropy password).
  set (classes := count_true [any isupper password; any islower password;
                               any isdigit password;
                               any (fun c => negb (isalnum c)) password]) in *.
  exists (Z.b2z (len password >=? 8)), (Z.b2z (len password >=? 12)),
    (Z.b2z (classes >=? 2)),
    (Z.b2z ((classes >=? 3) && Rgeb (spec_entropy password) 40)).
  eexists. exists label.
  split; [reflexivity|].
  unfold any at 1 2 3 4. rewrite !existsb_exists.
  split; [tauto|]. split; [tauto|]. split; [tauto|].
  split.
  { split; intros [c [Hin Hc]]; exists c; (split; [assumption|]);
      now apply negb_true_iff. }
  split; [apply shannon_entropy_spec|].
  split; [apply point_b2z; rewrite Z.geb_leb; apply Z.leb_le|].
  split; [apply point_b2z; rewrite Z.geb_leb; apply Z.leb_le|].
  split; [apply point_b2z; rewrite Z.geb_leb; apply Z.leb_le|].
  split.
  { apply point_b2z. rewrite andb_true_iff, Z.geb_leb, Z.leb_le, Rgeb_true_iff.
    reflexivity. }
  split; [exact Hs|]. split; [lia|].
  split; [exact Hr|]. split; [lia|exact Hl].
Qed.

(** C9. With the class flags and the entropy estimate fixed, the score does not
    decrease when the length grows: for all lengths [a <= b],
    [score_rule a flags entropy <= score_rule b flags entropy]. *)
Theorem score_monotone_in_length (a b : Z) (flags : bool * bool * bool * bool)
    (entropy : R) :
  a <= b -> score_rule a flags entropy <= score_rule b flags entropy.
Proof.
  intros Hab. unfold score_rule.
  destruct flags as [[[has_upper has_lower] has_digit] has_special].
  rewrite !Z.geb_leb.
  destruct (Z.leb_spec 8 a), (Z.leb_spec 8 b), (Z.leb_spec 12 a), (Z.leb_spec 12 b);
    try lia;
    destruct (2 <=? sum_bools [has_upper; has_lower; has_digit; has_special]),
      ((3 <=? sum_bools [has_upper; has_lower; has_digit; has_special])
       && Rgeb entropy 40);
    lia.
Qed.

Lemma score_monotone_in_length_witness :
  7 <= 12 /\
  score_rule 7 (true, true, true, false) 41 <= score_rule 12 (true, true, true, false) 41.
Proof. split; [lia | apply score_monotone_in_length; lia]. Defined.

Lemma existsb_true_iff {A : Type} (f : A -> bool) (l : list A) :
  existsb f l = true <-> exists x, In x l /\ f x = true.
Proof. apply existsb_exists. Qed.

(** C8. Classification, entropy estimation and scoring return for every string
    of code points: the four flags say whether some character of the string is
    in the class, the estimator and the scorer raise no exception; the empty
    string has no class, and the string [Ab3!] has all four. *)
Theorem core_functions_total (s : str) :
  (exists has_upper has_lower has_digit has_special,
     char_classes s = (has_upper, has_lower, has_digit, has_special) /\
     (has_upper = true <-> exists c, In c s /\ isupper c = true) /\
     (has_lower = true <-> exists c, In c s /\ islower c = true) /\
     (has_digit = true <-> exists c, In c s /\ isdigit c = true) /\
     (has_special = true <-> exists c, In c s /\ isalnum c = false)) /\
  (exists entropy, shannon_entropy s = Ok entropy) /\
  (exists score label, simple_score s = Ok (score, label)) /\
  char_classes [] = (false, false, false, false) /\
  classCount [] = 0 /\
  classCount (lit "Ab3!") = 4.
Proof.
  split; [|split; [|split; [|repeat split]]].
  - do 4 eexists. split; [reflexivity|]. unfold any.
    rewrite !existsb_true_iff. repeat split; try tauto.
    + intros [c [Hin Hc]]. exists c. split; [assumption|].
      now apply negb_true_iff.
    + intros [c [Hin Hc]]. exists c. split; [assumption|].
      now apply negb_true_iff.
  - eexists. apply shannon_entropy_spec.
  - destruct (simple_score_value s) as [label [Hs _]]. eauto.
Qed.

End ScoreFacts.

(** The password [password]: length 8 and lower-case letters only, so one
    point and the label [Weak], whatever its entropy. *)
Example simple_score_password :
  @simple_score ascii_runtime pw_password = Ok (1, lit "Weak").
Proof.
  unfold simple_score. rewrite shannon_entropy_spec. reflexivity.
Qed.

(** ** Entropy estimate: the claim *)

Section EntropyClaim.
Context {rt : Runtime}.

(** C2. For every string the estimator returns the empirical Shannon entropy
    of the string's character frequencies, [H = - sum p * log2 p] in bits per
    character, times the length of the string; the result is never negative,
    and it is 0 for the empty string. *)
Theorem shannon_entropy_empirical (s : str) :
  (exists h,
     shannon_entropy s = Ok h /\
     h = (entropy_per_char s * INR (List.length s))%R /\
     entropy_per_char s =
       (- Rsum (map (fun c => probability s c * (ln (probability s c) / ln 2))
                    (distinct_chars s)))%R /\
     (0 <= h)%R) /\
  shannon_entropy [] = Ok 0%R.
Proof.
  split; [|reflexivity].
  exists (spec_entropy s). split; [apply shannon_entropy_spec|].
  split; [reflexivity|]. split; [reflexivity|]. apply spec_entropy_nonneg.
Qed.

End EntropyClaim.

(** ** Wordlist matcher *)



Lemma wordlist_loop_read_to_end (password_stripped : str) (f : list str) :
  wordlist_loop password_stripped f None
  = Ok (existsb (fun line => str_eqb (rstrip [CR; LF] line) password_stripped) f).
Proof.
  induction f as [|line f IH]; simpl; [reflexivity|].
  now destruct (str_eqb (rstrip [CR; LF] line) password_stripped).
Qed.







Lemma rstrip_app_mem (chars s : str) (c : char) :
  mem c chars = true -> rstrip chars (s ++ [c]) = rstrip chars s.
Proof.
  intros Hc. unfold rstrip. rewrite rev_app_distr. simpl. now rewrite Hc.
Qed.

Lemma rstrip_clean (chars s : str) :
  (forall c, In c s -> mem c chars = false) -> rstrip chars s = s.
Proof.
  intros Hs. unfold rstrip. rewrite <- (rev_involutive s) at 2.
  assert (Hr : forall c, In c (rev s) -> mem c chars = false)
    by (intros c Hc; apply Hs; now apply in_rev).
  destruct (rev s) as [|c r]; [reflexivity|].
  cbn [dropwhile]. now rewrite (Hr c (or_introl eq_refl)).
Qed.

Lemma mem_CRLF_false (c : char) : c <> CR -> c <> LF -> mem c [CR; LF] = false.
Proof.
  intros Hcr Hlf. unfold mem. simpl.
  destruct (N.eqb_spec c CR), (N.eqb_spec c LF); try congruence; reflexivity.
Qed.

Lemma rstrip_CRLF_clean (s : str) : no_line_break s -> rstrip [CR; LF] s = s.
Proof.
  intros [Hcr Hlf]. apply rstrip_clean. intros c Hc.
  apply mem_CRLF_false; intros ->; contradiction.
Qed.


Lemma universal_newlines_word (w rest : str) :
  ~ In CR w -> universal_newlines (w ++ rest) = w ++ universal_newlines rest.
Proof.
  induction w as [|c w IH]; intros Hw; [reflexivity|].
  cbn [app universal_newlines].
  destruct (N.eqb_spec c CR) as [->|_]; [exfalso; apply Hw; now left|].
  f_equal. apply IH. intros Hin. apply Hw. now right.
Qed.

Lemma lines_of_word (w rest cur : str) :
  ~ In LF w ->
  lines_of (w ++ LF :: rest) cur = (rev cur ++ w ++ [LF]) :: lines_of rest [].
Proof.
  revert cur. induction w as [|c w IH]; intros cur Hw.
  - reflexivity.
  - cbn [app lines_of].
    destruct (N.eqb_spec c LF) as [->|_]; [exfalso; apply Hw; now left|].
    rewrite IH by (intros Hin; apply Hw; now right).
    cbn [rev]. now rewrite <- app_assoc.
Qed.

(** A wordlist written with LF or with CR LF line endings is read as its
    words, each followed by LF. *)
Lemma wordlist_text_lines (eol : str) (words : list str) :
  eol = [LF] \/ eol = [CR; LF] ->
  Forall no_line_break words ->
  lines_of (universal_newlines (wordlist_text eol words)) []
  = map (fun w => w ++ [LF]) words.
Proof.
  intros Heol Hwords. unfold wordlist_text.
  induction Hwords as [|w words [Hcr Hlf] _ IH]; [reflexivity|].
  cbn [map List.concat]. rewrite <- app_assoc, universal_newlines_word by assumption.
  assert (Heolrest : universal_newlines
                       (eol ++ List.concat (map (fun w => w ++ eol) words))
                     = LF :: universal_newlines
                               (List.concat (map (fun w => w ++ eol) words)))
    by (destruct Heol as [-> | ->]; reflexivity).
  rewrite Heolrest, lines_of_word by assumption. now rewrite IH.
Qed.

Lemma wordlist_loop_words (pw : str) (words : list str) :
  Forall no_line_break words ->
  existsb (fun line => str_eqb (rstrip [CR; LF] line) pw)
    (map (fun w => w ++ [LF]) words)
  = existsb (fun w => str_eqb w pw) words.
Proof.
  induction 1 as [|w words Hw _ IH]; [reflexivity|].
  cbn [map existsb].
  now rewrite rstrip_app_mem, (rstrip_CRLF_clean w Hw), IH by reflexivity.
Qed.

Lemma existsb_str_eqb (words : list str) (pw : str) :
  existsb (fun w => str_eqb w pw) words = true <-> In pw words.
Proof.
  rewrite existsb_exists. split.
  - intros [w [Hin Heq]]. destruct (str_eqb_spec w pw); congruence.
  - intros Hin. exists pw. split; [assumption|apply str_eqb_refl].
Qed.

(** The verdict on a file that reads to its end. *)
Lemma check_local_wordlist_file_verdict (fs : filesystem) (P R content : str) :
  fs R = Some (Readable content) ->
  check_local_wordlist fs P R
  = Ok (existsb (fun line => str_eqb (rstrip [CR; LF] line) (rstrip [LF] P))
          (lines_of (universal_newlines content) [])).
Proof.
  intros Hfs. unfold check_local_wordlist, os_path_isfile, open_lines.
  rewrite Hfs. cbn [negb]. apply wordlist_loop_read_to_end.
Qed.





(** ** Breach lookup client *)

Section ClientFacts.
Context {rt : Runtime} {cs : Casing}.

Lemma be_bytes_length (n : nat) (x : Z) : List.length (be_bytes n x) = n.
Proof. induction n; simpl; congruence. Qed.

Lemma be_bytes_range (n : nat) (x b : Z) : In b (be_bytes n x) -> 0 <= b < 256.
Proof.
  induction n as [|n IH]; simpl; [tauto|].
  intros [<-|Hin]; [|auto].
  change 0xFF with (Z.ones 8). rewrite Z.land_ones by lia.
  apply Z.mod_pos_bound. reflexivity.
Qed.

Lemma sha1_length (data : list Z) : List.length (sha1 data) = 20%nat.
Proof.
  unfold sha1.
  destruct (fold_left sha1_block _ sha1_init) as [[[[h0 h1] h2] h3] h4].
  rewrite !length_app, !be_bytes_length. reflexivity.
Qed.

Lemma sha1_range (data : list Z) (b : Z) : In b (sha1 data) -> 0 <= b < 256.
Proof.
  unfold sha1.
  destruct (fold_left sha1_block _ sha1_init) as [[[[h0 h1] h2] h3] h4].
  rewrite !in_app_iff. intros H. decompose [or] H; eapply be_bytes_range; eassumption.
Qed.

Lemma byte_hex_all : forallb byte_hex_ok (map Z.of_nat (seq 0 256)) = true.
Proof. vm_compute. reflexivity. Qed.

Lemma byte_hex (b : Z) : 0 <= b < 256 -> byte_hex_ok b = true.
Proof.
  intros Hb. pose proof byte_hex_all as Hall. rewrite forallb_forall in Hall.
  apply Hall. apply in_map_iff. exists (Z.to_nat b). split; [lia|].
  apply in_seq. lia.
Qed.

Lemma upper_hexdigest (l : list Z) :
  (forall b, In b l -> 0 <= b < 256) ->
  List.length (upper (hexdigest l)) = (2 * List.length l)%nat /\
  forallb is_upper_hex (upper (hexdigest l)) = true.
Proof.
  induction l as [|b l IH]; intros Hl; [split; reflexivity|].
  assert (Hb : byte_hex_ok b = true) by (apply byte_hex, Hl; now left).
  destruct IH as [IHlen IHhex]; [intros b' Hb'; apply Hl; now right|].
  change (hexdigest (b :: l)) with (hexdigest [b] ++ hexdigest l).
  unfold upper in *. rewrite flat_map_app, length_app, forallb_app.
  unfold byte_hex_ok, upper in Hb.
  destruct (flat_map upper_char (hexdigest [b])) as [|c1 [|c2 [|c3 rest]]];
    try discriminate.
  apply andb_true_iff in Hb. destruct Hb as [Hc1 Hc2].
  rewrite IHlen, IHhex. split; [simpl; lia|].
  simpl. now rewrite Hc1, Hc2.
Qed.

Lemma sha1_hex_upper_shape (password text : str) :
  sha1_hex_upper password = Ok text ->
  List.length text = 40%nat /\ forallb is_upper_hex text = true.
Proof.
  unfold sha1_hex_upper. destruct (encode_utf8 password) as [data|e]; [|discriminate].
  simpl. intros [= <-].
  destruct (upper_hexdigest (sha1 data) (sha1_range data)) as [Hlen Hhex].
  rewrite sha1_length in Hlen. split; assumption.
Qed.

Lemma hibp_query_eq (t : transport) (password : str) (w : world) :
  hibp_query t password w =
  match sha1_hex_upper password with
  | Err e => (Err e, w)
  | Ok sha1 =>
      (match t (hibp_url (firstn 5 sha1)) 10 with
       | Err e => Err e
       | Ok resp =>
           if negb (status_code resp =? 200) then
             Err (Raise RuntimeError
                    (lit "HIBP API error: " ++ str_of_int (status_code resp)))
           else scan_lines (skipn 5 sha1) (splitlines (text resp))
       end,
       log_request w (hibp_url (firstn 5 sha1)) 10)
  end.
Proof.
  unfold hibp_query, bindM, lift.
  destruct (sha1_hex_upper password) as [sha1|e]; [|reflexivity].
  destruct (t (hibp_url (firstn 5 sha1)) 10) as [resp|e]; [|reflexivity].
  now destruct (negb (status_code resp =? 200)).
Qed.

(** The client, by the transport it ends up with. *)
Lemma hibp_pwned_count_eq (password : str) (w : world) :
  hibp_pwned_count password w =
  match transport_of w with
  | Err e => (Err e, after_ensure w)
  | Ok None =>
      (Ok (-1),
       with_shell (after_ensure w)
         (write (host (after_ensure w))
            (lit "Cannot perform HIBP check because 'requests' is missing."
               ++ [LF])))
  | Ok (Some t) => hibp_query t password (after_ensure w)
  end.
Proof.
  unfold hibp_pwned_count, transport_of, after_ensure, in_shell, print_line.
  destruct (requests w) as [t|]; [reflexivity|].
  destruct (ensure_package (lit "requests") None (host w)) as [[[t|]|e] sh];
    reflexivity.
Qed.

Lemma after_ensure_frame (w : world) :
  fs (after_ensure w) = fs w /\ zxcvbn (after_ensure w) = zxcvbn w /\
  sent (after_ensure w) = sent w.
Proof.
  unfold after_ensure. destruct (requests w); [auto|].
  destruct (ensure_package (lit "requests") None (host w)) as [[m|e] sh];
    repeat split.
Qed.

Lemma after_ensure_host (w : world) :
  host (after_ensure w)
  = match requests w with
    | Some _ => host w
    | None => snd (ensure_package (lit "requests") None (host w))
    end.
Proof.
  unfold after_ensure. destruct (requests w); [reflexivity|].
  now destruct (ensure_package (lit "requests") None (host w)) as [[m|e] sh].
Qed.

Lemma after_ensure_requests (w : world) :
  requests (after_ensure w)
  = match transport_of w with
    | Ok m => m
    | Err _ => None
    end.
Proof.
  unfold after_ensure, transport_of. destruct (requests w) eqn:Hr; [exact Hr|].
  destruct (ensure_package (lit "requests") None (host w)) as [[m|e] sh];
    [reflexivity|exact Hr].
Qed.

(** The query changes the log of requests only. *)
Lemma hibp_query_frame (t : transport) (password : str) (w : world) :
  let w' := snd (hibp_query t password w) in
  fs w' = fs w /\ zxcvbn w' = zxcvbn w /\ requests w' = requests w /\
  host w' = host w.
Proof.
  rewrite hibp_query_eq.
  destruct (sha1_hex_upper password); simpl; repeat split; reflexivity.
Qed.

(** What the client does in the shell is what [ensure_package] does there,
    and the notice of line 114. *)
Lemma hibp_host (password : str) (w : world) :
  host (snd (hibp_pwned_count password w))
  = match transport_of w with
    | Ok None =>
        write (host (after_ensure w))
          (lit "Cannot perform HIBP check because 'requests' is missing."
             ++ [LF])
    | _ => host (after_ensure w)
    end.
Proof.
  rewrite hibp_pwned_count_eq.
  destruct (transport_of w) as [[t|]|e]; try reflexivity.
  now destruct (hibp_query_frame t password (after_ensure w)) as [_ [_ [_ Hh]]].
Qed.

Lemma hibp_sent (password : str) (w : world) :
  sent (snd (hibp_pwned_count password w)) = sent_after w (prefix_of password).
Proof.
  rewrite hibp_pwned_count_eq. unfold sent_after, prefix_of.
  destruct (after_ensure_frame w) as [_ [_ Hsent]].
  destruct (transport_of w) as [[t|]|e] eqn:Ht; try exact Hsent.
  rewrite hibp_query_eq.
  destruct (sha1_hex_upper password) as [sha1|e]; simpl; now rewrite Hsent.
Qed.

Lemma transport_of_loaded (w : world) (t : transport) :
  transport_of (set_requests w (Some t)) = Ok (Some t).
Proof. reflexivity. Qed.

Lemma unpack2_Ok (parts : list str) (h count : str) :
  unpack2 parts = Ok (h, count) -> parts = [h; count].
Proof.
  destruct parts as [|a [|b [|c rest]]]; simpl; try discriminate.
  now intros [= -> ->].
Qed.

Lemma scan_lines_hit (suffix line count : str) (after : list str) :
  split colon line = [suffix; count] ->
  scan_lines suffix (line :: after) = py_int count.
Proof. intros Hs. simpl. rewrite Hs. simpl. now rewrite str_eqb_refl. Qed.

Lemma scan_lines_skip (suffix : str) (before rest : list str) :
  Forall (other_pair suffix) before ->
  scan_lines suffix (before ++ rest) = scan_lines suffix rest.
Proof.
  induction 1 as [|line before [h [count [Hs Hne]]] _ IH]; [reflexivity|].
  simpl. rewrite Hs. simpl.
  destruct (str_eqb_spec h suffix); [contradiction|exact IH].
Qed.

(** A count that the loop returns is 0, or read in a line whose first field
    is the suffix. *)
Lemma scan_lines_result (suffix : str) (lines : list str) (n : Z) :
  scan_lines suffix lines = Ok n ->
  n = 0 \/
  exists line count,
    In line lines /\ split colon line = [suffix; count] /\ py_int count = Ok n.
Proof.
  induction lines as [|line lines IH]; simpl.
  - intros [= <-]. now left.
  - destruct (unpack2 (split colon line)) as [[h count]|e] eqn:Hu; [|discriminate].
    apply unpack2_Ok in Hu. simpl.
    destruct (str_eqb_spec h suffix) as [->|_].
    + intros Hi. right. exists line, count. auto.
    + intros Hr. destruct (IH Hr) as [->|[l [c' [Hin Hl]]]]; [now left|].
      right. exists l, c'. auto.
Qed.

(** The text of the digest occurs nowhere in the URL: the third character
    of the URL is no hexadecimal digit, and the text would cover it. *)
Lemma hibp_url_excludes_digest (text : str) :
  List.length text = 40%nat -> forallb is_upper_hex text = true ->
  forall pre post, hibp_url (firstn 5 text) <> pre ++ text ++ post.
Proof.
  intros Hlen Hhex pre post Heq.
  assert (Hl : List.length (hibp_url (firstn 5 text)) = 42%nat)
    by (unfold hibp_url; rewrite length_app, length_firstn, Hlen; reflexivity).
  assert (Hn : nth 2 (hibp_url (firstn 5 text)) 0%N = 116%N) by reflexivity.
  rewrite Heq in Hl, Hn. rewrite !length_app in Hl.
  rewrite app_nth2, app_nth1 in Hn by lia.
  rewrite forallb_forall in Hhex.
  assert (Hin : In (nth (2 - List.length pre) text 0%N) text)
    by (apply nth_In; lia).
  apply Hhex in Hin. rewrite Hn in Hin. discriminate Hin.
Qed.

(** The digest text on the examples of FIPS 180 (the empty message, one
    block, two blocks) and on a character of three UTF-8 bytes. *)
Lemma sha1_hex_upper_vectors :
  sha1_hex_upper [] = Ok (lit "DA39A3EE5E6B4B0D3255BFEF95601890AFD80709") /\
  sha1_hex_upper (lit "abc") = Ok (lit "A9993E364706816ABA3E25717850C26C9CD0D89D") /\
  sha1_hex_upper (lit "abcdbcdecdefdefgefghfghighijhijkijkljklmklmnlmnomnopnopq")
    = Ok (lit "84983E441C3BD26EBAAE4AA1F95129E5E54670F1") /\
  sha1_hex_upper [8364%N] = Ok (lit "83FC867A6EA7BF1CA105AEC9A1B81234E0AEC40E").
Proof. repeat split; vm_compute; reflexivity. Qed.

(** C3. The client takes the upper-case hexadecimal text of the SHA-1 digest
    of the UTF-8 bytes of the password (forty characters; its values on the
    examples of FIPS 180 are the expected ones), splits it into its first
    five characters and the other thirty-five, and issues one request, for
    the URL that ends in those five characters; the text of the digest occurs
    nowhere in that URL. The transport is used for that request only: the
    outcome of the client depends on the transport through its answer to that
    URL alone. What the client does in the shell (the prompt, the text
    written, the command run) is the same for every password, and the
    requests issued are a function of the five-character prefix alone: two
    passwords with the same prefix cause the same requests. *)
Theorem hibp_request_reveals_prefix_only (password other : str) (w : world) :
  sha1_hex_upper [] = Ok (lit "DA39A3EE5E6B4B0D3255BFEF95601890AFD80709") /\
  sha1_hex_upper (lit "abc") = Ok (lit "A9993E364706816ABA3E25717850C26C9CD0D89D") /\
  sha1_hex_upper (lit "abcdbcdecdefdefgefghfghighijhijkijkljklmklmnlmnomnopnopq")
    = Ok (lit "84983E441C3BD26EBAAE4AA1F95129E5E54670F1") /\
  sha1_hex_upper [8364%N] = Ok (lit "83FC867A6EA7BF1CA105AEC9A1B81234E0AEC40E") /\
  (forall sha1,
     sha1_hex_upper password = Ok sha1 ->
     List.length sha1 = 40%nat /\
     forallb is_upper_hex sha1 = true /\
     List.length (firstn 5 sha1) = 5%nat /\
     List.length (skipn 5 sha1) = 35%nat /\
     firstn 5 sha1 ++ skipn 5 sha1 = sha1 /\
     prefix_of password = Ok (firstn 5 sha1) /\
     hibp_url (firstn 5 sha1) =
       lit "https://api.pwnedpasswords.com/range/" ++ firstn 5 sha1 /\
     (forall pre post, hibp_url (firstn 5 sha1) <> pre ++ sha1 ++ post) /\
     (forall t, transport_of w = Ok (Some t) ->
        sent (snd (hibp_pwned_count password w))
        = sent w ++ [(hibp_url (firstn 5 sha1), 10)]) /\
     (forall t t',
        t (hibp_url (firstn 5 sha1)) 10 = t' (hibp_url (firstn 5 sha1)) 10 ->
        fst (hibp_pwned_count password (set_requests w (Some t)))
        = fst (hibp_pwned_count password (set_requests w (Some t'))))) /\
  sent (snd (hibp_pwned_count password w)) = sent_after w (prefix_of password) /\
  host (snd (hibp_pwned_count password w)) = host (snd (hibp_pwned_count other w)) /\
  (prefix_of password = prefix_of other ->
   sent (snd (hibp_pwned_count password w)) = sent (snd (hibp_pwned_count other w))).
Proof.
  destruct sha1_hex_upper_vectors as [V0 [V1 [V2 V3]]].
  split; [exact V0|]. split; [exact V1|]. split; [exact V2|]. split; [exact V3|].
  split; [|split; [|split]].
  - intros sha1 Hs. destruct (sha1_hex_upper_shape _ _ Hs) as [Hlen Hhex].
    split; [exact Hlen|]. split; [exact Hhex|].
    split; [rewrite length_firstn, Hlen; reflexivity|].
    split; [rewrite length_skipn, Hlen; reflexivity|].
    split; [apply firstn_skipn|].
    split; [unfold prefix_of; now rewrite Hs|].
    split; [reflexivity|].
    split; [now apply hibp_url_excludes_digest|].
    split.
    + intros t Ht. rewrite hibp_sent. unfold sent_after, prefix_of.
      now rewrite Ht, Hs.
    + intros t t' Htt.
      rewrite !hibp_pwned_count_eq, !transport_of_loaded, !hibp_query_eq, Hs.
      cbn [fst]. now rewrite Htt.
  - apply hibp_sent.
  - now rewrite !hibp_host.
  - intros Hp. now rewrite !hibp_sent, Hp.
Qed.

(** C5, amended. With the transport at hand and the response received: when
    the status is 200 and the first line whose first field is the suffix comes
    after lines that each have exactly one colon, the client returns what
    [int] gives for that line's count; when the status is 200 and every line
    has exactly one colon and another first field, it returns 0; when the
    status is not 200 it raises [RuntimeError] with the status code in its
    message. *)
Theorem hibp_count_of_first_matching_line (password : str) (w : world)
    (t : transport) (sha1 : str) (resp : response) :
  transport_of w = Ok (Some t) ->
  sha1_hex_upper password = Ok sha1 ->
  t (hibp_url (firstn 5 sha1)) 10 = Ok resp ->
  (status_code resp = 200 ->
   forall before line after count,
     splitlines (text resp) = before ++ line :: after ->
     Forall (other_pair (skipn 5 sha1)) before ->
     split colon line = [skipn 5 sha1; count] ->
     fst (hibp_pwned_count password w) = py_int count) /\
  (status_code resp = 200 ->
   Forall (other_pair (skipn 5 sha1)) (splitlines (text resp)) ->
   fst (hibp_pwned_count password w) = Ok 0) /\
  (status_code resp <> 200 ->
   fst (hibp_pwned_count password w) =
   Err (Raise RuntimeError (lit "HIBP API error: " ++ str_of_int (status_code resp)))).
Proof.
  intros Ht Hs Hr. rewrite hibp_pwned_count_eq, Ht, hibp_query_eq, Hs, Hr.
  cbn [fst]. split; [|split].
  - intros -> before line after count Hl Hb Hc. simpl. rewrite Hl.
    rewrite scan_lines_skip by assumption. now apply scan_lines_hit.
  - intros -> Hall. simpl.
    rewrite <- (app_nil_r (splitlines (text resp))).
    now rewrite scan_lines_skip.
  - intros Hne. destruct (Z.eqb_spec (status_code resp) 200); [contradiction|].
    reflexivity.
Qed.

(** C7, amended. A count the client returns is either the value -1, returned
    without any request when [requests] is neither loaded nor installed, or
    it comes from the response received, of status 200: it is 0, or what
    [int] reads in a line of that response whose first field is the suffix;
    so it is non-negative as soon as no count that can be read in the
    response received is negative. *)
Theorem hibp_count_nonneg_or_sentinel (password : str) (w : world) (n : Z) :
  fst (hibp_pwned_count password w) = Ok n ->
  (transport_of w = Ok None /\ n = -1 /\
   sent (snd (hibp_pwned_count password w)) = sent w) \/
  (exists t sha1 resp,
     transport_of w = Ok (Some t) /\
     sha1_hex_upper password = Ok sha1 /\
     t (hibp_url (firstn 5 sha1)) 10 = Ok resp /\
     status_code resp = 200 /\
     (n = 0 \/
      exists line count,
        In line (splitlines (text resp)) /\
        split colon line = [skipn 5 sha1; count] /\ py_int count = Ok n) /\
     (counts_nonneg (text resp) -> 0 <= n)).
Proof.
  rewrite hibp_sent. unfold sent_after. rewrite hibp_pwned_count_eq.
  destruct (transport_of w) as [[t|]|e] eqn:Ht; [| |discriminate].
  - rewrite hibp_query_eq. intros Hn. right. exists t.
    destruct (sha1_hex_upper password) as [sha1|e]; [|discriminate].
    cbn [fst] in Hn.
    destruct (t (hibp_url (firstn 5 sha1)) 10) as [resp|e] eqn:Hr; [|discriminate].
    exists sha1, resp.
    destruct (Z.eqb_spec (status_code resp) 200) as [H200|]; [|discriminate].
    cbn [negb] in Hn.
    pose proof (scan_lines_result _ _ _ Hn) as Hcount.
    repeat split; try assumption.
    intros Hnonneg. destruct Hcount as [->|[line [count [Hin [Hs Hk]]]]]; [lia|].
    exact (Hnonneg line _ count n Hin Hs Hk).
  - intros [= <-]. left. repeat split.
Qed.

End ClientFacts.

Example sha1_hex_upper_password :
  @sha1_hex_upper ascii_runtime pw_password =
  Ok (lit "5BAA61E4C9B93F3F0682250B6CF8331B7EE68FD8").
Proof. vm_compute. reflexivity. Qed.

Lemma hibp_request_reveals_prefix_only_witness :
  lit "pw2001" <> lit "pw2501" /\
  @prefix_of ascii_runtime (lit "pw2001") = @prefix_of ascii_runtime (lit "pw2501") /\
  sent (snd (@hibp_pwned_count ascii_runtime ascii_casing (lit "pw2001") w_listed)) =
  sent (snd (@hibp_pwned_count ascii_runtime ascii_casing (lit "pw2501") w_listed)) /\
  sent (snd (@hibp_pwned_count ascii_runtime ascii_casing (lit "pw2001") w_listed)) =
  [(lit "https://api.pwnedpasswords.com/range/DC0A5", 10)].
Proof.
  split; [discriminate|]. split; [vm_compute; reflexivity|].
  destruct (@hibp_request_reveals_prefix_only ascii_runtime ascii_casing
              (lit "pw2001") (lit "pw2501") w_listed)
    as [_ [_ [_ [_ [Hsha [_ [_ Hsame]]]]]]].
  split; [apply Hsame; vm_compute; reflexivity|].
  destruct (Hsha (lit "DC0A55411C0E50F210B61C9B5287F642349ADE0F"))
    as [_ [_ [_ [_ [_ [_ [_ [_ [Hsent _]]]]]]]]]; [vm_compute; reflexivity|].
  rewrite (Hsent (respond 200 body_listed) eq_refl). reflexivity.
Defined.

Lemma hibp_count_of_first_matching_line_witness :
  @transport_of ascii_casing w_listed = Ok (Some (respond 200 body_listed)) /\
  @sha1_hex_upper ascii_runtime pw_password = Ok sha1_text_password /\
  respond 200 body_listed (hibp_url (firstn 5 sha1_text_password)) 10 = Ok resp_listed /\
  fst (@hibp_pwned_count ascii_runtime ascii_casing pw_password w_listed) = Ok 3.
Proof.
  split; [reflexivity|]. split; [vm_compute; reflexivity|]. split; [reflexivity|].
  destruct (@hibp_count_of_first_matching_line ascii_runtime ascii_casing
              pw_password w_listed
              (respond 200 body_listed) sha1_text_password resp_listed)
    as [Hfirst _]; [reflexivity|vm_compute; reflexivity|reflexivity|].
  apply (Hfirst eq_refl [lit "0018A45C4D1DEF81644B54AB7F969B88D65:10"]
           (lit "1E4C9B93F3F0682250B6CF8331B7EE68FD8:3") [] (lit "3")).
  - vm_compute. reflexivity.
  - constructor; [|constructor].
    exists (lit "0018A45C4D1DEF81644B54AB7F969B88D65"), (lit "10").
    split; [vm_compute; reflexivity|]. intros Heq. vm_compute in Heq. discriminate Heq.
  - vm_compute. reflexivity.
Defined.

(** C5, as stated, fails: the body of [w_malformed] has status 200 and holds
    the line [suffix:3] for the suffix of the password, [int] reads 3 in it,
    and the client raises [ValueError] on the line before it instead of
    returning 3. *)
Lemma hibp_malformed_line_counterexample :
  @transport_of ascii_casing w_malformed = Ok (Some (respond 200 body_malformed)) /\
  @sha1_hex_upper ascii_runtime pw_password = Ok sha1_text_password /\
  respond 200 body_malformed (hibp_url (firstn 5 sha1_text_password)) 10
    = Ok resp_malformed /\
  status_code resp_malformed = 200 /\
  In (skipn 5 sha1_text_password ++ lit ":3") (splitlines (text resp_malformed)) /\
  split colon (skipn 5 sha1_text_password ++ lit ":3")
    = [skipn 5 sha1_text_password; lit "3"] /\
  @py_int ascii_runtime (lit "3") = Ok 3 /\
  fst (@hibp_pwned_count ascii_runtime ascii_casing pw_password w_malformed) =
  Err (Raise ValueError (lit "not enough values to unpack (expected 2, got 1)")) /\
  fst (@hibp_pwned_count ascii_runtime ascii_casing pw_password w_malformed) <> Ok 3.
Proof.
  repeat split; try (vm_compute; reflexivity).
  - vm_compute. right. left. reflexivity.
  - vm_compute. discriminate.
Qed.

Lemma hibp_count_nonneg_or_sentinel_witness :
  fst (@hibp_pwned_count ascii_runtime ascii_casing pw_password w_listed) = Ok 3 /\
  @counts_nonneg ascii_runtime (lit body_listed) /\
  0 <= 3.
Proof.
  assert (Hnonneg : @counts_nonneg ascii_runtime (lit body_listed)).
  { intros line h count k Hin Hs Hk.
    vm_compute in Hin. destruct Hin as [<-|[<-|[]]];
      vm_compute in Hs; injection Hs as <- <-;
      vm_compute in Hk; injection Hk as <-; lia. }
  assert (Hrun : fst (@hibp_pwned_count ascii_runtime ascii_casing pw_password w_listed)
                 = Ok 3) by (vm_compute; reflexivity).
  split; [exact Hrun|]. split; [exact Hnonneg|].
  destruct (@hibp_count_nonneg_or_sentinel ascii_runtime ascii_casing
              pw_password w_listed 3 Hrun)
    as [[Hnone _]|[t [sha1 [resp [Ht [_ [Hresp [_ [_ Hpos]]]]]]]]].
  - discriminate Hnone.
  - injection Ht as <-. injection Hresp as <-. exact (Hpos Hnonneg).
Defined.

(** C7, as stated, fails: with [requests] not loaded and the user declining
    to install it the client returns the count -1; and with the transport at
    hand it returns the count -4 that the response lists for the suffix. *)
Lemma hibp_sentinel_counterexample :
  requests w_declined = None /\
  @transport_of ascii_casing w_declined = Ok None /\
  fst (@hibp_pwned_count ascii_runtime ascii_casing pw_password w_declined) = Ok (-1) /\
  -1 < 0 /\
  @transport_of ascii_casing w_negative = Ok (Some (respond 200 body_negative)) /\
  fst (@hibp_pwned_count ascii_runtime ascii_casing pw_password w_negative) = Ok (-4) /\
  -4 < 0.
Proof. repeat split; vm_compute; reflexivity. Qed.

(** ** Analysis orchestrator *)

Section OrchestratorFacts.
Context {rt : Runtime} {cs : Casing}.

Local Open Scope string_scope.

Ltac dict_lookup :=
  repeat first
    [ rewrite dict_get_set_same
    | rewrite dict_get_set_other by (intros Hkey; discriminate Hkey) ];
  try reflexivity.

Ltac thread :=
  cbv beta iota zeta delta [is_Exception negb bind fst snd].

(** A wordlist that is absent, missing or read to its end gives the
    orchestrator nothing that it does not handle. *)
Lemma wordlist_readable_no_escape (fs : filesystem) (password : str)
    (wordlist : option str) :
  wordlist_readable fs wordlist -> wordlist_escape fs password wordlist = None.
Proof.
  unfold wordlist_readable, wordlist_escape.
  destruct wordlist as [[|c path]|]; try reflexivity.
  unfold check_local_wordlist, os_path_isfile, open_lines.
  destruct (fs (c :: path)) as [[content|read e]|].
  - intros _. cbn [negb]. now rewrite wordlist_loop_read_to_end.
  - intros [].
  - intros _. reflexivity.
Qed.

(** What [analyze_password] does: it raises what the wordlist check raises
    and it does not handle, and else returns a result with these fields. *)
Lemma analyze_password_fields (password : str) (wordlist : option str)
    (hibp verbose : bool) (w : world) :
  match wordlist_escape (fs w) password wordlist with
  | Some e => analyze_password password wordlist hibp verbose w = (Err e, w)
  | None =>
      exists out,
        analyze_password password wordlist hibp verbose w =
          (Ok out, if hibp then snd (hibp_pwned_count password w) else w) /\
        dict_get out "password_length" = Some (VInt (len password)) /\
        (exists has_upper has_lower has_digit has_special,
           char_classes password = (has_upper, has_lower, has_digit, has_special) /\
           dict_get out "has_upper" = Some (VBool has_upper) /\
           dict_get out "has_lower" = Some (VBool has_lower) /\
           dict_get out "has_digit" = Some (VBool has_digit) /\
           dict_get out "has_special" = Some (VBool has_special)) /\
        (exists entropy score label,
           shannon_entropy password = Ok entropy /\
           simple_score password = Ok (score, label) /\
           score = score_rule (len password) (char_classes password) entropy /\
           dict_get out "entropy_bits" = Some (VFloat (round2 entropy)) /\
           dict_get out "simple_score" = Some (VInt score) /\
           dict_get out "label" = Some (VStr label)) /\
        (dict_get out "found_in_wordlist", dict_get out "wordlist_error")
        = wordlist_verdict w password wordlist /\
        (dict_get out "hibp_count", dict_get out "hibp_error")
        = hibp_verdict w password hibp /\
        dict_keys out
        = (core_keys ++ zxcvbn_keys w password
           ++ verdict_keys "found_in_wordlist" "wordlist_error"
                (wordlist_verdict w password wordlist)
           ++ verdict_keys "hibp_count" "hibp_error" (hibp_verdict w password hibp)
           ++ verbose_keys verbose)%list
  end.
Proof.
  unfold analyze_password, bindM, lift, gets, ret, try_except.
  assert (Hscore : simple_score password =
                   Ok (score_rule (len password) (char_classes password)
                         (spec_entropy password),
                       match simple_score password with
                       | Ok (_, label) => label
                       | Err _ => []
                       end)).
  { destruct (simple_score_value password) as [label [Hs _]].
    rewrite Hs at 2. rewrite Hs. unfold simple_score in Hs.
    rewrite shannon_entropy_spec in Hs. cbn [bind] in Hs.
    destruct (dict_getitem label_table _); [|discriminate].
    injection Hs as <- <-. reflexivity. }
  rewrite Hscore. rewrite shannon_entropy_spec.
  set (label := match simple_score password with
                | Ok (_, label) => label
                | Err _ => []
                end) in *.
  set (score := score_rule _ _ _) in *.
  destruct (char_classes password) as [[[has_upper has_lower] has_digit] has_special].
  set (rounded := round2 (spec_entropy password)).
  unfold wordlist_escape, wordlist_verdict, hibp_verdict, zxcvbn_keys, hibp_keys,
    verbose_keys, verdict_keys.
  destruct (zxcvbn w) as [zx|]; [destruct (zx password) as [a|e]|]; thread;
    (destruct wordlist as [[|c path]|]; thread;
       [|destruct (check_local_wordlist (fs w) password (c :: path)) as [found|e0];
         thread; [|destruct (is_FileNotFoundError e0); thread]|]);
    (destruct hibp; thread;
       [destruct (hibp_pwned_count password w) as [[n|e'] w1] eqn:Hh; thread|]);
    destruct verbose; thread;
    first
      [ reflexivity
      | eexists; (split; [reflexivity|]);
        (split; [dict_lookup|]);
        (split; [exists has_upper, has_lower, has_digit, has_special;
                 repeat split; dict_lookup|]);
        (split; [exists (spec_entropy password), score, label;
                 repeat split; dict_lookup|]);
        (split; [f_equal; dict_lookup|]);
        (split; [f_equal; dict_lookup|reflexivity]) ].
Qed.

(** When the wordlist check raises nothing that is not handled, the
    orchestrator returns a result. *)
Lemma analyze_password_returns (password : str) (wordlist : option str)
    (hibp verbose : bool) (w : world) :
  wordlist_escape (fs w) password wordlist = None ->
  exists out,
    analyze_password password wordlist hibp verbose w =
      (Ok out, if hibp then snd (hibp_pwned_count password w) else w) /\
    dict_get out "password_length" = Some (VInt (len password)) /\
    (exists has_upper has_lower has_digit has_special,
       char_classes password = (has_upper, has_lower, has_digit, has_special) /\
       dict_get out "has_upper" = Some (VBool has_upper) /\
       dict_get out "has_lower" = Some (VBool has_lower) /\
       dict_get out "has_digit" = Some (VBool has_digit) /\
       dict_get out "has_special" = Some (VBool has_special)) /\
    (exists entropy score label,
       shannon_entropy password = Ok entropy /\
       simple_score password = Ok (score, label) /\
       score = score_rule (len password) (char_classes password) entropy /\
       dict_get out "entropy_bits" = Some (VFloat (round2 entropy)) /\
       dict_get out "simple_score" = Some (VInt score) /\
       dict_get out "label" = Some (VStr label)) /\
    (dict_get out "found_in_wordlist", dict_get out "wordlist_error")
    = wordlist_verdict w password wordlist /\
    (dict_get out "hibp_count", dict_get out "hibp_error")
    = hibp_verdict w password hibp /\
    dict_keys out
    = (core_keys ++ zxcvbn_keys w password
       ++ verdict_keys "found_in_wordlist" "wordlist_error"
            (wordlist_verdict w password wordlist)
       ++ verdict_keys "hibp_count" "hibp_error" (hibp_verdict w password hibp)
       ++ verbose_keys verbose)%list.
Proof.
  intros Hnone.
  pose proof (analyze_password_fields password wordlist hibp verbose w) as Hrun.
  now rewrite Hnone in Hrun.
Qed.

(** With a wordlist that is absent, missing or read to its end the
    orchestrator returns a result. *)
Lemma analyze_password_readable (password : str) (wordlist : option str)
    (hibp verbose : bool) (w : world) :
  wordlist_readable (fs w) wordlist ->
  exists out,
    analyze_password password wordlist hibp verbose w =
      (Ok out, if hibp then snd (hibp_pwned_count password w) else w) /\
    dict_get out "password_length" = Some (VInt (len password)) /\
    (exists has_upper has_lower has_digit has_special,
       char_classes password = (has_upper, has_lower, has_digit, has_special) /\
       dict_get out "has_upper" = Some (VBool has_upper) /\
       dict_get out "has_lower" = Some (VBool has_lower) /\
       dict_get out "has_digit" = Some (VBool has_digit) /\
       dict_get out "has_special" = Some (VBool has_special)) /\
    (exists entropy score label,
       shannon_entropy password = Ok entropy /\
       simple_score password = Ok (score, label) /\
       score = score_rule (len password) (char_classes password) entropy /\
       dict_get out "entropy_bits" = Some (VFloat (round2 entropy)) /\
       dict_get out "simple_score" = Some (VInt score) /\
       dict_get out "label" = Some (VStr label)) /\
    (dict_get out "found_in_wordlist", dict_get out "wordlist_error")
    = wordlist_verdict w password wordlist /\
    (dict_get out "hibp_count", dict_get out "hibp_error")
    = hibp_verdict w password hibp /\
    dict_keys out
    = (core_keys ++ zxcvbn_keys w password
       ++ verdict_keys "found_in_wordlist" "wordlist_error"
            (wordlist_verdict w password wordlist)
       ++ verdict_keys "hibp_count" "hibp_error" (hibp_verdict w password hibp)
       ++ verbose_keys verbose)%list.
Proof.
  intros Hreadable. apply analyze_password_returns.
  now apply wordlist_readable_no_escape.
Qed.

(** [round(x, 2)] is a whole number of hundredths. *)
Lemma round2_hundredths (x : R) : exists z : Z, (round2 x * 100 = IZR z)%R.
Proof. exists (round_half_even (x * 100)). unfold round2. field. Qed.

Lemma round_half_even_near (x : R) :
  (- (1 / 2) <= IZR (round_half_even x) - x <= 1 / 2)%R /\
  ((0 <= x)%R -> 0 <= round_half_even x).
Proof.
  unfold round_half_even.
  pose proof (base_fp x) as [Hf0 Hf1]. pose proof (base_Int_part x) as [Hi0 Hi1].
  assert (Hx : x = (IZR (Int_part x) + frac_part x)%R) by (unfold frac_part; ring).
  assert (Hnonneg : (0 <= x)%R -> 0 <= Int_part x).
  { intros H0. assert (Hlt : (IZR (-1) < IZR (Int_part x))%R) by (simpl; lra).
    apply lt_IZR in Hlt. lia. }
  destruct (Rlt_dec (frac_part x) (1 / 2)) as [Hlo|Hlo].
  - split; [lra|assumption].
  - destruct (Rlt_dec (1 / 2) (frac_part x)) as [Hhi|Hhi].
    + split; [rewrite plus_IZR; lra|intros H0; specialize (Hnonneg H0); lia].
    + destruct (Z.even (Int_part x)).
      * split; [lra|assumption].
      * split; [rewrite plus_IZR; lra|intros H0; specialize (Hnonneg H0); lia].
Qed.

(** Half-way between two integers the even one is taken. *)
Lemma round_half_even_tie (x : R) :
  Rabs (IZR (round_half_even x) - x) = (1 / 2)%R ->
  Z.even (round_half_even x) = true.
Proof.
  unfold round_half_even.
  pose proof (base_fp x) as [Hf0 Hf1].
  assert (Hx : x = (IZR (Int_part x) + frac_part x)%R) by (unfold frac_part; ring).
  destruct (Rlt_dec (frac_part x) (1 / 2)) as [Hlo|Hlo].
  - intros Habs. exfalso.
    replace (IZR (Int_part x) - x)%R with (- frac_part x)%R in Habs by lra.
    rewrite Rabs_Ropp, Rabs_right in Habs by lra. lra.
  - destruct (Rlt_dec (1 / 2) (frac_part x)) as [Hhi|Hhi].
    + intros Habs. exfalso. rewrite plus_IZR in Habs.
      replace (IZR (Int_part x) + 1 - x)%R with (1 - frac_part x)%R in Habs by lra.
      rewrite Rabs_right in Habs by lra. lra.
    + destruct (Z.even (Int_part x)) eqn:He; [intros _; exact He|].
      intros _. rewrite Z.add_1_r, Z.even_succ, <- Z.negb_even, He. reflexivity.
Qed.

Lemma round2_near (x : R) :
  (Rabs (round2 x - x) <= 1 / 200)%R /\ ((0 <= x)%R -> (0 <= round2 x)%R).
Proof.
  destruct (round_half_even_near (x * 100)) as [Hnear Hpos]. unfold round2.
  split.
  - apply Rabs_le. lra.
  - intros H0. assert (H100 : (0 <= x * 100)%R) by lra.
    apply Hpos in H100. apply IZR_le in H100. lra.
Qed.

(** [round(x, 2)] rounds to two decimal places. *)
Lemma round2_rounded (x : R) : rounded_to_2_places x (round2 x).
Proof.
  exists (round_half_even (x * 100)). unfold round2.
  split; [reflexivity|]. split; [apply round2_near|].
  intros Htie. apply round_half_even_tie.
  replace (IZR (round_half_even (x * 100)) - x * 100)%R
    with ((IZR (round_half_even (x * 100)) / 100 - x) * 100)%R by field.
  rewrite Rabs_mult, Htie, (Rabs_right 100) by lra. lra.
Qed.

(** The estimate of [aab]: two thirds [a], one third [b]. *)
Lemma spec_entropy_aab : spec_entropy (lit "aab") = (3 * (ln 3 / ln 2) - 2)%R.
Proof.
  assert (Hln2 : (0 < ln 2)%R) by (rewrite <- ln_1; apply ln_increasing; lra).
  assert (Ha : probability (lit "aab") 97%N = (2 * / 3)%R).
  { unfold probability. change (occurrences (lit "aab") 97%N) with 2%nat.
    change (List.length (lit "aab")) with 3%nat. simpl. lra. }
  assert (Hb : probability (lit "aab") 98%N = (/ 3)%R).
  { unfold probability. change (occurrences (lit "aab") 98%N) with 1%nat.
    change (List.length (lit "aab")) with 3%nat. simpl. lra. }
  unfold spec_entropy, entropy_per_char.
  change (distinct_chars (lit "aab")) with [97%N; 98%N].
  change (List.length (lit "aab")) with 3%nat.
  cbn [map Rsum fold_right]. rewrite Ha, Hb. unfold plog2p.
  rewrite ln_mult, !ln_Rinv by lra.
  replace (INR 3) with 3%R by (simpl; lra).
  field. lra.
Qed.

(** No whole number of hundredths is the estimate of [aab]: that would make a
    power of 3 equal to a power of 2. *)
Lemma spec_entropy_aab_not_hundredths (z : Z) :
  (spec_entropy (lit "aab") * 100 <> IZR z)%R.
Proof.
  rewrite spec_entropy_aab. intros Hz.
  assert (Hln2 : (0 < ln 2)%R) by (rewrite <- ln_1; apply ln_increasing; lra).
  assert (Hln3 : (0 < ln 3)%R) by (rewrite <- ln_1; apply ln_increasing; lra).
  assert (Heq : (300 * ln 3 = IZR (z + 200) * ln 2)%R).
  { rewrite plus_IZR, <- Hz. field. lra. }
  assert (Hk : 0 < z + 200).
  { apply lt_IZR. apply (Rmult_lt_reg_r (ln 2)); [assumption|]. lra. }
  set (n := Z.to_nat (z + 200)).
  assert (Hn : IZR (z + 200) = INR n)
    by (unfold n; rewrite INR_IZR_INZ, Z2Nat.id by lia; reflexivity).
  rewrite Hn in Heq.
  replace 300%R with (INR 300) in Heq by (rewrite INR_IZR_INZ; reflexivity).
  rewrite <- !ln_pow in Heq by lra.
  apply ln_inv in Heq; [|apply pow_lt; lra|apply pow_lt; lra].
  rewrite !pow_IZR in Heq. apply eq_IZR in Heq.
  apply (f_equal Z.odd) in Heq.
  rewrite !Z.odd_pow in Heq by (unfold n; lia).
  discriminate Heq.
Qed.

(** C10. When the analysis returns a result, its field [entropy_bits] is the
    estimate of [shannon_entropy] rounded to two decimal places (a whole
    number of hundredths nearest to the estimate, the even one of two equally
    near), while its field [simple_score] is the score that [simple_score]
    computes from the estimate itself; the rounded and the unrounded value
    can differ, as they do for the password [aab]. The analysis returns a
    result when the wordlist is absent, missing or read to its end. *)
Theorem entropy_bits_rounded_score_unrounded (password : str)
    (wordlist : option str) (hibp verbose : bool) (w : world) :
  wordlist_readable (fs w) wordlist ->
  (exists out w' entropy bits score label,
     analyze_password password wordlist hibp verbose w = (Ok out, w') /\
     shannon_entropy password = Ok entropy /\
     dict_get out "entropy_bits" = Some (VFloat bits) /\
     rounded_to_2_places entropy bits /\
     simple_score password = Ok (score, label) /\
     score = score_rule (len password) (char_classes password) entropy /\
     dict_get out "simple_score" = Some (VInt score)) /\
  (exists (example : str) (entropy bits : R),
     shannon_entropy example = Ok entropy /\
     rounded_to_2_places entropy bits /\ bits <> entropy).
Proof.
  intros Hreadable. split.
  - destruct (analyze_password_readable password wordlist hibp verbose w Hreadable)
      as [out [Hrun [_ [_ [Hcore _]]]]].
    destruct Hcore as [entropy [score [label [He [Hs [Hr [Hb [Hsc _]]]]]]]].
    exists out. eexists. exists entropy, (round2 entropy), score, label.
    split; [exact Hrun|]. split; [exact He|]. split; [exact Hb|].
    split; [apply round2_rounded|]. repeat split; assumption.
  - exists (lit "aab"), (spec_entropy (lit "aab")), (round2 (spec_entropy (lit "aab"))).
    split; [apply shannon_entropy_spec|]. split; [apply round2_rounded|].
    intros Heq.
    destruct (round2_hundredths (spec_entropy (lit "aab"))) as [z Hz].
    rewrite Heq in Hz. exact (spec_entropy_aab_not_hundredths z Hz).
Qed.

End OrchestratorFacts.

Lemma entropy_bits_rounded_score_unrounded_witness :
  wordlist_readable (fs w_unavailable) (Some (lit "missing.txt")) /\
  exists out w' bits score,
    @analyze_password ascii_runtime ascii_casing pw_password
      (Some (lit "missing.txt")) true false w_unavailable = (Ok out, w') /\
    dict_get out "entropy_bits"%string = Some (VFloat bits) /\
    rounded_to_2_places (spec_entropy pw_password) bits /\
    dict_get out "simple_score"%string = Some (VInt score).
Proof.
  assert (Hreadable : wordlist_readable (fs w_unavailable) (Some (lit "missing.txt")))
    by exact I.
  split; [exact Hreadable|].
  destruct (@entropy_bits_rounded_score_unrounded ascii_runtime ascii_casing
              pw_password (Some (lit "missing.txt")) true false w_unavailable
              Hreadable)
    as [[out [w' [entropy [bits [score [label [Hrun [He [Hb [Hr [_ [_ Hs]]]]]]]]]]]] _].
  rewrite shannon_entropy_spec in He. injection He as <-.
  exists out, w', bits, score. repeat split; assumption.
Defined.

(** C6. The claim fails on [locked.txt], an existing file that the process
    cannot open: the wordlist check raises [PermissionError], the handler of
    [FileNotFoundError] does not take it, and [analyze_password] raises it
    instead of returning a result, whatever the other settings. *)
Theorem analyze_password_unreadable_wordlist_escapes (hibp verbose : bool) :
  os_path_isfile (fs w_locked) (lit "locked.txt") = true /\
  @analyze_password ascii_runtime ascii_casing pw_password
    (Some (lit "locked.txt")) hibp verbose w_locked
  = (Err (PermissionError (lit "locked.txt")), w_locked).
Proof.
  split; [reflexivity|].
  pose proof (@analyze_password_fields ascii_runtime ascii_casing pw_password
                (Some (lit "locked.txt")) hibp verbose w_locked) as Hrun.
  change (wordlist_escape (fs w_locked) pw_password (Some (lit "locked.txt")))
    with (Some (PermissionError (lit "locked.txt"))) in Hrun.
  exact Hrun.
Qed.

(** * Further properties of the code *)

(** ** Character classifier *)

Section ClassifierFacts.
Context {rt : Runtime}.

Lemma sum_bools_four (a b c d : bool) :
  sum_bools [a; b; c; d] = Z.b2z a + Z.b2z b + Z.b2z c + Z.b2z d.
Proof. reflexivity. Qed.

Lemma ascii_one_class (c : char) :
  (c < 128)%N ->
  Z.b2z (isupper c) + Z.b2z (islower c) + Z.b2z (isdigit c)
  + Z.b2z (negb (isalnum c)) = 1.
Proof.
  intros Hc. unfold isupper, islower, isdigit, isalnum, in_range.
  apply N.ltb_lt in Hc. rewrite Hc.
  destruct (N.leb_spec 65 c), (N.leb_spec c 90), (N.leb_spec 97 c),
    (N.leb_spec c 122), (N.leb_spec 48 c), (N.leb_spec c 57);
    simpl; try reflexivity; lia.
Qed.

Lemma any_incl {A : Type} (f : A -> bool) (s t : list A) :
  incl s t -> any f s = true -> any f t = true.
Proof.
  unfold any. rewrite !existsb_exists. intros Hincl [x [Hin Hx]].
  exists x. auto.
Qed.

(** X1. An ASCII character is in exactly one of the four classes (upper-case
    letter, lower-case letter, digit, special); so a non-empty password of
    ASCII characters has between one and four class flags, and any password
    between none and four. *)
Theorem ascii_password_has_a_class (s : str) :
  Forall (fun c => (c < 128)%N) s ->
  (forall c, In c s ->
     Z.b2z (isupper c) + Z.b2z (islower c) + Z.b2z (isdigit c)
     + Z.b2z (negb (isalnum c)) = 1) /\
  0 <= classCount s <= 4 /\
  (s <> [] -> 1 <= classCount s).
Proof.
  intros Hascii. rewrite Forall_forall in Hascii.
  split; [intros c Hc; apply ascii_one_class; auto|].
  unfold classCount, char_classes. rewrite sum_bools_four.
  split.
  - destruct (any isupper s), (any islower s), (any isdigit s),
      (any (fun c => negb (isalnum c)) s); simpl; lia.
  - intros Hs. destruct s as [|c s]; [contradiction|].
    pose proof (ascii_one_class c (Hascii c (or_introl eq_refl))) as Hone.
    unfold any. cbn [existsb].
    destruct (isupper c), (islower c), (isdigit c), (negb (isalnum c));
      simpl in Hone; try lia; cbn [orb];
      destruct (existsb isupper s), (existsb islower s), (existsb isdigit s),
        (existsb (fun c => negb (isalnum c)) s); simpl; lia.
Qed.

(** X2. The class flags depend on the set of characters of the password only:
    when every character of [s] occurs in [t], every flag of [s] is a flag of
    [t] and [t] has at least as many classes; two passwords with the same
    characters have the same flags, whatever the order and the repetitions. *)
Theorem char_classes_by_character_set (s t : str) :
  incl s t ->
  (let '(u, l, d, x) := char_classes s in
   let '(u', l', d', x') := char_classes t in
   (u = true -> u' = true) /\ (l = true -> l' = true) /\
   (d = true -> d' = true) /\ (x = true -> x' = true)) /\
  classCount s <= classCount t /\
  (incl t s -> char_classes s = char_classes t).
Proof.
  intros Hst. unfold classCount, char_classes. rewrite !sum_bools_four.
  pose proof (any_incl isupper s t Hst) as Hu.
  pose proof (any_incl islower s t Hst) as Hl.
  pose proof (any_incl isdigit s t Hst) as Hd.
  pose proof (any_incl (fun c => negb (isalnum c)) s t Hst) as Hx.
  split; [auto|]. split.
  - destruct (any isupper s), (any islower s), (any isdigit s),
      (any (fun c => negb (isalnum c)) s);
      try rewrite (Hu eq_refl); try rewrite (Hl eq_refl);
      try rewrite (Hd eq_refl); try rewrite (Hx eq_refl);
      destruct (any isupper t), (any islower t), (any isdigit t),
        (any (fun c => negb (isalnum c)) t); simpl; lia.
  - intros Hts.
    pose proof (any_incl isupper t s Hts) as Hu'.
    pose proof (any_incl islower t s Hts) as Hl'.
    pose proof (any_incl isdigit t s Hts) as Hd'.
    pose proof (any_incl (fun c => negb (isalnum c)) t s Hts) as Hx'.
    assert (Eu : any isupper s = any isupper t)
      by (apply eq_true_iff_eq; split; auto).
    assert (El : any islower s = any islower t)
      by (apply eq_true_iff_eq; split; auto).
    assert (Ed : any isdigit s = any isdigit t)
      by (apply eq_true_iff_eq; split; auto).
    assert (Ex : any (fun c => negb (isalnum c)) s
                 = any (fun c => negb (isalnum c)) t)
      by (apply eq_true_iff_eq; split; auto).
    now rewrite Eu, El, Ed, Ex.
Qed.

End ClassifierFacts.

Lemma ascii_password_has_a_class_witness :
  Forall (fun c => (c < 128)%N) (lit "Ab3!") /\
  1 <= @classCount ascii_runtime (lit "Ab3!").
Proof.
  assert (Hascii : Forall (fun c => (c < 128)%N) (lit "Ab3!"))
    by (repeat constructor).
  split; [exact Hascii|].
  apply (@ascii_password_has_a_class ascii_runtime (lit "Ab3!") Hascii).
  discriminate.
Defined.

Lemma char_classes_by_character_set_witness :
  incl (lit "ab1") (lit "1ba!ab") /\
  @classCount ascii_runtime (lit "ab1") <= @classCount ascii_runtime (lit "1ba!ab").
Proof.
  assert (Hincl : incl (lit "ab1") (lit "1ba!ab")).
  { intros c Hc. vm_compute in Hc. vm_compute.
    destruct Hc as [<-|[<-|[<-|[]]]]; auto 10. }
  split; [exact Hincl|].
  apply (@char_classes_by_character_set ascii_runtime _ _ Hincl).
Defined.

(** ** Entropy estimator *)

Section EntropyBounds.
Context {rt : Runtime}.

Lemma occurrences_cons (a : char) (s : str) (l : list char) :
  list_sum (map (occurrences (a :: s)) l)
  = (list_sum (map (occurrences s) l) + count_occ N.eq_dec l a)%nat.
Proof.
  unfold occurrences. induction l as [|c l IH]; [reflexivity|].
  cbn [map list_sum fold_right]. fold (list_sum (map (fun c0 => count_occ N.eq_dec (a :: s) c0) l)).
  fold (list_sum (map (fun c0 => count_occ N.eq_dec s c0) l)). rewrite IH. cbn [count_occ].
  destruct (N.eq_dec a c) as [Hac|Hac]; destruct (N.eq_dec c a) as [Hca|Hca];
    try congruence; lia.
Qed.

(** Over a duplicate-free list that holds every character of [s], the counts
    of the characters add up to the length of [s]. *)
Lemma occurrences_sum (s : str) (l : list char) :
  NoDup l -> incl s l -> list_sum (map (occurrences s) l) = List.length s.
Proof.
  intros Hnd. induction s as [|a s IH]; intros Hincl.
  - clear Hnd Hincl. induction l as [|c l IHl]; [reflexivity|].
    cbn [map list_sum fold_right].
    fold (list_sum (map (occurrences []) l)). now rewrite IHl.
  - rewrite occurrences_cons, IH by (intros x Hx; apply Hincl; now right).
    assert (Hin : In a l) by (apply Hincl; now left).
    rewrite (proj1 (NoDup_count_occ' N.eq_dec l) Hnd a Hin). simpl. lia.
Qed.

Lemma Rsum_scaled_counts (s : str) (l : list char) :
  Rsum (map (probability s) l)
  = (INR (list_sum (map (occurrences s) l)) / INR (List.length s))%R.
Proof.
  unfold probability. induction l as [|c l IH]; simpl.
  - unfold Rdiv. now rewrite Rmult_0_l.
  - rewrite IH, plus_INR. unfold Rdiv. ring.
Qed.

(** The probabilities of the distinct characters add up to 1. *)
Lemma probability_sum (s : str) :
  s <> [] -> Rsum (map (probability s) (distinct_chars s)) = 1%R.
Proof.
  intros Hs. rewrite Rsum_scaled_counts, occurrences_sum.
  - apply Rinv_r. apply not_0_INR. destruct s; [contradiction|discriminate].
  - apply NoDup_nodup.
  - intros c Hc. unfold distinct_chars. now apply nodup_In.
Qed.

Lemma ln2_pos : (0 < ln 2)%R.
Proof. rewrite <- ln_1. apply ln_increasing; lra. Qed.

Lemma ln_le_compat (x y : R) : (0 < x)%R -> (x <= y)%R -> (ln x <= ln y)%R.
Proof.
  intros Hx [Hlt| ->]; [|lra]. left. now apply ln_increasing.
Qed.

(** One term of the sum: [- p * log2 p <= p * log2 n] when [p >= 1/n]. *)
Lemma plog2p_lower (s : str) (c : char) :
  In c s ->
  (- plog2p (probability s c)
   <= probability s c * (ln (INR (List.length s)) / ln 2))%R.
Proof.
  intros Hin. pose proof ln2_pos as Hln2.
  pose proof (probability_pos s c Hin) as Hp.
  assert (Hn : (0 < INR (List.length s))%R)
    by (apply lt_0_INR; destruct s; [contradiction|simpl; lia]).
  assert (Hk : (1 <= INR (occurrences s c))%R).
  { change 1%R with (INR 1). apply le_INR. now apply occurrences_pos. }
  assert (Hlow : (/ INR (List.length s) <= probability s c)%R).
  { unfold probability, Rdiv.
    rewrite <- (Rmult_1_l (/ INR (List.length s))) at 1.
    apply Rmult_le_compat_r; [left; now apply Rinv_0_lt_compat|assumption]. }
  assert (Hln : (- ln (INR (List.length s)) <= ln (probability s c))%R).
  { rewrite <- ln_Rinv by assumption. apply ln_le_compat; [|assumption].
    now apply Rinv_0_lt_compat. }
  unfold plog2p, Rdiv.
  assert (Hinv : (0 < / ln 2)%R) by now apply Rinv_0_lt_compat.
  assert (Hq : (- (ln (probability s c) * / ln 2)
                <= ln (INR (List.length s)) * / ln 2)%R) by nra.
  nra.
Qed.

Lemma Rsum_le (A : Type) (f g : A -> R) (l : list A) :
  (forall x, In x l -> (f x <= g x)%R) ->
  (Rsum (map f l) <= Rsum (map g l))%R.
Proof.
  induction l as [|x l IH]; intros Hl; simpl; [lra|].
  assert (f x <= g x)%R by (apply Hl; now left).
  assert (Rsum (map f l) <= Rsum (map g l))%R
    by (apply IH; intros y Hy; apply Hl; now right).
  lra.
Qed.

Lemma Rsum_opp (A : Type) (f : A -> R) (l : list A) :
  Rsum (map (fun x => - f x)%R l) = (- Rsum (map f l))%R.
Proof. induction l as [|x l IH]; simpl; [lra|]. rewrite IH. lra. Qed.

Lemma Rsum_scal (A : Type) (f : A -> R) (k : R) (l : list A) :
  Rsum (map (fun x => f x * k)%R l) = (Rsum (map f l) * k)%R.
Proof. induction l as [|x l IH]; simpl; [lra|]. rewrite IH. lra. Qed.

(** The estimate of a string of [n] characters is at most [n * log2 n]. *)
Lemma spec_entropy_upper (s : str) :
  s <> [] ->
  (spec_entropy s
   <= INR (List.length s) * (ln (INR (List.length s)) / ln 2))%R.
Proof.
  intros Hs. unfold spec_entropy, entropy_per_char.
  rewrite <- Rsum_opp.
  assert (Hsum : (Rsum (map (fun c => - plog2p (probability s c)) (distinct_chars s))
                  <= ln (INR (List.length s)) / ln 2)%R).
  { eapply Rle_trans.
    - apply (Rsum_le _ _ (fun c => probability s c
                                   * (ln (INR (List.length s)) / ln 2))%R).
      intros c Hc. apply plog2p_lower. unfold distinct_chars in Hc.
      now apply nodup_In in Hc.
    - rewrite Rsum_scal, probability_sum by assumption. lra. }
  assert (Hn : (0 <= INR (List.length s))%R) by apply pos_INR.
  nra.
Qed.

End EntropyBounds.

Section EntropyEdges.
Context {rt : Runtime}.

Lemma occurrences_all_equal (s : str) (c : char) :
  (forall d, In d s -> d = c) -> occurrences s c = List.length s.
Proof.
  unfold occurrences. induction s as [|a s IH]; intros Hall; [reflexivity|].
  cbn [count_occ List.length].
  destruct (N.eq_dec a c) as [_|Hne];
    [|exfalso; apply Hne, Hall; now left].
  f_equal. apply IH. intros d Hd. apply Hall. now right.
Qed.

Lemma occurrences_two (s : str) (c d : char) :
  c <> d -> (occurrences s c + occurrences s d <= List.length s)%nat.
Proof.
  intros Hne. unfold occurrences. induction s as [|a s IH]; [simpl; lia|].
  cbn [count_occ List.length].
  destruct (N.eq_dec a c), (N.eq_dec a d); try congruence; lia.
Qed.

Lemma Rsum_nonpos_zero (l : list R) :
  (forall x, In x l -> (x <= 0)%R) -> Rsum l = 0%R ->
  forall x, In x l -> x = 0%R.
Proof.
  induction l as [|y l IH]; intros Hl Hsum x Hx; [contradiction|].
  simpl in Hsum.
  assert (Hy : (y <= 0)%R) by (apply Hl; now left).
  assert (Hrest : (Rsum l <= 0)%R)
    by (apply Rsum_nonpos; intros z Hz; apply Hl; now right).
  destruct Hx as [<-|Hx]; [lra|].
  apply IH; [intros z Hz; apply Hl; now right|lra|assumption].
Qed.

(** X3. The estimate is 0 exactly when the password has at most one distinct
    character (the empty password included); any password with two different
    characters has a positive estimate. *)
Theorem entropy_zero_iff_one_character (s : str) :
  exists h,
    shannon_entropy s = Ok h /\
    (h = 0%R <-> forall c d, In c s -> In d s -> c = d) /\
    ((exists c d, In c s /\ In d s /\ c <> d) -> (0 < h)%R).
Proof.
  exists (spec_entropy s). split; [apply shannon_entropy_spec|].
  assert (Hiff : spec_entropy s = 0%R <-> forall c d, In c s -> In d s -> c = d).
  { split.
    - intros Hzero c d Hc Hd.
      assert (Hn : (0 < INR (List.length s))%R)
        by (apply lt_0_INR; destruct s; [contradiction|simpl; lia]).
      unfold spec_entropy, entropy_per_char in Hzero.
      assert (Hsum : Rsum (map (fun c => plog2p (probability s c))
                             (distinct_chars s)) = 0%R) by nra.
      assert (Hnonpos : forall t,
                 In t (map (fun c => plog2p (probability s c)) (distinct_chars s)) ->
                 (t <= 0)%R).
      { intros t Ht. apply in_map_iff in Ht. destruct Ht as [x [<- Hx]].
        unfold distinct_chars in Hx. apply nodup_In in Hx.
        apply plog2p_nonpos.
        split; [now apply probability_pos|now apply probability_le_1]. }
      assert (Hone : forall x, In x s -> occurrences s x = List.length s).
      { intros x Hx.
        assert (Hterm : plog2p (probability s x) = 0%R).
        { apply (Rsum_nonpos_zero _ Hnonpos Hsum).
          apply (in_map (fun c => plog2p (probability s c))).
          unfold distinct_chars. now apply nodup_In. }
        pose proof (probability_pos s x Hx) as Hp. pose proof ln2_pos as Hln2.
        unfold plog2p, Rdiv in Hterm.
        assert (Hinv : (0 < / ln 2)%R) by now apply Rinv_0_lt_compat.
        assert (Hln : ln (probability s x) = 0%R).
        { apply Rmult_integral in Hterm. destruct Hterm as [Hterm|Hterm]; [lra|].
          apply Rmult_integral in Hterm. destruct Hterm; [assumption|lra]. }
        rewrite <- ln_1 in Hln. apply ln_inv in Hln; [|assumption|lra].
        unfold probability in Hln.
        apply (Rmult_eq_compat_r (INR (List.length s))) in Hln.
        unfold Rdiv in Hln. rewrite Rmult_assoc, Rinv_l, Rmult_1_r, Rmult_1_l in Hln
          by lra.
        now apply INR_eq. }
      destruct (N.eq_dec c d) as [|Hne]; [assumption|exfalso].
      pose proof (occurrences_two s c d Hne) as Htwo.
      rewrite (Hone c Hc), (Hone d Hd) in Htwo.
      destruct s; [contradiction|simpl in Htwo; lia].
    - intros Hsame. unfold spec_entropy, entropy_per_char.
      destruct s as [|a s]; [simpl; lra|].
      assert (Hterms : forall x, In x (map (fun c => plog2p (probability (a :: s) c))
                                          (distinct_chars (a :: s))) -> x = 0%R).
      { intros x Hx. apply in_map_iff in Hx. destruct Hx as [c [<- Hc]].
        unfold distinct_chars in Hc. apply nodup_In in Hc.
        unfold probability.
        rewrite (occurrences_all_equal (a :: s) c)
          by (intros d Hd; now apply Hsame).
        replace (INR (List.length (a :: s)) / INR (List.length (a :: s)))%R
          with 1%R by (field; apply not_0_INR; discriminate).
        unfold plog2p. rewrite ln_1. unfold Rdiv. ring. }
      assert (Hsum : Rsum (map (fun c => plog2p (probability (a :: s) c))
                             (distinct_chars (a :: s))) = 0%R).
      { revert Hterms. generalize (map (fun c => plog2p (probability (a :: s) c))
                                      (distinct_chars (a :: s))).
        intros l Hl. induction l as [|y l IHl]; [reflexivity|].
        simpl. rewrite (Hl y (or_introl eq_refl)), IHl; [lra|].
        intros z Hz. apply Hl. now right. }
      rewrite Hsum. ring. }
  split; [exact Hiff|].
  intros [c [d [Hc [Hd Hne]]]].
  pose proof (spec_entropy_nonneg s) as Hge.
  destruct Hge as [Hpos|Hzero]; [assumption|].
  exfalso. apply Hne. symmetry in Hzero. exact (proj1 Hiff Hzero c d Hc Hd).
Qed.

(** A password of at most eleven characters has an estimate below 40. *)
Lemma short_entropy_below_40 (s : str) :
  (List.length s <= 11)%nat -> (spec_entropy s < 40)%R.
Proof.
  intros Hlen. destruct s as [|a s0] eqn:Hs.
  - unfold spec_entropy, entropy_per_char. simpl. lra.
  - rewrite <- Hs in *. assert (Hne : s <> []) by (subst; discriminate).
    eapply Rle_lt_trans; [apply spec_entropy_upper; assumption|].
    pose proof ln2_pos as Hln2.
    assert (Hn1 : (1 <= INR (List.length s))%R).
    { change 1%R with (INR 1). apply le_INR. subst; simpl; lia. }
    assert (Hn11 : (INR (List.length s) <= 11)%R).
    { replace 11%R with (INR 11) by (rewrite INR_IZR_INZ; reflexivity).
      now apply le_INR. }
    assert (Hln0 : (0 <= ln (INR (List.length s)))%R)
      by (rewrite <- ln_1; apply ln_le_compat; lra).
    assert (Hln11 : (ln (INR (List.length s)) <= ln 11)%R)
      by (apply ln_le_compat; lra).
    assert (Hnum : (11 * ln 11 < 40 * ln 2)%R).
    { replace 11%R with (INR 11) at 1 by (rewrite INR_IZR_INZ; reflexivity).
      replace 40%R with (INR 40) by (rewrite INR_IZR_INZ; reflexivity).
      rewrite <- !ln_pow by lra. apply ln_increasing; [apply pow_lt; lra|].
      rewrite !pow_IZR. apply IZR_lt. reflexivity. }
    assert (Hprod : (INR (List.length s) * ln (INR (List.length s))
                     <= 11 * ln 11)%R) by nra.
    unfold Rdiv. assert (Hinv : (0 < / ln 2)%R) by now apply Rinv_0_lt_compat.
    apply (Rmult_lt_reg_r (ln 2)); [assumption|].
    replace (INR (List.length s) * (ln (INR (List.length s)) * / ln 2) * ln 2)%R
      with (INR (List.length s) * ln (INR (List.length s)))%R by (field; lra).
    lra.
Qed.

End EntropyEdges.

(** ** Composite scorer *)

Section ScoreBounds.
Context {rt : Runtime}.

Lemma entropy_point_length (password : str) :
  Rgeb (spec_entropy password) 40 = true -> 12 <= len password.
Proof.
  intros Hge. apply Rgeb_true_iff in Hge. unfold len.
  destruct (Nat.le_gt_cases (List.length password) 11) as [Hshort|Hlong]; [|lia].
  pose proof (short_entropy_below_40 password Hshort). lra.
Qed.

(** X4. The point for entropy is only ever given to passwords of at least
    twelve characters, so it comes on top of both length points and the class
    point: the score is 4, and the label [Very strong], exactly when the
    password has at least three classes and an estimate of at least 40. *)
Theorem very_strong_iff_entropy_point (password : str) :
  exists entropy score label,
    shannon_entropy password = Ok entropy /\
    simple_score password = Ok (score, label) /\
    ((entropy >= 40)%R -> 12 <= len password) /\
    (score = 4 <-> 3 <= classCount password /\ (entropy >= 40)%R) /\
    (label = lit "Very strong" <-> score = 4).
Proof.
  destruct (simple_score_value password) as [label [Hs [Hr Hl]]].
  exists (spec_entropy password). eexists. exists label.
  split; [apply shannon_entropy_spec|]. split; [exact Hs|].
  pose proof (entropy_point_length password) as Hlen.
  rewrite <- (Rgeb_true_iff (spec_entropy password) 40).
  split; [exact Hlen|]. split.
  - clear Hs Hl Hr. rewrite !Z.geb_leb.
    destruct (Rgeb (spec_entropy password) 40);
      destruct (Z.leb_spec 8 (len password)), (Z.leb_spec 12 (len password)),
        (Z.leb_spec 2 (classCount password)), (Z.leb_spec 3 (classCount password));
      cbn [Z.b2z andb]; try specialize (Hlen eq_refl);
      split; try lia; try (intros [_ Hd]; discriminate Hd);
      try (intros _; split; [lia|reflexivity]).
  - simpl in Hl. decompose [or] Hl; try contradiction;
      match goal with H : (_, _) = (_, _) |- _ => injection H as <- <- end;
      split; intros Heq; try reflexivity; try discriminate Heq.
Qed.

(** X5. Short or uniform passwords are capped: fewer than eight characters
    give a score of at most 1, fewer than twelve a score of at most 2, and
    fewer than two classes a score of at most 2. *)
Theorem short_password_score_cap (password : str) :
  exists score label,
    simple_score password = Ok (score, label) /\
    (len password < 8 -> score <= 1) /\
    (len password < 12 -> score <= 2) /\
    (classCount password < 2 -> score <= 2).
Proof.
  destruct (simple_score_value password) as [label [Hs _]].
  eexists. exists label. split; [exact Hs|].
  pose proof (entropy_point_length password) as Hlen.
  rewrite !Z.geb_leb.
  destruct (Rgeb (spec_entropy password) 40);
    destruct (Z.leb_spec 8 (len password)), (Z.leb_spec 12 (len password)),
      (Z.leb_spec 2 (classCount password)), (Z.leb_spec 3 (classCount password));
    cbn [Z.b2z andb]; try specialize (Hlen eq_refl); repeat split; lia.
Qed.

Lemma Rgeb_mono (x y k : R) : (x <= y)%R -> Rgeb x k = true -> Rgeb y k = true.
Proof. rewrite !Rgeb_true_iff. lra. Qed.

(** X6. The score never decreases when the length grows, a class flag is
    switched on, or the entropy estimate grows. *)
Theorem score_rule_monotone (a b : Z) (u l d x u' l' d' x' : bool)
    (entropy entropy' : R) :
  a <= b ->
  (u = true -> u' = true) -> (l = true -> l' = true) ->
  (d = true -> d' = true) -> (x = true -> x' = true) ->
  (entropy <= entropy')%R ->
  score_rule a (u, l, d, x) entropy <= score_rule b (u', l', d', x') entropy'.
Proof.
  intros Hab Hu Hl Hd Hx He. unfold score_rule. rewrite !sum_bools_four, !Z.geb_leb.
  pose proof (Rgeb_mono entropy entropy' 40 He) as Hg.
  assert (Hsum : Z.b2z u + Z.b2z l + Z.b2z d + Z.b2z x
                 <= Z.b2z u' + Z.b2z l' + Z.b2z d' + Z.b2z x').
  { destruct u, l, d, x;
      try rewrite (Hu eq_refl); try rewrite (Hl eq_refl);
      try rewrite (Hd eq_refl); try rewrite (Hx eq_refl);
      destruct u', l', d', x'; simpl; lia. }
  generalize dependent (Z.b2z u + Z.b2z l + Z.b2z d + Z.b2z x).
  generalize (Z.b2z u' + Z.b2z l' + Z.b2z d' + Z.b2z x').
  intros n' n Hn.
  destruct (Rgeb entropy 40); [rewrite (Hg eq_refl)|destruct (Rgeb entropy' 40)];
    destruct (Z.leb_spec 8 a), (Z.leb_spec 8 b), (Z.leb_spec 12 a),
      (Z.leb_spec 12 b), (Z.leb_spec 2 n), (Z.leb_spec 2 n'),
      (Z.leb_spec 3 n), (Z.leb_spec 3 n'); cbn [andb]; lia.
Qed.

End ScoreBounds.

Lemma score_rule_monotone_witness :
  7 <= 12 /\ (10 <= 45)%R /\
  score_rule 7 (true, false, false, false) 10
  <= score_rule 12 (true, true, true, false) 45.
Proof.
  split; [lia|]. split; [lra|].
  apply score_rule_monotone; try lia; try (intros; reflexivity); try lra.
Defined.

(** ** Wordlist matcher *)

Lemma universal_newlines_no_CR_upto (n : nat) (s : str) :
  (List.length s <= n)%nat -> ~ In CR (universal_newlines s).
Proof.
  revert s. induction n as [|n IH]; intros s Hlen.
  - destruct s; [intros []|simpl in Hlen; lia].
  - destruct s as [|c rest]; [intros []|]. simpl in Hlen. cbn [universal_newlines].
    destruct (N.eqb_spec c CR) as [->|Hne].
    + destruct rest as [|c' rest'].
      * intros [Heq|[]]. discriminate Heq.
      * simpl in Hlen. destruct (c' =? LF)%N; intros [Heq|Hin];
          try discriminate Heq; revert Hin; apply IH; simpl; lia.
    + intros [Heq|Hin]; [congruence|]. revert Hin. apply IH. lia.
Qed.

(** After the translation of line endings the text holds no CR. *)
Lemma universal_newlines_no_CR (s : str) : ~ In CR (universal_newlines s).
Proof. apply (universal_newlines_no_CR_upto (List.length s)). lia. Qed.

(** Each line is a stretch of the text without LF, followed by LF except
    possibly for the last one. *)
Lemma lines_of_shape (s cur line : str) :
  ~ In LF cur -> In line (lines_of s cur) ->
  exists body,
    ~ In LF body /\ (line = body ++ [LF] \/ line = body) /\
    (forall c, In c body -> In c cur \/ In c s).
Proof.
  revert cur. induction s as [|c rest IH]; intros cur Hcur Hin.
  - simpl in Hin. destruct cur as [|x cur]; [contradiction|].
    destruct Hin as [<-|[]]. exists (rev (x :: cur)).
    split; [now rewrite <- in_rev|]. split; [now right|].
    intros c Hc. left. now apply in_rev.
  - cbn [lines_of] in Hin. destruct (N.eqb_spec c LF) as [->|Hne].
    + destruct Hin as [<-|Hin].
      * exists (rev cur). split; [now rewrite <- in_rev|].
        split; [now left|]. intros c Hc. left. now apply in_rev.
      * destruct (IH [] (fun H => H) Hin) as [body [Hb [Hl Hc]]].
        exists body. split; [assumption|]. split; [assumption|].
        intros c Hcb. destruct (Hc c Hcb) as [[]|Hr]. right. now right.
    + assert (Hcur' : ~ In LF (c :: cur)) by (intros [Heq|Hi]; congruence).
      destruct (IH (c :: cur) Hcur' Hin) as [body [Hb [Hl Hc]]].
      exists body. split; [assumption|]. split; [assumption|].
      intros x Hx. destruct (Hc x Hx) as [[<-|Hi]|Hr]; auto.
      * right. now left.
      * right. now right.
Qed.

(** What the matcher compares the password with: a line of the file without
    its line ending holds neither CR nor LF. *)
Lemma stripped_line_clean (content line : str) :
  In line (lines_of (universal_newlines content) []) ->
  no_line_break (rstrip [CR; LF] line).
Proof.
  intros Hin.
  destruct (lines_of_shape _ [] line (fun H => H) Hin) as [body [Hlf [Hl Hc]]].
  assert (Hclean : no_line_break body).
  { split; [|assumption]. intros Hcr.
    destruct (Hc _ Hcr) as [[]|Hu]. exact (universal_newlines_no_CR content Hu). }
  destruct Hl as [-> | ->].
  - rewrite rstrip_app_mem by reflexivity. now rewrite rstrip_CRLF_clean.
  - now rewrite rstrip_CRLF_clean.
Qed.

(** X7. A line of the wordlist, once read and stripped, holds neither CR nor
    LF; so on a file that reads to its end a password that still holds a CR
    or an LF after its trailing LFs are removed (for instance one ending in
    CR) is reported as not found, whatever the file contains. *)
Theorem password_with_line_break_never_found (fs : filesystem) (P R content : str) :
  fs R = Some (Readable content) ->
  (forall line, In line (lines_of (universal_newlines content) []) ->
                no_line_break (rstrip [CR; LF] line)) /\
  (In CR (rstrip [LF] P) \/ In LF (rstrip [LF] P) ->
   check_local_wordlist fs P R = Ok false).
Proof.
  intros Hfs. split; [intros line; apply stripped_line_clean|].
  intros Hbreak. rewrite (check_local_wordlist_file_verdict fs P R content Hfs).
  f_equal.
  destruct (existsb _ _) eqn:Hfound; [|reflexivity].
  apply existsb_exists in Hfound. destruct Hfound as [line [Hin Heq]].
  destruct (str_eqb_spec (rstrip [CR; LF] line) (rstrip [LF] P)) as [He|];
    [|discriminate Heq].
  pose proof (stripped_line_clean content line Hin) as [Hcr Hlf].
  rewrite He in Hcr, Hlf. tauto.
Qed.

Lemma password_with_line_break_never_found_witness :
  single_file (lit "w.txt") (Readable [97; 98; 99; 13; 10]%N) (lit "w.txt")
    = Some (Readable [97; 98; 99; 13; 10]%N) /\
  In CR (rstrip [LF] [97; 98; 99; 13]%N) /\
  check_local_wordlist (single_file (lit "w.txt") (Readable [97; 98; 99; 13; 10]%N))
    [97; 98; 99; 13]%N (lit "w.txt") = Ok false.
Proof.
  split; [reflexivity|]. split; [vm_compute; auto|].
  apply (password_with_line_break_never_found _ _ _ [97; 98; 99; 13; 10]%N);
    [reflexivity|]. left. vm_compute. auto.
Defined.

(** X8. Writing words (without CR and LF) one per line, with Unix or with
    Windows line endings, and looking a password up in that file, which reads
    to its end, is a membership test: the password, its trailing LFs removed,
    is found exactly when it is one of the words. *)
Theorem wordlist_round_trip (fs : filesystem) (P R eol : str) (words : list str) :
  eol = [LF] \/ eol = [CR; LF] ->
  Forall no_line_break words ->
  fs R = Some (Readable (wordlist_text eol words)) ->
  exists found,
    check_local_wordlist fs P R = Ok found /\
    (found = true <-> In (rstrip [LF] P) words).
Proof.
  intros Heol Hwords Hfs.
  rewrite (check_local_wordlist_file_verdict fs P R _ Hfs).
  rewrite wordlist_text_lines, wordlist_loop_words by assumption.
  eexists. split; [reflexivity|]. apply existsb_str_eqb.
Qed.

Lemma wordlist_round_trip_witness :
  Forall no_line_break [lit "123456"; lit "qwerty"] /\
  single_file (lit "w.txt")
    (Readable (wordlist_text [CR; LF] [lit "123456"; lit "qwerty"])) (lit "w.txt")
  = Some (Readable (wordlist_text [CR; LF] [lit "123456"; lit "qwerty"])) /\
  exists found,
    check_local_wordlist
      (single_file (lit "w.txt")
         (Readable (wordlist_text [CR; LF] [lit "123456"; lit "qwerty"])))
      (lit "qwerty") (lit "w.txt") = Ok found /\
    (found = true <-> In (rstrip [LF] (lit "qwerty")) [lit "123456"; lit "qwerty"]).
Proof.
  assert (Hwords : Forall no_line_break [lit "123456"; lit "qwerty"]).
  { repeat constructor; intros Hin; vm_compute in Hin;
      repeat (destruct Hin as [Hin|Hin]; [discriminate Hin|]); exact Hin. }
  split; [exact Hwords|]. split; [reflexivity|].
  apply (wordlist_round_trip _ _ _ [CR; LF]); [now right|exact Hwords|reflexivity].
Defined.

(** ** Installing an optional package *)

Example strip_lower_answer :
  @lower ascii_casing (strip (lit "  YeS ")) = lit "yes".
Proof. reflexivity. Qed.

Section EnsurePackageFacts.
Context {cs : Casing} {module : Type}.

Lemma app_one_neq {A : Type} (l : list A) (x : A) : l ++ [x] <> l.
Proof.
  intros Heq. apply (f_equal (@List.length A)) in Heq.
  rewrite length_app in Heq. simpl in Heq. lia.
Qed.

(** The outcomes of [ensure_package], by what the import gives and what the
    user answers. *)
Lemma ensure_package_cases (package_name : str) (import_name : option str)
    (sh : shell module) :
  let name := match import_name with
              | Some ((_ :: _) as name) => name
              | _ => package_name
              end in
  let r := fst (ensure_package package_name import_name sh) in
  let sh' := snd (ensure_package package_name import_name sh) in
  (forall m, import_module sh (commands sh) name = Imported m ->
             r = Ok (Some m) /\ sh' = sh) /\
  (commands sh' <> commands sh <-> consents package_name import_name sh) /\
  (consents package_name import_name sh ->
   commands sh' = commands sh ++ [pip_install_argv sh package_name]) /\
  (r = Ok None <-> declines package_name import_name sh) /\
  (r = Ok None -> commands sh' = commands sh).
Proof.
  cbv zeta. unfold consents, declines, ensure_package, input, run, write.
  set (name := match import_name with
               | Some ((_ :: _) as name) => name
               | _ => package_name
               end).
  destruct (import_module sh (commands sh) name) as [m|e|e] eqn:Himp.
  - cbn [fst snd]. split; [intros m' [= <-]; split; reflexivity|].
    split; [split; [intros H; now contradiction H|intros [[e He] _]; discriminate He]|].
    split; [intros [[e He] _]; discriminate He|].
    split; [split; [discriminate|intros [[e He] _]; discriminate He]|reflexivity].
  - cbn [stdin]. destruct (stdin sh) as [|answer rest] eqn:Hin.
    + cbn [fst snd commands]. split; [discriminate|].
      split; [split; [intros H; now contradiction H
                     |intros [_ [a [r [Ha _]]]]; discriminate Ha]|].
      split; [intros [_ [a [r [Ha _]]]]; discriminate Ha|].
      split; [split; [discriminate|intros [_ [a [r [Ha _]]]]; discriminate Ha]
             |reflexivity].
    + destruct (is_yes (lower (strip answer))) eqn:Hyes.
      * cbn [commands sys_executable check_call stdout stdin import_module].
        assert (Hcons : (exists e0, ImportFailed e = @ImportFailed module e0) /\
                        exists a r, answer :: rest = a :: r
                                    /\ is_yes (lower (strip a)) = true)
          by (split; [eauto|exists answer, rest; auto]).
        assert (Hnot : ~ exists a r, answer :: rest = a :: r
                                     /\ is_yes (lower (strip a)) = false)
          by (intros [a [r [[= <- <-] Ha]]]; congruence).
        unfold pip_install_argv. cbn [sys_executable].
        destruct (check_call sh _) as [[]|e1];
          [destruct (import_module sh (commands sh ++ _) name) as [m|e2|e2]|];
          cbn [fst snd commands];
          (split; [discriminate|]);
          (split; [split; [intros _; exact Hcons|intros _; apply app_one_neq]|]);
          (split; [intros _; reflexivity|]);
          (split; [split; [discriminate|intros [_ Hd]; contradiction]|discriminate]).
      * cbn [fst snd commands].
        split; [discriminate|].
        split; [split; [intros H; now contradiction H
                       |intros [_ [a [r [[= <- <-] Ha]]]]; congruence]|].
        split; [intros [_ [a [r [[= <- <-] Ha]]]]; congruence|].
        split; [|reflexivity]. split; [intros _|reflexivity].
        split; [eauto|exists answer, rest; auto].
  - cbn [fst snd]. split; [discriminate|].
    split; [split; [intros H; now contradiction H|intros [[e0 He] _]; discriminate He]|].
    split; [intros [[e0 He] _]; discriminate He|].
    split; [split; [discriminate|intros [[e0 He] _]; discriminate He]|reflexivity].
Qed.

Ltac shell_done used ran :=
  cbn [snd stdin commands sys_executable import_module check_call];
  split;
  [ exists used, ran; cbn [app List.length]; rewrite ?app_nil_r;
    repeat split; auto; try lia;
    try (intros c [<-|[]]; reflexivity); try (intros c [])
  | repeat split ].

(** What [ensure_package] does in the shell: it reads at most one line and
    runs at most one command, [pip install] of the package; the interpreter
    and the behaviour of imports and commands stay as they are. *)
Lemma ensure_package_shell (package_name : str) (import_name : option str)
    (sh : shell module) :
  let sh' := snd (ensure_package package_name import_name sh) in
  (exists used ran,
     stdin sh = used ++ stdin sh' /\ (List.length used <= 1)%nat /\
     commands sh' = commands sh ++ ran /\
     (List.length ran <= List.length used)%nat /\
     (forall c, In c ran -> c = pip_install_argv sh package_name)) /\
  sys_executable sh' = sys_executable sh /\
  import_module sh' = import_module sh /\
  check_call sh' = check_call sh.
Proof.
  cbv zeta. unfold ensure_package, input, run, write, pip_install_argv.
  cbn [stdin].
  destruct (import_module sh _ _).
  - shell_done (@nil (list N)) (@nil (list (list N))).
  - destruct (stdin sh) as [|answer rest] eqn:Hin.
    + shell_done (@nil (list N)) (@nil (list (list N))).
    + destruct (is_yes _).
      * cbn [check_call commands import_module sys_executable stdin stdout].
        destruct (check_call sh _) as [[]|];
          [destruct (import_module sh _ _)|];
          shell_done [answer]
            [[sys_executable sh; lit "-m"; lit "pip"; lit "install"; package_name]].
      * shell_done [answer] (@nil (list (list N))).
  - shell_done (@nil (list N)) (@nil (list (list N))).
Qed.

(** X18. [ensure_package] returns the module without any effect when the
    import succeeds. It runs [pip install] at most once, and only after the
    import failed with [ImportError] and the user answered [y] or [yes]
    (case and surrounding white space ignored). It returns [None] exactly
    when the import failed and the user gave another answer, and then no
    command was run. *)
Theorem ensure_package_consent (package_name : str) (import_name : option str)
    (sh : shell module) :
  let name := match import_name with
              | Some ((_ :: _) as name) => name
              | _ => package_name
              end in
  let r := fst (ensure_package package_name import_name sh) in
  let sh' := snd (ensure_package package_name import_name sh) in
  (forall m, import_module sh (commands sh) name = Imported m ->
             r = Ok (Some m) /\ sh' = sh) /\
  (commands sh' <> commands sh <-> consents package_name import_name sh) /\
  (consents package_name import_name sh ->
   commands sh' = commands sh ++ [pip_install_argv sh package_name]) /\
  (r = Ok None <-> declines package_name import_name sh) /\
  (r = Ok None -> commands sh' = commands sh).
Proof. exact (ensure_package_cases package_name import_name sh). Qed.

End EnsurePackageFacts.

Lemma ensure_package_consent_witness :
  @consents ascii_casing _ (lit "requests") None (example_shell (lit " YES ")) /\
  commands (snd (@ensure_package ascii_casing _ (lit "requests") None
                   (example_shell (lit " YES "))))
  = [[lit "python3"; lit "-m"; lit "pip"; lit "install"; lit "requests"]].
Proof.
  assert (Hyes : @consents ascii_casing _ (lit "requests") None
                   (example_shell (lit " YES "))).
  { split; [eexists; reflexivity|].
    exists (lit " YES "), []. split; reflexivity. }
  split; [exact Hyes|].
  destruct (@ensure_package_consent ascii_casing _ (lit "requests") None
              (example_shell (lit " YES "))) as [_ [_ [Hrun _]]].
  exact (Hrun Hyes).
Defined.

(** ** Breach lookup client: effects *)

Section ClientEffects.
Context {rt : Runtime} {cs : Casing}.

(** What the client does in the shell. *)
Lemma hibp_shell (password : str) (w : world) :
  let sh' := host (snd (hibp_pwned_count password w)) in
  (exists used ran,
     stdin (host w) = used ++ stdin sh' /\ (List.length used <= 1)%nat /\
     commands sh' = commands (host w) ++ ran /\
     (List.length ran <= List.length used)%nat /\
     (forall c, In c ran -> c = pip_install_argv (host w) (lit "requests")) /\
     (ran <> [] -> requests w = None /\ consents (lit "requests") None (host w))) /\
  sys_executable sh' = sys_executable (host w) /\
  (forall t, requests w = Some t -> sh' = host w).
Proof.
  cbv zeta. rewrite hibp_host, after_ensure_host. unfold transport_of.
  destruct (requests w) as [t|] eqn:Hreq.
  - split; [|split; [reflexivity|intros; reflexivity]].
    exists [], []. cbn [app List.length]. rewrite app_nil_r.
    split; [reflexivity|]. split; [lia|]. split; [reflexivity|].
    split; [lia|]. split; [intros c []|].
    intros Hran. now contradiction Hran.
  - destruct (ensure_package_shell (lit "requests") None (host w))
      as [[used [ran [Hin [Hused [Hcmd [Hran Hpip]]]]]] [Hexe _]].
    destruct (ensure_package_cases (lit "requests") None (host w))
      as [_ [Hconsent _]].
    cbv zeta in *.
    assert (Hyes : ran <> [] -> None = @None transport /\
                                consents (lit "requests") None (host w)).
    { intros Hne. split; [reflexivity|]. apply Hconsent. rewrite Hcmd.
      intros Heq. apply Hne.
      apply (f_equal (@List.length _)) in Heq. rewrite length_app in Heq.
      destruct ran; [reflexivity|simpl in Heq; lia]. }
    split; [|split; [|discriminate]].
    + exists used, ran.
      destruct (fst (ensure_package (lit "requests") None (host w))) as [[t|]|e];
        cbn [write stdin commands];
        (split; [exact Hin|]); (split; [exact Hused|]); (split; [exact Hcmd|]);
        (split; [exact Hran|]); (split; [exact Hpip|exact Hyes]).
    + destruct (fst (ensure_package (lit "requests") None (host w))) as [[t|]|e];
        cbn [write sys_executable]; exact Hexe.
Qed.

(** X9. A call of the client leaves the global [zxcvbn] as it is and issues
    at most one request, with time-out 10. In the shell it reads at most one
    line and runs at most one command, which is [pip install requests] and is
    run only when [requests] was not loaded, its import failed and the user
    consented; with [requests] loaded the shell is not touched. Once the
    transport is obtained the global holds it, and later calls go straight to
    the query; when the user declined, the global stays unset. *)
Theorem hibp_state_effects (password : str) (w : world) :
  let w' := snd (hibp_pwned_count password w) in
  zxcvbn w' = zxcvbn w /\
  (exists more, sent w' = sent w ++ more /\ (List.length more <= 1)%nat /\
                forall r, In r more -> snd r = 10) /\
  (exists used ran,
     stdin (host w) = used ++ stdin (host w') /\ (List.length used <= 1)%nat /\
     commands (host w') = commands (host w) ++ ran /\
     (List.length ran <= List.length used)%nat /\
     (forall c, In c ran -> c = pip_install_argv (host w) (lit "requests")) /\
     (ran <> [] -> requests w = None /\ consents (lit "requests") None (host w))) /\
  (forall t, requests w = Some t -> host w' = host w /\ requests w' = Some t) /\
  (forall t, transport_of w = Ok (Some t) ->
     requests w' = Some t /\
     forall other, hibp_pwned_count other w' = hibp_query t other w') /\
  (transport_of w = Ok None -> requests w' = None).
Proof.
  cbv zeta.
  destruct (hibp_shell password w) as [Hshell [_ Hloaded]]. cbv zeta in *.
  assert (Hreq : requests (snd (hibp_pwned_count password w))
                 = match transport_of w with Ok m => m | Err _ => None end).
  { rewrite hibp_pwned_count_eq. rewrite <- after_ensure_requests.
    destruct (transport_of w) as [[t|]|e]; try reflexivity.
    now destruct (hibp_query_frame t password (after_ensure w)) as [_ [_ [Hr _]]]. }
  split; [|split; [|split; [exact Hshell|split; [|split]]]].
  - rewrite hibp_pwned_count_eq.
    destruct (after_ensure_frame w) as [_ [Hz _]].
    destruct (transport_of w) as [[t|]|e]; try exact Hz.
    destruct (hibp_query_frame t password (after_ensure w)) as [_ [Hq _]].
    cbv zeta in Hq. now rewrite Hq.
  - rewrite hibp_sent. unfold sent_after.
    destruct (transport_of w) as [[t|]|e];
      [destruct (prefix_of password) as [prefix|e]| |];
      try (exists []; rewrite app_nil_r; cbn;
           repeat split; [lia|intros r []]).
    exists [(hibp_url prefix, 10)]. cbn. repeat split; [lia|].
    intros r [<-|[]]. reflexivity.
  - intros t Ht. split; [exact (Hloaded t Ht)|].
    rewrite Hreq. unfold transport_of. now rewrite Ht.
  - intros t Ht. rewrite Hreq, Ht. split; [reflexivity|].
    intros other. unfold hibp_pwned_count at 1. now rewrite Hreq, Ht.
  - intros Ht. now rewrite Hreq, Ht.
Qed.

Lemma utf8_char_encodable (c : char) :
  encodable c <-> exists bs, utf8_char (Z.of_N c) = Some bs.
Proof.
  unfold encodable, utf8_char.
  destruct (Z.ltb_spec (Z.of_N c) 0x80), (Z.ltb_spec (Z.of_N c) 0x800),
    (Z.leb_spec 0xD800 (Z.of_N c)), (Z.leb_spec (Z.of_N c) 0xDFFF),
    (Z.ltb_spec (Z.of_N c) 0x10000), (Z.ltb_spec (Z.of_N c) 0x110000);
    cbn [andb]; split;
    try (intros _; eexists; reflexivity);
    try (intros [bs Hbs]; discriminate Hbs);
    try (intros _; lia); try (intros [?|?]; lia).
Qed.

Lemma utf8_bytes_encodable (s : str) :
  Forall encodable s <-> exists bs, utf8_bytes s = Some bs.
Proof.
  induction s as [|c s IH]; cbn [utf8_bytes].
  - split; [intros _; eexists; reflexivity|constructor].
  - split.
    + intros Hall. inversion Hall as [|? ? Hc Hs]; subst.
      apply utf8_char_encodable in Hc. destruct Hc as [bs ->].
      apply IH in Hs. destruct Hs as [more ->]. eexists; reflexivity.
    + intros [bs Hbs].
      destruct (utf8_char (Z.of_N c)) as [b|] eqn:Hc; [|discriminate].
      destruct (utf8_bytes s) as [more|] eqn:Hs; [|discriminate].
      constructor; [apply utf8_char_encodable; eauto|apply IH; eauto].
Qed.

(** X10. The digest text of a password exists exactly when every character
    of the password is a Unicode scalar value; for a password with a
    surrogate the client raises [UnicodeEncodeError] before it issues any
    request. *)
Theorem unencodable_password_sends_nothing (password : str) (w : world) :
  ((exists sha1, sha1_hex_upper password = Ok sha1) <-> Forall encodable password) /\
  (~ Forall encodable password ->
   forall t, transport_of w = Ok (Some t) ->
     fst (hibp_pwned_count password w)
     = Err (Raise UnicodeEncodeError (builtin_msg (Unencodable password))) /\
     sent (snd (hibp_pwned_count password w)) = sent w).
Proof.
  assert (Hiff : (exists sha1, sha1_hex_upper password = Ok sha1)
                 <-> Forall encodable password).
  { rewrite utf8_bytes_encodable. unfold sha1_hex_upper, encode_utf8.
    destruct (utf8_bytes password) as [bs|]; cbn [bind]; split.
    - intros _. eauto.
    - intros _. eauto.
    - intros [sha1 H]. discriminate H.
    - intros [bs H]. discriminate H. }
  split; [exact Hiff|].
  intros Hbad t Ht. rewrite hibp_sent. unfold sent_after, prefix_of.
  rewrite hibp_pwned_count_eq, Ht, hibp_query_eq.
  rewrite utf8_bytes_encodable in Hbad.
  unfold sha1_hex_upper, encode_utf8.
  destruct (utf8_bytes password) as [bs|]; [exfalso; eauto|].
  split; reflexivity.
Qed.


(** X19. With [requests] not loaded, the client returns -1 without issuing a
    request exactly when [ensure_package("requests")] finds the import
    failing and the user answers something other than [y] or [yes]. *)
Theorem sentinel_iff_user_declines (password : str) (w : world)
    (sh : shell transport) :
  requests w = None ->
  (fst (hibp_pwned_count password (with_shell w sh)) = Ok (-1) /\
   sent (snd (hibp_pwned_count password (with_shell w sh))) = sent w)
  <-> declines (lit "requests") None sh.
Proof.
  intros Hreq.
  destruct (ensure_package_cases (lit "requests") None sh) as [_ [_ [_ [Hnone _]]]].
  cbv zeta in Hnone. rewrite <- Hnone. clear Hnone.
  rewrite hibp_sent, hibp_pwned_count_eq. unfold sent_after, transport_of.
  cbn [with_shell requests host sent]. rewrite Hreq.
  destruct (fst (ensure_package (lit "requests") None sh)) as [[t|]|e].
  - rewrite hibp_query_eq. unfold prefix_of.
    destruct (sha1_hex_upper password) as [sha1|e]; cbn [bind fst].
    + split; [intros [_ Hsent]; exfalso; exact (app_one_neq _ _ Hsent)|discriminate].
    + split; [intros [Hr _]; discriminate Hr|discriminate].
  - cbn [fst]. split; [reflexivity|intros _; split; reflexivity].
  - cbn [fst]. split; [intros [Hr _]; discriminate Hr|discriminate].
Qed.

End ClientEffects.

Lemma unencodable_password_sends_nothing_witness :
  ~ Forall encodable [97; 0xD800]%N /\
  @transport_of ascii_casing w_listed = Ok (Some (respond 200 body_listed)) /\
  sent (snd (@hibp_pwned_count ascii_runtime ascii_casing [97; 0xD800]%N w_listed))
  = sent w_listed.
Proof.
  assert (Hbad : ~ Forall encodable [97; 0xD800]%N).
  { intros Hall. inversion Hall as [|? ? _ Hrest]; subst.
    inversion Hrest as [|? ? Hc _]; subst. unfold encodable in Hc. lia. }
  split; [exact Hbad|]. split; [reflexivity|].
  apply (proj2 (@unencodable_password_sends_nothing ascii_runtime ascii_casing
                  _ w_listed) Hbad
           (respond 200 body_listed) eq_refl).
Defined.

Lemma hibp_state_effects_witness :
  requests w_declined = None /\
  zxcvbn (snd (@hibp_pwned_count ascii_runtime ascii_casing pw_password w_declined))
  = zxcvbn w_declined /\
  stdin (host (snd (@hibp_pwned_count ascii_runtime ascii_casing pw_password
                      w_declined))) = [] /\
  commands (host (snd (@hibp_pwned_count ascii_runtime ascii_casing pw_password
                         (with_shell w_declined (example_shell (lit "yes"))))))
  = [[lit "python3"; lit "-m"; lit "pip"; lit "install"; lit "requests"]].
Proof.
  split; [reflexivity|].
  split; [apply (@hibp_state_effects ascii_runtime ascii_casing pw_password w_declined)|].
  split; reflexivity.
Defined.

Lemma sentinel_iff_user_declines_witness :
  requests w_declined = None /\
  @declines ascii_casing _ (lit "requests") None (example_shell (lit "n")) /\
  fst (@hibp_pwned_count ascii_runtime ascii_casing pw_password
         (with_shell w_declined (example_shell (lit "n"))))
  = Ok (-1).
Proof.
  assert (Hno : @declines ascii_casing _ (lit "requests") None
                  (example_shell (lit "n"))).
  { split; [eexists; reflexivity|]. exists (lit "n"), []. split; reflexivity. }
  split; [reflexivity|]. split; [exact Hno|].
  apply (proj2 (@sentinel_iff_user_declines ascii_runtime ascii_casing pw_password
                  w_declined (example_shell (lit "n")) eq_refl) Hno).
Defined.

(** ** Analysis orchestrator: effects and fields *)

Section OrchestratorEffects.
Context {rt : Runtime} {cs : Casing}.

Local Open Scope string_scope.

Lemma is_FileNotFoundError_false (e : exn) :
  is_FileNotFoundError e = false <-> exn_class_of e <> FileNotFoundError.
Proof.
  unfold is_FileNotFoundError.
  destruct (exn_class_of e); split; try discriminate; try reflexivity;
    intros H; now contradiction H.
Qed.

(** The exception that escapes, by what the matcher raises. *)
Lemma wordlist_escape_Some (fs : filesystem) (password : str)
    (wordlist : option str) (e : exn) :
  wordlist_escape fs password wordlist = Some e <->
  exists path,
    wordlist = Some path /\ path <> [] /\
    check_local_wordlist fs password path = Err e /\
    exn_class_of e <> FileNotFoundError.
Proof.
  unfold wordlist_escape. destruct wordlist as [[|c path]|].
  - split; [discriminate|]. intros [p [[= <-] [Hne _]]]. now contradiction Hne.
  - destruct (check_local_wordlist fs password (c :: path)) as [found|e0] eqn:Hc.
    + split; [discriminate|]. intros [p [[= <-] [_ [Hp _]]]]. congruence.
    + destruct (is_FileNotFoundError e0) eqn:Hfnf.
      * split; [discriminate|]. intros [p [[= <-] [_ [Hp Hclass]]]].
        rewrite Hc in Hp. injection Hp as <-.
        apply is_FileNotFoundError_false in Hclass. congruence.
      * split.
        -- intros [= <-]. exists (c :: path).
           split; [reflexivity|]. split; [discriminate|].
           split; [exact Hc|]. now apply is_FileNotFoundError_false.
        -- intros [p [[= <-] [_ [Hp _]]]]. rewrite Hc in Hp. congruence.
  - split; [discriminate|]. intros [p [Hp _]]. discriminate Hp.
Qed.

(** On a wordlist that is missing or read to its end the matcher raises only
    when the file is missing. *)
Lemma check_local_wordlist_readable_Err (fs : filesystem) (password path : str)
    (e : exn) :
  path <> [] -> wordlist_readable fs (Some path) ->
  check_local_wordlist fs password path = Err e -> fs path = None.
Proof.
  intros Hne. unfold wordlist_readable.
  destruct path as [|c path]; [now contradiction Hne|].
  unfold check_local_wordlist, os_path_isfile, open_lines.
  destruct (fs (c :: path)) as [[content|read e0]|]; cbn [negb].
  - intros _. rewrite wordlist_loop_read_to_end. discriminate.
  - intros [].
  - reflexivity.
Qed.

Lemma wordlist_verdict_keys (w : world) (password : str) (wordlist : option str) :
  wordlist_readable (fs w) wordlist ->
  verdict_keys "found_in_wordlist" "wordlist_error"
    (wordlist_verdict w password wordlist)
  = wordlist_keys w wordlist.
Proof.
  unfold wordlist_readable, wordlist_verdict, wordlist_keys, verdict_keys.
  destruct wordlist as [[|c path]|]; try reflexivity.
  unfold check_local_wordlist, os_path_isfile, open_lines.
  destruct (fs w (c :: path)) as [[content|read e0]|]; cbn [negb].
  - intros _. now rewrite wordlist_loop_read_to_end.
  - intros [].
  - reflexivity.
Qed.

Lemma hibp_verdict_keys (w : world) (password : str) (hibp : bool) :
  verdict_keys "hibp_count" "hibp_error" (hibp_verdict w password hibp)
  = hibp_keys w password hibp.
Proof.
  unfold hibp_verdict, hibp_keys, verdict_keys.
  destruct hibp; [|reflexivity].
  now destruct (fst (hibp_pwned_count password w)).
Qed.

(** X11. Without the breach check, and when the wordlist check raises an
    exception that is not handled, the orchestrator leaves the world as it
    is: nothing is sent, no line is read, no command is run. Otherwise its
    effect is that of one call of the client. In every case it sends nothing
    or the one request of the five-character prefix of the password. *)
Theorem analyze_password_network_use (password : str) (wordlist : option str)
    (hibp verbose : bool) (w : world) :
  let w' := snd (analyze_password password wordlist hibp verbose w) in
  (hibp = false -> w' = w) /\
  (wordlist_escape (fs w) password wordlist <> None -> w' = w) /\
  (hibp = true -> wordlist_escape (fs w) password wordlist = None ->
   w' = snd (hibp_pwned_count password w)) /\
  (sent w' = sent w \/
   exists prefix,
     hibp = true /\ prefix_of password = Ok prefix /\
     sent w' = (sent w ++ [(hibp_url prefix, 10)])%list).
Proof.
  cbv zeta.
  pose proof (analyze_password_fields password wordlist hibp verbose w) as Hrun.
  destruct (wordlist_escape (fs w) password wordlist) as [e|].
  - rewrite Hrun. cbn [snd].
    split; [reflexivity|]. split; [reflexivity|]. split; [discriminate|now left].
  - destruct Hrun as [out [Hrun _]]. rewrite Hrun. cbn [snd].
    destruct hibp.
    + split; [discriminate|]. split; [intros H; now contradiction H|].
      split; [reflexivity|].
      rewrite hibp_sent. unfold sent_after.
      destruct (transport_of w) as [[t|]|e];
        [destruct (prefix_of password) as [prefix|e]| |]; try (now left).
      right. exists prefix. auto.
    + split; [reflexivity|]. split; [reflexivity|]. split; [discriminate|now left].
Qed.

(** X12. With a wordlist that is absent, missing or read to its end, the
    field names of the result, in the order they are set: the eight mandatory
    ones, then for each optional feature no name when it is off, the names of
    its verdict when it ran, and the names of its failure when it failed; an
    empty wordlist path counts as no wordlist. *)
Theorem analyze_password_field_names (password : str) (wordlist : option str)
    (hibp verbose : bool) (w : world) :
  wordlist_readable (fs w) wordlist ->
  exists out,
    fst (analyze_password password wordlist hibp verbose w) = Ok out /\
    dict_keys out
    = (core_keys ++ zxcvbn_keys w password ++ wordlist_keys w wordlist
       ++ hibp_keys w password hibp ++ verbose_keys verbose)%list.
Proof.
  intros Hreadable.
  destruct (analyze_password_readable password wordlist hibp verbose w Hreadable)
    as [out [Hrun [_ [_ [_ [_ [_ Hkeys]]]]]]].
  exists out. rewrite Hrun. split; [reflexivity|].
  now rewrite Hkeys, wordlist_verdict_keys, hibp_verdict_keys.
Qed.

(** X13. With a wordlist that is absent, missing or read to its end, the
    reported [entropy_bits] is never negative and differs from the estimate of
    [shannon_entropy] by at most 0.005. *)
Theorem entropy_bits_accuracy (password : str) (wordlist : option str)
    (hibp verbose : bool) (w : world) :
  wordlist_readable (fs w) wordlist ->
  exists out entropy bits,
    fst (analyze_password password wordlist hibp verbose w) = Ok out /\
    shannon_entropy password = Ok entropy /\
    dict_get out "entropy_bits" = Some (VFloat bits) /\
    (0 <= bits)%R /\ (Rabs (bits - entropy) <= 1 / 200)%R.
Proof.
  intros Hreadable.
  destruct (analyze_password_readable password wordlist hibp verbose w Hreadable)
    as [out [Hrun [_ [_ [Hcore _]]]]].
  destruct Hcore as [entropy [score [label [He [_ [_ [Hb _]]]]]]].
  exists out, entropy, (round2 entropy). rewrite Hrun.
  split; [reflexivity|]. split; [exact He|]. split; [exact Hb|].
  destruct (round2_near entropy) as [Hnear Hpos]. split; [|exact Hnear].
  apply Hpos. rewrite shannon_entropy_spec in He. injection He as <-.
  apply spec_entropy_nonneg.
Qed.

(** X23. The orchestrator raises exactly when the wordlist check raises an
    exception other than [FileNotFoundError], and then that exception. With a
    wordlist that is absent, missing or read to its end it returns a result
    that holds the mandatory fields (length, four class flags, entropy,
    score, label); a missing wordlist gives [found_in_wordlist = None] and a
    [wordlist_error] text, and one that is read the verdict of the matcher; a
    failure of the client gives [hibp_error] and no [hibp_count], and a
    success the count. *)
Theorem analyze_password_isolation (password : str) (wordlist : option str)
    (hibp verbose : bool) (w : world) :
  (forall e,
     fst (analyze_password password wordlist hibp verbose w) = Err e <->
     exists path,
       wordlist = Some path /\ path <> [] /\
       check_local_wordlist (fs w) password path = Err e /\
       exn_class_of e <> FileNotFoundError) /\
  (wordlist_readable (fs w) wordlist ->
   exists out w',
     analyze_password password wordlist hibp verbose w = (Ok out, w') /\
     dict_get out "password_length" = Some (VInt (len password)) /\
     (exists has_upper has_lower has_digit has_special,
        char_classes password = (has_upper, has_lower, has_digit, has_special) /\
        dict_get out "has_upper" = Some (VBool has_upper) /\
        dict_get out "has_lower" = Some (VBool has_lower) /\
        dict_get out "has_digit" = Some (VBool has_digit) /\
        dict_get out "has_special" = Some (VBool has_special)) /\
     (exists entropy score label,
        shannon_entropy password = Ok entropy /\
        simple_score password = Ok (score, label) /\
        dict_get out "entropy_bits" = Some (VFloat (round2 entropy)) /\
        dict_get out "simple_score" = Some (VInt score) /\
        dict_get out "label" = Some (VStr label)) /\
     (forall path,
        wordlist = Some path -> path <> [] ->
        match check_local_wordlist (fs w) password path with
        | Ok found =>
            dict_get out "found_in_wordlist" = Some (VBool found) /\
            dict_get out "wordlist_error" = None
        | Err _ =>
            fs w path = None /\
            dict_get out "found_in_wordlist" = Some VNone /\
            dict_get out "wordlist_error" =
              Some (VStr (lit "Wordlist not found: " ++ path)%list)
        end) /\
     (hibp = true ->
      match fst (hibp_pwned_count password w) with
      | Ok count =>
          dict_get out "hibp_count" = Some (VInt count) /\
          dict_get out "hibp_error" = None
      | Err e =>
          dict_get out "hibp_error" = Some (VStr (exn_str e)) /\
          dict_get out "hibp_count" = None
      end)).
Proof.
  split.
  - intros e. rewrite <- wordlist_escape_Some.
    pose proof (analyze_password_fields password wordlist hibp verbose w) as Hrun.
    destruct (wordlist_escape (fs w) password wordlist) as [e0|].
    + rewrite Hrun. cbn [fst]. split; congruence.
    + destruct Hrun as [out [Hrun _]]. rewrite Hrun. cbn [fst].
      split; discriminate.
  - intros Hreadable.
    destruct (analyze_password_readable password wordlist hibp verbose w Hreadable)
      as [out [Hrun [Hlen [Hflags [Hcore [Hword [Hhibp _]]]]]]].
    exists out. eexists. split; [exact Hrun|]. split; [exact Hlen|].
    split; [exact Hflags|]. split; [|split].
    + destruct Hcore as [entropy [score [label [He [Hs [_ [Hb [Hsc Hl]]]]]]]].
      exists entropy, score, label. repeat split; assumption.
    + intros path -> Hne. unfold wordlist_verdict in Hword.
      destruct path as [|c path]; [now contradiction Hne|].
      destruct (check_local_wordlist (fs w) password (c :: path)) as [found|e] eqn:Hc;
        injection Hword as Hfound Herror.
      * split; assumption.
      * split; [|split; assumption].
        exact (check_local_wordlist_readable_Err _ _ _ _ Hne Hreadable Hc).
    + intros ->. unfold hibp_verdict in Hhibp.
      destruct (fst (hibp_pwned_count password w)) as [count|e];
        injection Hhibp as Hcount Herror; split; assumption.
Qed.

End OrchestratorEffects.

Lemma analyze_password_field_names_witness :
  wordlist_readable (fs w_unavailable) (Some (lit "missing.txt")) /\
  exists out,
    fst (@analyze_password ascii_runtime ascii_casing pw_password
           (Some (lit "missing.txt")) true true w_unavailable) = Ok out /\
    dict_keys out
    = ["password_length"; "has_upper"; "has_lower"; "has_digit"; "has_special";
       "entropy_bits"; "simple_score"; "label"; "found_in_wordlist";
       "wordlist_error"; "hibp_error"; "complex"]%string.
Proof.
  assert (Hreadable : wordlist_readable (fs w_unavailable) (Some (lit "missing.txt")))
    by exact I.
  split; [exact Hreadable|].
  destruct (@analyze_password_field_names ascii_runtime ascii_casing pw_password
              (Some (lit "missing.txt")) true true w_unavailable Hreadable)
    as [out [Hrun Hkeys]].
  exists out. split; [exact Hrun|]. rewrite Hkeys. vm_compute. reflexivity.
Defined.

Lemma entropy_bits_accuracy_witness :
  wordlist_readable (fs w_declined) None /\
  exists out bits,
    fst (@analyze_password ascii_runtime ascii_casing pw_password None false false
           w_declined) = Ok out /\
    dict_get out "entropy_bits"%string = Some (VFloat bits) /\ (0 <= bits)%R.
Proof.
  split; [exact I|].
  destruct (@entropy_bits_accuracy ascii_runtime ascii_casing pw_password None
              false false w_declined I)
    as [out [entropy [bits [Hrun [_ [Hb [Hpos _]]]]]]].
  exists out, bits. repeat split; assumption.
Defined.

Lemma analyze_password_isolation_witness :
  exists out w',
    @analyze_password ascii_runtime ascii_casing pw_password (Some (lit "missing.txt"))
      true false w_unavailable = (Ok out, w') /\
    dict_get out "password_length"%string = Some (VInt 8) /\
    dict_get out "found_in_wordlist"%string = Some VNone /\
    dict_get out "wordlist_error"%string
      = Some (VStr (lit "Wordlist not found: missing.txt")) /\
    dict_get out "hibp_error"%string = Some (VStr (lit "HIBP API error: 503")) /\
    dict_get out "hibp_count"%string = None.
Proof.
  destruct (@analyze_password_isolation ascii_runtime ascii_casing pw_password
              (Some (lit "missing.txt")) true false w_unavailable)
    as [_ Hok].
  destruct (Hok I) as [out [w' [Hrun [Hlen [_ [_ [Hword Hhibp]]]]]]].
  exists out, w'. split; [exact Hrun|]. split; [exact Hlen|].
  assert (Hpath : lit "missing.txt" <> []) by discriminate.
  specialize (Hword (lit "missing.txt") eq_refl Hpath).
  change (check_local_wordlist (fs w_unavailable) pw_password (lit "missing.txt"))
    with (@Err bool (Raise FileNotFoundError (lit "missing.txt"))) in Hword.
  destruct Hword as [_ [Hfound Herror]].
  specialize (Hhibp eq_refl).
  assert (Hclient : fst (@hibp_pwned_count ascii_runtime ascii_casing pw_password
                           w_unavailable)
                    = Err (Raise RuntimeError (lit "HIBP API error: 503")))
    by (vm_compute; reflexivity).
  rewrite Hclient in Hhibp. destruct Hhibp as [Hmsg Hcount].
  repeat split; assumption.
Defined.

(** ** Report *)

Section ReportFacts.
Context {rt : Runtime} {fm : Formatting} {cs : Casing}.

Local Open Scope string_scope.

Lemma report_head_ok (res : dict string value) :
  exists head, report_head res = (Ok tt, head).
Proof.
  unfold report_head, bindW, print, retW.
  destruct (has_key res "zxcvbn_score"); eexists; reflexivity.
Qed.

Lemma report_wordlist_of_verdict (out : dict string value) (w : world)
    (password : str) (wordlist : option str) :
  (dict_get out "found_in_wordlist", dict_get out "wordlist_error")
  = wordlist_verdict w password wordlist ->
  report_wordlist out = (Ok tt, wordlist_line (wordlist_verdict w password wordlist)).
Proof.
  unfold wordlist_verdict.
  destruct wordlist as [[|c path]|];
    [|destruct (check_local_wordlist (fs w) password (c :: path)) as [[|]|e]|];
    intros [= Hfound Herror];
    unfold report_wordlist, get, has_key, dict_get_default;
    rewrite Hfound, ?Herror; reflexivity.
Qed.

Lemma report_hibp_of_verdict (out : dict string value) (w : world)
    (password : str) (hibp : bool) :
  (dict_get out "hibp_count", dict_get out "hibp_error")
  = hibp_verdict w password hibp ->
  report_hibp out = (Ok tt, hibp_line (hibp_verdict w password hibp)).
Proof.
  unfold hibp_verdict.
  destruct hibp; [destruct (fst (hibp_pwned_count password w)) as [count|e]|];
    intros [= Hcount Herror];
    unfold report_hibp, get, has_key, dict_get_default, liftW, bindW, gt_int;
    rewrite Hcount, ?Herror; cbn [as_number number_gtb hibp_line value_str];
    try reflexivity.
  destruct (0 <? count)%Z; cbn [print]; rewrite ?app_nil_l, <- ?app_assoc; reflexivity.
Qed.

Lemma advice_of_fields (out : dict string value) (n : Z) (bits : R)
    (has_upper has_lower has_digit has_special : bool) :
  dict_get out "password_length" = Some (VInt n) ->
  dict_get out "entropy_bits" = Some (VFloat bits) ->
  dict_get out "has_upper" = Some (VBool has_upper) ->
  dict_get out "has_lower" = Some (VBool has_lower) ->
  dict_get out "has_digit" = Some (VBool has_digit) ->
  dict_get out "has_special" = Some (VBool has_special) ->
  advice out
  = Ok (advice_for n bits
          (sum_bools [has_upper; has_lower; has_digit; has_special])).
Proof.
  intros Hn Hb Hu Hl Hd Hx.
  unfold advice, get, dict_get_default, lt_int, py_sum.
  rewrite Hn, Hb, Hu, Hl, Hd, Hx. cbn [as_number bind number_ltb sum_from add_value].
  unfold advice_for.
  destruct (n <? 12)%Z, (Rltb bits 60), has_upper, has_lower, has_digit, has_special;
    reflexivity.
Qed.

Lemma print_items_ok (items : list str) :
  exists text, print_items items = (Ok tt, text).
Proof.
  induction items as [|a items [text IH]]; [eexists; reflexivity|].
  cbn [print_items]. unfold bindW, print. rewrite IH. eexists; reflexivity.
Qed.

Lemma print_advice_ok (adv : list str) :
  exists text, print_advice adv = (Ok tt, text).
Proof.
  unfold print_advice. destruct adv as [|a adv]; [eexists; reflexivity|].
  unfold bindW, print. destruct (print_items_ok (a :: adv)) as [text ->].
  eexists; reflexivity.
Qed.

(** The report of an analysis: the header and the mandatory fields, the line
    of the wordlist, the line of the breach check, the advice. *)
Lemma print_report_of_analysis (shown password : str) (wordlist : option str)
    (hibp verbose : bool) (w : world) :
  wordlist_escape (fs w) password wordlist = None ->
  exists out entropy head,
    fst (analyze_password password wordlist hibp verbose w) = Ok out /\
    shannon_entropy password = Ok entropy /\
    report_head out = (Ok tt, head) /\
    advice out
    = Ok (advice_for (len password) (round2 entropy) (classCount password)) /\
    print_report shown out
    = (Ok tt,
       (head ++ wordlist_line (wordlist_verdict w password wordlist)
          ++ hibp_line (hibp_verdict w password hibp)
          ++ snd (print_advice
                    (advice_for (len password) (round2 entropy)
                       (classCount password))))%list).
Proof.
  intros Hnone.
  destruct (analyze_password_returns password wordlist hibp verbose w Hnone)
    as [out [Hrun [Hlen [Hflags [Hcore [Hword [Hhibp _]]]]]]].
  destruct Hflags as [u [l [d [x [Hcc [Hu [Hl [Hd Hx]]]]]]]].
  destruct Hcore as [entropy [score [label [He [_ [_ [Hb _]]]]]]].
  destruct (report_head_ok out) as [head Hhead].
  exists out, entropy, head. rewrite Hrun.
  split; [reflexivity|]. split; [exact He|]. split; [exact Hhead|].
  assert (Hadv : advice out
                 = Ok (advice_for (len password) (round2 entropy)
                         (classCount password))).
  { unfold classCount. rewrite Hcc. now apply advice_of_fields. }
  split; [exact Hadv|].
  unfold print_report, bindW, liftW.
  rewrite Hhead, (report_wordlist_of_verdict out w password wordlist Hword),
    (report_hibp_of_verdict out w password hibp Hhibp), Hadv.
  destruct (print_advice_ok (advice_for (len password) (round2 entropy)
                               (classCount password))) as [text ->].
  reflexivity.
Qed.

End ReportFacts.

Section ReportClaims.
Context {rt : Runtime} {fm : Formatting} {cs : Casing}.

(** A password of at most [N] characters has an estimate below [B] as soon
    as [N ^ N < 2 ^ B]. *)
Lemma spec_entropy_below (s : str) (N B : nat) :
  (1 <= N)%nat -> (List.length s <= N)%nat ->
  (Z.of_nat N ^ Z.of_nat N < 2 ^ Z.of_nat B)%Z ->
  (spec_entropy s < INR B)%R.
Proof.
  intros HN Hlen Hpow. pose proof ln2_pos as Hln2.
  assert (HN1 : (1 <= INR N)%R) by (change 1%R with (INR 1); now apply le_INR).
  assert (Hnum : (INR N * ln (INR N) < INR B * ln 2)%R).
  { rewrite <- !ln_pow by lra. apply ln_increasing; [apply pow_lt; lra|].
    rewrite INR_IZR_INZ, !pow_IZR. now apply IZR_lt. }
  assert (HlnN : (0 <= ln (INR N))%R) by (rewrite <- ln_1; apply ln_le_compat; lra).
  assert (HB : (0 < INR B)%R) by nra.
  destruct s as [|a s0] eqn:Hs.
  - unfold spec_entropy, entropy_per_char. simpl. lra.
  - rewrite <- Hs in *. assert (Hne : s <> []) by (subst; discriminate).
    eapply Rle_lt_trans; [apply spec_entropy_upper; assumption|].
    assert (Hn1 : (1 <= INR (List.length s))%R).
    { change 1%R with (INR 1). apply le_INR. subst; simpl; lia. }
    assert (HnN : (INR (List.length s) <= INR N)%R) by now apply le_INR.
    assert (Hln0 : (0 <= ln (INR (List.length s)))%R)
      by (rewrite <- ln_1; apply ln_le_compat; lra).
    assert (HlnN' : (ln (INR (List.length s)) <= ln (INR N))%R)
      by (apply ln_le_compat; lra).
    assert (Hprod : (INR (List.length s) * ln (INR (List.length s))
                     <= INR N * ln (INR N))%R) by nra.
    apply (Rmult_lt_reg_r (ln 2)); [assumption|].
    replace (INR (List.length s) * (ln (INR (List.length s)) / ln 2) * ln 2)%R
      with (INR (List.length s) * ln (INR (List.length s)))%R by (field; lra).
    lra.
Qed.

Lemma Rsum_constant (A : Type) (k : R) (l : list A) :
  Rsum (map (fun _ => k) l) = (INR (List.length l) * k)%R.
Proof.
  induction l as [|x l IH]; [simpl; lra|].
  cbn [map Rsum fold_right List.length]. fold (Rsum (map (fun _ : A => k) l)).
  rewrite IH, S_INR. lra.
Qed.

(** The estimate of [n] different characters is [n * log2 n]. *)
Lemma spec_entropy_distinct (s : str) :
  NoDup s -> s <> [] ->
  spec_entropy s = (INR (List.length s) * (ln (INR (List.length s)) / ln 2))%R.
Proof.
  intros Hnd Hne. unfold spec_entropy, entropy_per_char, distinct_chars.
  rewrite (nodup_fixed_point N.eq_dec Hnd).
  assert (Hn : (0 < INR (List.length s))%R)
    by (apply lt_0_INR; destruct s; [contradiction|simpl; lia]).
  rewrite (map_ext_in _ (fun _ => plog2p (/ INR (List.length s)))).
  - rewrite Rsum_constant. unfold plog2p. rewrite ln_Rinv by assumption.
    field. split; [pose proof ln2_pos; lra|lra].
  - intros c Hc. unfold probability, occurrences.
    rewrite (proj1 (NoDup_count_occ' N.eq_dec s) Hnd c Hc).
    f_equal. simpl. unfold Rdiv. ring.
Qed.




(** X17. With a wordlist that is absent, missing or read to its end, every
    password of at most fifteen characters gets the advice to increase
    entropy, whatever its score: its estimate stays below 59, so the reported
    entropy stays below 60. This includes passwords labelled [Very strong]. *)
Theorem short_password_advised_entropy (password : str) (wordlist : option str)
    (hibp verbose : bool) (w : world) :
  wordlist_readable (fs w) wordlist ->
  len password <= 15 ->
  exists out adv,
    fst (analyze_password password wordlist hibp verbose w) = Ok out /\
    advice out = Ok adv /\ In advice_entropy adv.
Proof.
  intros Hreadable Hlen.
  destruct (print_report_of_analysis password password wordlist hibp verbose w
              (wordlist_readable_no_escape _ password _ Hreadable))
    as [out [entropy [head [Hrun [He [_ [Hadv _]]]]]]].
  exists out. eexists. split; [exact Hrun|]. split; [exact Hadv|].
  rewrite shannon_entropy_spec in He. injection He as <-.
  assert (Hbelow : (spec_entropy password < 59)%R).
  { replace 59%R with (INR 59) by (rewrite INR_IZR_INZ; reflexivity).
    apply (spec_entropy_below password 15 59); [lia|unfold len in Hlen; lia|reflexivity]. }
  destruct (round2_near (spec_entropy password)) as [Hnear _].
  assert (Hbits : (round2 (spec_entropy password) < 60)%R).
  { pose proof (Rle_abs (round2 (spec_entropy password) - spec_entropy password)).
    lra. }
  unfold advice_for, Rltb.
  destruct (Rlt_dec (round2 (spec_entropy password)) 60); [|contradiction].
  apply in_or_app. right. apply in_or_app. left. now left.
Qed.

End ReportClaims.

Lemma pw_very_strong_entropy : (40 <= spec_entropy pw_very_strong)%R.
Proof.
  assert (Hnd : NoDup pw_very_strong).
  { unfold pw_very_strong. vm_compute.
    repeat (constructor;
            [intros Hin; simpl in Hin;
             repeat (destruct Hin as [Hin|Hin]; [discriminate Hin|]); exact Hin|]).
    constructor. }
  rewrite (spec_entropy_distinct pw_very_strong Hnd) by discriminate.
  change (List.length pw_very_strong) with 12%nat.
  pose proof ln2_pos as Hln2.
  assert (Hnum : (INR 40 * ln 2 <= INR 12 * ln (INR 12))%R).
  { replace (INR 12) with 12%R by (rewrite INR_IZR_INZ; reflexivity).
    replace 12%R with (INR 12) at 1 by (rewrite INR_IZR_INZ; reflexivity).
    rewrite <- !ln_pow by lra. apply ln_le_compat; [apply pow_lt; lra|].
    rewrite !pow_IZR. apply IZR_le. vm_compute. discriminate. }
  replace (INR 40) with 40%R in Hnum by (rewrite INR_IZR_INZ; reflexivity).
  apply (Rmult_le_reg_r (ln 2)); [assumption|].
  replace (INR 12 * (ln (INR 12) / ln 2) * ln 2)%R with (INR 12 * ln (INR 12))%R
    by (field; lra).
  exact Hnum.
Qed.

Lemma very_strong_iff_entropy_point_witness :
  exists score label,
    @simple_score ascii_runtime pw_very_strong = Ok (score, label) /\
    score = 4 /\ label = lit "Very strong".
Proof.
  destruct (@very_strong_iff_entropy_point ascii_runtime pw_very_strong)
    as [entropy [score [label [He [Hs [_ [Hscore Hlabel]]]]]]].
  exists score, label. split; [exact Hs|].
  rewrite shannon_entropy_spec in He. injection He as <-.
  assert (H4 : score = 4).
  { apply Hscore. split; [vm_compute; discriminate|].
    apply Rle_ge. exact pw_very_strong_entropy. }
  split; [exact H4|]. now apply Hlabel.
Defined.

Lemma short_password_score_cap_witness :
  len (lit "Ab3!") < 8 /\
  exists score label,
    @simple_score ascii_runtime (lit "Ab3!") = Ok (score, label) /\ score <= 1.
Proof.
  split; [reflexivity|].
  destruct (@short_password_score_cap ascii_runtime (lit "Ab3!"))
    as [score [label [Hs [Hshort _]]]].
  exists score, label. split; [exact Hs|]. apply Hshort. reflexivity.
Defined.





Lemma short_password_advised_entropy_witness :
  wordlist_readable (fs w_declined) None /\
  len pw_very_strong <= 15 /\
  exists out adv,
    fst (@analyze_password ascii_runtime ascii_casing pw_very_strong None false false
           w_declined) = Ok out /\
    advice out = Ok adv /\ In advice_entropy adv.
Proof.
  assert (Hlen : len pw_very_strong <= 15) by (vm_compute; discriminate).
  split; [exact I|]. split; [exact Hlen|].
  exact (@short_password_advised_entropy ascii_runtime example_formatting
           ascii_casing pw_very_strong None false false w_declined I Hlen).
Defined.

(** ** Interactive loop *)

Section InteractiveFacts.
Context {rt : Runtime} {fm : Formatting} {cs : Casing}.

Lemma input_cases (prompt : str) (sh : shell transport) :
  commands (snd (input prompt sh)) = commands sh /\
  sys_executable (snd (input prompt sh)) = sys_executable sh /\
  match stdin sh with
  | [] => fst (input prompt sh) = Err EOFError /\ stdin (snd (input prompt sh)) = []
  | line :: rest =>
      fst (input prompt sh) = Ok line /\ stdin (snd (input prompt sh)) = rest
  end.
Proof.
  unfold input, write. cbn [stdin]. destruct (stdin sh); cbn; auto.
Qed.

Lemma range_query_of_incl (typed typed' : list str) (q : str * Z) :
  incl typed typed' -> range_query_of typed q -> range_query_of typed' q.
Proof.
  intros Hincl [password [prefix [Hin H]]].
  exists password, prefix. split; [apply Hincl, Hin|exact H].
Qed.

Lemma with_shell_twice (w w1 w2 : world) :
  w1 = with_shell w (host w1) -> w2 = with_shell w1 (host w2) ->
  w2 = with_shell w (host w2).
Proof. intros H1 H2. rewrite H2, H1. reflexivity. Qed.

Lemma pip_install_argv_executable (sh sh' : shell transport) (package_name : str) :
  sys_executable sh' = sys_executable sh ->
  pip_install_argv sh' package_name = pip_install_argv sh package_name.
Proof. unfold pip_install_argv. now intros ->. Qed.

Lemma session_trace_trans (hibp : bool) (w w1 w2 : world)
    (used used' : list str) (more more' : list (str * Z))
    (ran ran' : list (list str)) :
  session_trace hibp w w1 used more ran ->
  session_trace hibp w1 w2 used' more' ran' ->
  session_trace hibp w w2 (used ++ used') (more ++ more') (ran ++ ran').
Proof.
  intros [Hin [Hsent [Hlen [Hq [Hcmd [Hrun [Hpip [Hyes [Hexe [Hfs Hoff]]]]]]]]]]
         [Hin' [Hsent' [Hlen' [Hq' [Hcmd' [Hrun' [Hpip' [Hyes' [Hexe' [Hfs' Hoff']]]]]]]]]].
  unfold session_trace.
  split; [rewrite Hin, Hin'; now rewrite app_assoc|].
  split; [rewrite Hsent', Hsent; now rewrite app_assoc|].
  split; [rewrite !length_app; lia|].
  split.
  { intros q Hmem. apply in_app_or in Hmem as [Hmem|Hmem].
    - apply (range_query_of_incl used); [apply incl_appl, incl_refl|auto].
    - apply (range_query_of_incl used'); [apply incl_appr, incl_refl|auto]. }
  split; [rewrite Hcmd', Hcmd; now rewrite app_assoc|].
  split; [rewrite !length_app; lia|].
  split.
  { intros c Hmem. apply in_app_or in Hmem as [Hmem|Hmem]; [auto|].
    rewrite <- (pip_install_argv_executable (host w) (host w1) _ Hexe). auto. }
  split.
  { intros Hne. destruct ran as [|c ran].
    - destruct Hyes' as [answer [Hmem Hans]]; [exact Hne|].
      exists answer. split; [apply in_or_app; now right|exact Hans].
    - destruct Hyes as [answer [Hmem Hans]]; [discriminate|].
      exists answer. split; [apply in_or_app; now left|exact Hans]. }
  split; [congruence|]. split; [congruence|].
  intros Hh. destruct (Hoff Hh) as [E1 [E2 E3]]. destruct (Hoff' Hh) as [E4 [E5 E6]].
  split; [exact (with_shell_twice _ _ _ E1 E4)|]. now subst.
Qed.

(** The client keeps the files. *)
Lemma hibp_fs (password : str) (w : world) :
  fs (snd (hibp_pwned_count password w)) = fs w.
Proof.
  rewrite hibp_pwned_count_eq. destruct (after_ensure_frame w) as [Hfs _].
  destruct (transport_of w) as [[t|]|e]; try exact Hfs.
  destruct (hibp_query_frame t password (after_ensure w)) as [Hq _].
  cbv zeta in Hq. now rewrite Hq.
Qed.

(** What an analysis does: when it returns, the report of its result raises
    nothing; when it raises, it raises what the wordlist check let escape. It
    reads the lines that [ensure_package] reads, sends at most the range
    query of the password, and runs at most [pip install requests]. *)
Lemma analyze_password_effects (password : str) (wordlist : option str)
    (hibp verbose : bool) (w : world) :
  let r := fst (analyze_password password wordlist hibp verbose w) in
  let w' := snd (analyze_password password wordlist hibp verbose w) in
  match r with
  | Ok out => exists text, print_report password out = (Ok tt, text)
  | Err e => wordlist_escape (fs w) password wordlist = Some e
  end /\
  fs w' = fs w /\
  (exists used more ran,
     stdin (host w) = used ++ stdin (host w') /\
     (List.length used <= 1)%nat /\
     sent w' = sent w ++ more /\
     (List.length more <= 1)%nat /\
     (forall q, In q more -> range_query_of [password] q) /\
     commands (host w') = commands (host w) ++ ran /\
     (List.length ran <= List.length used)%nat /\
     (forall c, In c ran -> c = pip_install_argv (host w) (lit "requests")) /\
     (ran <> [] ->
      exists answer, In answer used /\ is_yes (lower (strip answer)) = true)) /\
  sys_executable (host w') = sys_executable (host w) /\
  (hibp = false -> w' = w).
Proof.
  cbv zeta.
  assert (Hquiet : forall r : result (dict string value),
            match r with
            | Ok out => exists text, print_report password out = (Ok tt, text)
            | Err e => wordlist_escape (fs w) password wordlist = Some e
            end ->
            match fst (r, w) with
            | Ok out => exists text, print_report password out = (Ok tt, text)
            | Err e => wordlist_escape (fs w) password wordlist = Some e
            end /\
            fs (snd (r, w)) = fs w /\
            (exists used more ran,
               stdin (host w) = used ++ stdin (host (snd (r, w))) /\
               (List.length used <= 1)%nat /\
               sent (snd (r, w)) = sent w ++ more /\
               (List.length more <= 1)%nat /\
               (forall q, In q more -> range_query_of [password] q) /\
               commands (host (snd (r, w))) = commands (host w) ++ ran /\
               (List.length ran <= List.length used)%nat /\
               (forall c, In c ran -> c = pip_install_argv (host w) (lit "requests")) /\
               (ran <> [] ->
                exists answer,
                  In answer used /\ is_yes (lower (strip answer)) = true)) /\
            sys_executable (host (snd (r, w))) = sys_executable (host w) /\
            (hibp = false -> snd (r, w) = w)).
  { intros r Hr. cbn [fst snd]. split; [exact Hr|]. split; [reflexivity|].
    split; [|split; [reflexivity|intros _; reflexivity]].
    exists [], [], []. cbn [app List.length]. rewrite !app_nil_r.
    split; [reflexivity|]. split; [lia|]. split; [reflexivity|]. split; [lia|].
    split; [intros q []|]. split; [reflexivity|]. split; [lia|].
    split; [intros c []|]. intros Hne. now contradiction Hne. }
  pose proof (analyze_password_fields password wordlist hibp verbose w) as Hrun.
  destruct (wordlist_escape (fs w) password wordlist) as [e|] eqn:Hescape.
  - rewrite Hrun. apply (Hquiet (Err e)). reflexivity.
  - destruct (print_report_of_analysis password password wordlist hibp verbose w
                Hescape)
      as [out [entropy [head [Hout [_ [_ [_ Hreport]]]]]]].
    destruct Hrun as [out' [Hrun _]]. rewrite Hrun in Hout. cbn [fst] in Hout.
    injection Hout as ->. rewrite Hrun.
    destruct hibp; [|apply (Hquiet (Ok out)); eauto].
    cbn [fst snd]. split; [eauto|]. split; [apply hibp_fs|].
    destruct (hibp_shell password w)
      as [[used [ran [Hin [Hused [Hcmd [Hran [Hpip Hyes]]]]]]] [Hexe _]].
    cbv zeta in *.
    split; [|split; [exact Hexe|discriminate]].
    assert (Hmore : exists more,
               sent (snd (hibp_pwned_count password w)) = sent w ++ more /\
               (List.length more <= 1)%nat /\
               forall q, In q more -> range_query_of [password] q).
    { rewrite hibp_sent. unfold sent_after.
      destruct (transport_of w) as [[t|]|e];
        [destruct (prefix_of password) as [prefix|e] eqn:Hp| |];
        try (exists []; rewrite app_nil_r; cbn;
             repeat split; [lia|intros q []]).
      exists [(hibp_url prefix, 10)]. cbn. repeat split; [lia|].
      intros q [<-|[]]. exists password, prefix. cbn. auto. }
    destruct Hmore as [more [Hsent [Hlen Hq]]].
    exists used, more, ran.
    split; [exact Hin|]. split; [exact Hused|]. split; [exact Hsent|].
    split; [exact Hlen|]. split; [exact Hq|]. split; [exact Hcmd|].
    split; [exact Hran|]. split; [exact Hpip|].
    intros Hne. destruct (Hyes Hne) as [_ [_ [answer [rest [Hstdin Hans]]]]].
    exists answer. split; [|exact Hans].
    destruct used as [|u [|u' used]];
      [destruct ran; [now contradiction Hne|simpl in Hran; lia]
      | |simpl in Hused; lia].
    rewrite Hstdin in Hin. injection Hin as -> _. now left.
Qed.

(** A step that touches the terminal's output only. *)
Lemma session_trace_quiet (hibp : bool) (w w' : world) :
  w' = with_shell w (host w') ->
  stdin (host w') = stdin (host w) ->
  commands (host w') = commands (host w) ->
  sys_executable (host w') = sys_executable (host w) ->
  session_trace hibp w w' [] [] [].
Proof.
  intros Hw Hin Hcmd Hexe. unfold session_trace. cbn [app List.length].
  rewrite !app_nil_r.
  split; [now rewrite Hin|]. split; [now rewrite Hw|]. split; [lia|].
  split; [intros q []|]. split; [exact Hcmd|]. split; [lia|].
  split; [intros c []|]. split; [intros Hne; now contradiction Hne|].
  split; [exact Hexe|]. split; [now rewrite Hw|]. intros _. auto.
Qed.

(** A step that reads one line and nothing else. *)
Lemma session_trace_line (hibp : bool) (w w' : world) (line : str) :
  w' = with_shell w (host w') ->
  stdin (host w) = line :: stdin (host w') ->
  commands (host w') = commands (host w) ->
  sys_executable (host w') = sys_executable (host w) ->
  session_trace hibp w w' [line] [] [].
Proof.
  intros Hw Hin Hcmd Hexe. unfold session_trace. cbn [app List.length].
  rewrite !app_nil_r.
  split; [exact Hin|]. split; [now rewrite Hw|]. split; [lia|].
  split; [intros q []|]. split; [exact Hcmd|]. split; [lia|].
  split; [intros c []|]. split; [intros Hne; now contradiction Hne|].
  split; [exact Hexe|]. split; [now rewrite Hw|]. intros _. auto.
Qed.

(** Reading a password and analysing it. *)
Lemma session_trace_analysis (args : arguments) (w : world) (sh : shell transport)
    (password : str) :
  stdin (host w) = password :: stdin sh ->
  commands sh = commands (host w) ->
  sys_executable sh = sys_executable (host w) ->
  let run := analyze_password password (arg_wordlist args) (arg_hibp args)
               (arg_verbose args) (with_shell w sh) in
  exists used more ran,
    session_trace (arg_hibp args) w (snd run) (password :: used) more ran /\
    match fst run with
    | Ok out => exists text, print_report password out = (Ok tt, text)
    | Err e => wordlist_escape (fs w) password (arg_wordlist args) = Some e
    end.
Proof.
  intros Hin Hcmd Hexe run.
  destruct (analyze_password_effects password (arg_wordlist args) (arg_hibp args)
              (arg_verbose args) (with_shell w sh))
    as [Hr [Hfs [[used [more [ran [Hin' [Hused [Hsent [Hlen [Hq [Hcmd' [Hran
          [Hpip Hyes]]]]]]]]]]] [Hexe' Hoff]]]].
  fold run in Hr, Hfs, Hin', Hsent, Hcmd', Hexe', Hoff.
  cbn [host with_shell fs sent] in Hfs, Hin', Hsent, Hcmd', Hexe', Hpip, Hr.
  exists used, more, ran. split; [|exact Hr].
  unfold session_trace.
  split; [rewrite Hin, Hin'; reflexivity|]. split; [exact Hsent|].
  split; [cbn [List.length]; lia|].
  split.
  { intros q Hmem. apply (range_query_of_incl [password]); [|auto].
    intros p [<-|[]]. now left. }
  split; [rewrite Hcmd', Hcmd; reflexivity|]. split; [cbn [List.length]; lia|].
  split.
  { intros c Hmem. rewrite <- (pip_install_argv_executable _ sh _ Hexe). auto. }
  split.
  { intros Hne. destruct (Hyes Hne) as [answer [Hmem Hans]].
    exists answer. split; [now right|exact Hans]. }
  split; [congruence|]. split; [exact Hfs|].
  intros Hh. rewrite (Hoff Hh). cbn [host with_shell].
  split; [reflexivity|].
  rewrite (Hoff Hh) in Hsent, Hcmd'. cbn [host with_shell sent] in Hsent, Hcmd'.
  split.
  - destruct more; [reflexivity|].
    apply (f_equal (@List.length _)) in Hsent. rewrite length_app in Hsent.
    simpl in Hsent. lia.
  - destruct ran; [reflexivity|].
    apply (f_equal (@List.length _)) in Hcmd'. rewrite length_app in Hcmd'.
    simpl in Hcmd'. lia.
Qed.

(** One round: what it has done when the loop ends with it, and that it has
    read two lines at least when the loop goes on. *)
Lemma loop_round_trace (args : arguments) (w : world) :
  exists used more ran,
    match loop_round args w with
    | inl (r, w') =>
        session_trace (arg_hibp args) w w' used more ran /\
        (r = Ok tt \/
         (r = Err EOFError /\ stdin (host w') = []) \/
         exists password e,
           In password used /\
           wordlist_escape (fs w) password (arg_wordlist args) = Some e /\
           r = Err e)
    | inr w' =>
        session_trace (arg_hibp args) w w' used more ran /\
        (2 <= List.length used)%nat
    end.
Proof.
  unfold loop_round, in_shell.
  set (ask := [LF] ++ lit "Enter password to check (or press Enter to quit): ").
  set (again := [LF] ++ lit "Check another? [y/N]: ").
  destruct (input_cases ask (host w)) as [Hcmd [Hexe Hin]].
  destruct (input ask (host w)) as [r sh]. cbn [fst snd] in Hcmd, Hexe, Hin.
  destruct (stdin (host w)) as [|line rest] eqn:Hstdin.
  { destruct Hin as [-> Hnil]. exists [], [], []. split.
    - apply session_trace_quiet; cbn [host with_shell]; congruence.
    - right. left. split; [reflexivity|exact Hnil]. }
  destruct Hin as [-> Hrest].
  destruct line as [|c line].
  { exists [[]], [], []. split; [|now left].
    apply session_trace_line; cbn [host with_shell]; congruence. }
  assert (Hline : stdin (host w) = (c :: line) :: stdin sh) by congruence.
  destruct (session_trace_analysis args w sh (c :: line) Hline Hcmd Hexe)
    as [used [more [ran [Htrace Hr]]]].
  cbv zeta in Htrace, Hr.
  destruct (analyze_password (c :: line) (arg_wordlist args) (arg_hibp args)
              (arg_verbose args) (with_shell w sh)) as [[out|e] wa];
    cbn [fst snd] in Htrace, Hr.
  2:{ exists ((c :: line) :: used), more, ran. split; [exact Htrace|].
      right. right. exists (c :: line), e. split; [now left|]. auto. }
  destruct Hr as [text ->].
  set (wp := with_shell wa (write (host wa) text)).
  assert (Hprint : session_trace (arg_hibp args) wa wp [] [] [])
    by (apply session_trace_quiet; reflexivity).
  pose proof (session_trace_trans _ _ _ _ _ _ _ _ _ _ Htrace Hprint) as Htrace'.
  rewrite !app_nil_r in Htrace'.
  destruct (input_cases again (host wp)) as [Hcmd2 [Hexe2 Hin2]].
  destruct (input again (host wp)) as [r2 sh2]. cbn [fst snd] in Hcmd2, Hexe2, Hin2.
  destruct (stdin (host wp)) as [|answer rest2] eqn:Hstdin2.
  { destruct Hin2 as [-> Hnil]. exists ((c :: line) :: used), more, ran.
    assert (Hlast : session_trace (arg_hibp args) wp (with_shell wp sh2) [] [] [])
      by (apply session_trace_quiet; cbn [host with_shell]; congruence).
    pose proof (session_trace_trans _ _ _ _ _ _ _ _ _ _ Htrace' Hlast) as Hall.
    rewrite !app_nil_r in Hall. split; [exact Hall|].
    right. left. split; [reflexivity|exact Hnil]. }
  destruct Hin2 as [-> Hrest2].
  assert (Hlast : session_trace (arg_hibp args) wp (with_shell wp sh2) [answer] [] [])
    by (apply session_trace_line; cbn [host with_shell]; congruence).
  pose proof (session_trace_trans _ _ _ _ _ _ _ _ _ _ Htrace' Hlast) as Hall.
  rewrite !app_nil_r in Hall.
  exists (((c :: line) :: used) ++ [answer]), more, ran.
  destruct (negb (is_yes (lower (strip answer)))).
  - split; [exact Hall|now left].
  - split; [exact Hall|]. rewrite length_app. cbn [List.length]. lia.
Qed.

(** The loop: with [fuel] rounds for fewer than [2 * fuel] lines on the
    terminal it ends, and more fuel changes nothing. *)
Lemma interactive_loop_trace (args : arguments) (fuel : nat) : forall w : world,
  (List.length (stdin (host w)) < 2 * fuel)%nat ->
  exists r w' used more ran,
    (forall fuel', (fuel <= fuel')%nat ->
                   interactive_loop fuel' args w = Some (r, w')) /\
    session_trace (arg_hibp args) w w' used more ran /\
    (r = Ok tt \/
     (r = Err EOFError /\ stdin (host w') = []) \/
     exists password e,
       In password used /\
       wordlist_escape (fs w) password (arg_wordlist args) = Some e /\
       r = Err e).
Proof.
  induction fuel as [|fuel IH]; intros w Hfuel; [lia|].
  destruct (loop_round_trace args w) as [used [more [ran Hround]]].
  destruct (loop_round args w) as [[r w']|w1] eqn:Hstep.
  - destruct Hround as [Htrace Hr]. exists r, w', used, more, ran.
    split; [|split; [exact Htrace|exact Hr]].
    intros [|fuel'] Hle; [lia|]. cbn [interactive_loop]. now rewrite Hstep.
  - destruct Hround as [Htrace Hused].
    assert (Hless : (List.length (stdin (host w1)) < 2 * fuel)%nat).
    { destruct Htrace as [Hin _]. rewrite Hin, length_app in Hfuel. lia. }
    destruct (IH w1 Hless) as [r [w' [used' [more' [ran' [Hrun [Htrace' Hr]]]]]]].
    exists r, w', (used ++ used'), (more ++ more'), (ran ++ ran').
    split; [|split; [exact (session_trace_trans _ _ _ _ _ _ _ _ _ _ Htrace Htrace')|]].
    + intros [|fuel'] Hle; [lia|]. cbn [interactive_loop]. rewrite Hstep.
      apply Hrun. lia.
    + assert (Hfs : fs w1 = fs w) by apply Htrace.
      destruct Hr as [Hr|[Hr|[password [e [Hmem [Hescape Hr]]]]]]; auto.
      right. right. exists password, e.
      split; [apply in_or_app; now right|]. split; [congruence|exact Hr].
Qed.


(** X21. Without [--hibp] an interactive session leaves the world as it
    found it, the terminal apart (the global [requests] is not set and
    nothing is sent over the network), and runs no command: it never installs
    a package. *)
Theorem interactive_session_offline (args : arguments) (w : world) (fuel : nat) :
  arg_hibp args = false ->
  (List.length (stdin (host w)) < 2 * fuel)%nat ->
  exists r sh',
    interactive_loop fuel args w = Some (r, with_shell w sh') /\
    commands sh' = commands (host w).
Proof.
  intros Hoff Hfuel.
  destruct (interactive_loop_trace args fuel w Hfuel)
    as [r [w' [used [more [ran [Hrun [[_ [_ [_ [_ [Hcmd [_ [_ [_ [_ [_ Hsame]]]]]]]]]] _]]]]]]].
  destruct (Hsame Hoff) as [Hw [_ ->]]. rewrite app_nil_r in Hcmd.
  exists r, (host w'). split; [rewrite <- Hw; apply Hrun; lia|exact Hcmd].
Qed.

(** X22. What an interactive session does outside the terminal. The requests
    that it sends are range queries of the breach check, with time-out 10,
    each for the five-character digest prefix of a line that the user typed,
    and no more of them than lines were read. The commands that it runs are
    [pip install requests] with the interpreter of the session, no more of
    them than lines were read, and none unless the breach check is on and a
    line read says [y] or [yes]. With the breach check off it sends nothing
    and runs nothing. *)
Theorem interactive_session_requests (args : arguments) (w : world) (fuel : nat) :
  (List.length (stdin (host w)) < 2 * fuel)%nat ->
  exists r w' used more ran,
    interactive_loop fuel args w = Some (r, w') /\
    stdin (host w) = used ++ stdin (host w') /\
    sent w' = sent w ++ more /\
    (List.length more <= List.length used)%nat /\
    (forall q, In q more -> range_query_of used q) /\
    commands (host w') = commands (host w) ++ ran /\
    (List.length ran <= List.length used)%nat /\
    (forall c, In c ran ->
       c = [sys_executable (host w); lit "-m"; lit "pip"; lit "install";
            lit "requests"]) /\
    (ran <> [] ->
     arg_hibp args = true /\
     exists answer, In answer used /\ is_yes (lower (strip answer)) = true) /\
    (arg_hibp args = false -> more = [] /\ ran = []).
Proof.
  intros Hfuel.
  destruct (interactive_loop_trace args fuel w Hfuel)
    as [r [w' [used [more [ran [Hrun [[Hin [Hsent [Hlen [Hq [Hcmd [Hran [Hpip
          [Hyes [_ [_ Hoff]]]]]]]]]] _]]]]]]].
  exists r, w', used, more, ran.
  split; [apply Hrun; lia|]. split; [exact Hin|]. split; [exact Hsent|].
  split; [exact Hlen|]. split; [exact Hq|]. split; [exact Hcmd|].
  split; [exact Hran|]. split; [exact Hpip|]. split.
  - intros Hne. split; [|exact (Hyes Hne)].
    destruct (arg_hibp args); [reflexivity|].
    destruct (Hoff eq_refl) as [_ [_ Hnil]]. now contradiction Hne.
  - intros Hh. destruct (Hoff Hh) as [_ [H1 H2]]. auto.
Qed.

End InteractiveFacts.


Lemma interactive_session_offline_witness :
  arg_hibp (example_arguments false) = false /\
  (List.length
     (stdin (host (example_world None
                     (typing [lit "password"; lit "y"; lit "hunter2"]))))
   < 2 * 2)%nat /\
  exists r sh',
    @interactive_loop ascii_runtime example_formatting ascii_casing 2
      (example_arguments false)
      (example_world None (typing [lit "password"; lit "y"; lit "hunter2"]))
    = Some (r, with_shell
                 (example_world None
                    (typing [lit "password"; lit "y"; lit "hunter2"])) sh') /\
    commands sh'
    = commands (host (example_world None
                        (typing [lit "password"; lit "y"; lit "hunter2"]))).
Proof.
  split; [reflexivity|]. split; [cbn; lia|].
  apply (@interactive_session_offline ascii_runtime example_formatting ascii_casing);
    [reflexivity|cbn; lia].
Defined.

Lemma interactive_session_requests_witness :
  (List.length
     (stdin (host (example_world (Some (respond 200 body_listed))
                     (typing [lit "password"; lit "n"]))))
   < 2 * 2)%nat /\
  exists r w' used more ran,
    @interactive_loop ascii_runtime example_formatting ascii_casing 2
      (example_arguments true)
      (example_world (Some (respond 200 body_listed))
         (typing [lit "password"; lit "n"]))
    = Some (r, w') /\
    stdin (host (example_world (Some (respond 200 body_listed))
                   (typing [lit "password"; lit "n"])))
    = used ++ stdin (host w') /\
    sent w'
    = sent (example_world (Some (respond 200 body_listed))
              (typing [lit "password"; lit "n"])) ++ more /\
    (List.length more <= List.length used)%nat /\
    (forall q, In q more -> @range_query_of ascii_runtime used q) /\
    commands (host w')
    = commands (host (example_world (Some (respond 200 body_listed))
                        (typing [lit "password"; lit "n"]))) ++ ran /\
    (List.length ran <= List.length used)%nat /\
    (forall c, In c ran ->
       c = [sys_executable
              (host (example_world (Some (respond 200 body_listed))
                       (typing [lit "password"; lit "n"])));
            lit "-m"; lit "pip"; lit "install"; lit "requests"]) /\
    (ran <> [] ->
     arg_hibp (example_arguments true) = true /\
     exists answer,
       In answer used /\ @is_yes (@lower ascii_casing (strip answer)) = true) /\
    (arg_hibp (example_arguments true) = false -> more = [] /\ ran = []).
Proof.
  split; [cbn; lia|].
  apply (@interactive_session_requests ascii_runtime example_formatting ascii_casing).
  cbn; lia.
Defined.
